(** * tinylisp.c: a shallow embedding of the Tiny LISP interpreter

    The C program keeps every object in a global table [all_objs] and
    passes [Obj*] pointers around.  Object identity matters to the program
    ([is_nil] and [builtin_eq] compare pointers), so the embedding keeps the
    table: a pointer is an index into it, and every function that allocates,
    prints or reports runs in a small state-and-error monad over the
    interpreter's globals.  Recursion that C leaves unbounded (the parser,
    the evaluator, loops over heap lists) is driven by a fuel argument.

    Choices where C leaves the behaviour open:
    - signed overflow in [+], [-] and [*] wraps around to 32 bits;
    - the overflowing division [INT_MIN / -1] traps, as the [idiv] of the
      x86 does: the run ends in [Fault];
    - [long] has 64 bits, and [atoi] is the C library's
      [(int) strtol(s, NULL, 10)]: a value that no [long] holds becomes
      [LONG_MAX] or [LONG_MIN], and the conversion to [int] keeps the low
      32 bits;
    - the arguments of a call are evaluated left to right (this fixes the
      order of allocations in [cons(make_symbol(..), cons(..))] and of the
      element evaluations in [eval_list]);
    - a dereference of NULL or of a pointer outside the table, and a read of
      the wrong union member, end the run in [Fault].

    [stderr] is kept as the list of the lines written: every [fprintf] to
    it in the program writes exactly one line. *)

From Stdlib Require Import ZArith List Ascii String Bool Arith Lia.
Import ListNotations.

Set Warnings "-abstract-large-number".

Open Scope string_scope.
Open Scope list_scope.
Open Scope nat_scope.

(** ** Characters and C strings *)

(** A C string is the list of its characters up to the terminating NUL. *)
Definition cstr := list ascii.

Definition lit (s : string) : cstr := list_ascii_of_string s.
Coercion lit : string >-> cstr.

Definition NUL : ascii := "000"%char.

(** [strcmp(a, b) == 0] *)
Fixpoint streq (a b : cstr) : bool :=
  match a, b with
  | [], [] => true
  | x :: a', y :: b' => Ascii.eqb x y && streq a' b'
  | _, _ => false
  end.

(** <ctype.h>, "C" locale.  Characters outside 7-bit ASCII are neither. *)
Definition isspace (c : ascii) : bool :=
  let n := N_of_ascii c in
  (N.eqb n 32 || (N.leb 9 n && N.leb n 13))%N.

Definition isdigit (c : ascii) : bool :=
  let n := N_of_ascii c in
  (N.leb 48 n && N.leb n 57)%N.

(** ** The C type [int]

    32 bits, two's complement.  Signed overflow is undefined in C; the model
    takes the wrapped result the hardware produces. *)
Definition INT_MIN : Z := (- 2 ^ 31)%Z.
Definition INT_MAX : Z := (2 ^ 31 - 1)%Z.

Definition wrap (z : Z) : Z := ((z + 2 ^ 31) mod 2 ^ 32 - 2 ^ 31)%Z.

Definition in_int (z : Z) : Prop := (INT_MIN <= z <= INT_MAX)%Z.

(** [printf("%d", n)]: decimal digits, most significant first. *)
Definition digit_char (d : Z) : ascii := ascii_of_N (48 + Z.to_N d).

Fixpoint digits_acc (fuel : nat) (n : Z) (acc : cstr) : cstr :=
  match fuel with
  | O => acc
  | S fuel' =>
      let acc' := digit_char (n mod 10) :: acc in
      if (n <? 10)%Z then acc' else digits_acc fuel' (n / 10) acc'
  end.

Definition digits (n : Z) : cstr := digits_acc (S (Z.to_nat (Z.log2 n))) n [].

Definition show_int (n : Z) : cstr :=
  if (n <? 0)%Z then "-"%char :: digits (- n) else digits n.

(** The C type [long]: 64 bits. *)
Definition LONG_MIN : Z := (- 2 ^ 63)%Z.
Definition LONG_MAX : Z := (2 ^ 63 - 1)%Z.

(** What [strtol] returns for the value [z] of the digits. *)
Definition clamp_long (z : Z) : Z := Z.max LONG_MIN (Z.min LONG_MAX z).

(** [strtol(s, NULL, 10)]: optional white space, optional sign, then
    decimal digits; [atoi(s)] is [(int) strtol(s, NULL, 10)]. *)
Definition digit_val (c : ascii) : Z := (Z.of_N (N_of_ascii c) - 48)%Z.

Fixpoint atoi_digits (acc : Z) (s : cstr) : Z :=
  match s with
  | c :: s' => if isdigit c then atoi_digits (10 * acc + digit_val c) s' else acc
  | [] => acc
  end.

Fixpoint strtol (s : cstr) : Z :=
  match s with
  | c :: s' =>
      if isspace c then strtol s'
      else if Ascii.eqb c "-" then clamp_long (- atoi_digits 0 s')
      else if Ascii.eqb c "+" then clamp_long (atoi_digits 0 s')
      else clamp_long (atoi_digits 0 s)
  | [] => 0%Z
  end.

Definition atoi (s : cstr) : Z := wrap (strtol s).

(** ** Objects *)

(** [Obj*]: NULL or the index of the object in [all_objs]. *)
Inductive ptr : Type :=
| NULL
| Addr (a : nat).

Definition ptr_eqb (p q : ptr) : bool :=
  match p, q with
  | NULL, NULL => true
  | Addr a, Addr b => Nat.eqb a b
  | _, _ => false
  end.

(** The values a [BuiltinFunc] function pointer takes in this program. *)
Inductive BuiltinFunc : Type :=
| fn_car | fn_cdr | fn_cons
| fn_add | fn_sub | fn_mul | fn_div
| fn_eq | fn_lt | fn_print.

(** [enum ObjType] *)
Inductive ObjType : Type :=
| T_INT | T_SYMBOL | T_CONS | T_FUNC | T_LAMBDA.

Definition ObjType_eqb (a b : ObjType) : bool :=
  match a, b with
  | T_INT, T_INT | T_SYMBOL, T_SYMBOL | T_CONS, T_CONS
  | T_FUNC, T_FUNC | T_LAMBDA, T_LAMBDA => true
  | _, _ => false
  end.

(** [struct Obj]: each case is a tag together with the union member the
    tag selects. *)
Inductive Obj : Type :=
| ObjInt (num : Z)
| ObjSymbol (sym : cstr)
| ObjCons (car cdr : ptr)
| ObjFunc (func : BuiltinFunc)
| ObjLambda (params body env : ptr).

Definition type (o : Obj) : ObjType :=
  match o with
  | ObjInt _ => T_INT
  | ObjSymbol _ => T_SYMBOL
  | ObjCons _ _ => T_CONS
  | ObjFunc _ => T_FUNC
  | ObjLambda _ _ _ => T_LAMBDA
  end.

Definition MAX_OBJS : nat := 10000.

(** ** Interpreter state: the globals and the two output streams *)

Record State : Type := mkState {
  all_objs : list Obj;            (* obj_count is its length *)
  nil_obj : ptr;
  t_obj : ptr;
  global_env_ptr : option ptr;    (* None: NULL; Some g: points to a cell holding g *)
  out : cstr;                     (* stdout *)
  err : list cstr                 (* stderr, one entry per line written *)
}.

Definition obj_count (s : State) : nat := List.length (all_objs s).

(** ** The monad *)

Inductive Res (A : Type) : Type :=
| Ok (a : A) (s : State)
| Exit (code : Z) (s : State)     (* exit() was called *)
| Fault                           (* undefined behaviour: bad dereference *)
| Timeout.                        (* fuel exhausted *)

Arguments Ok {A} a s.
Arguments Exit {A} code s.
Arguments Fault {A}.
Arguments Timeout {A}.

Definition M (A : Type) : Type := State -> Res A.

Definition ret {A} (a : A) : M A := fun s => Ok a s.

Definition bind {A B} (m : M A) (f : A -> M B) : M B :=
  fun s =>
    match m s with
    | Ok a s' => f a s'
    | Exit c s' => Exit c s'
    | Fault => Fault
    | Timeout => Timeout
    end.

Declare Scope lisp_scope.
Delimit Scope lisp_scope with lisp.
Notation "x <- m ;; k" := (bind m (fun x => k))
  (at level 61, m at next level, right associativity) : lisp_scope.
Notation "' pat <- m ;; k" := (bind m (fun x => match x with pat => k end))
  (at level 61, pat pattern, m at next level, right associativity) : lisp_scope.
Notation "m ;; k" := (bind m (fun _ => k))
  (at level 61, right associativity) : lisp_scope.
Open Scope lisp_scope.

Definition fault {A} : M A := fun _ => Fault.
Definition timeout {A} : M A := fun _ => Timeout.
Definition gets {A} (f : State -> A) : M A := fun s => Ok (f s) s.

(** [fprintf(stderr, "...\n")]: one line. *)
Definition fprintf_stderr (line : cstr) : M unit :=
  fun s => Ok tt (mkState (all_objs s) (nil_obj s) (t_obj s) (global_env_ptr s)
                          (out s) (err s ++ [line])).

(** [printf("...")] *)
Definition printf (text : cstr) : M unit :=
  fun s => Ok tt (mkState (all_objs s) (nil_obj s) (t_obj s) (global_env_ptr s)
                          (out s ++ text) (err s)).

Definition exit {A} (code : Z) : M A := fun s => Exit code s.

(** The object a pointer refers to, if it refers to one. *)
Definition lookup (s : State) (p : ptr) : option Obj :=
  match p with
  | NULL => None
  | Addr a => nth_error (all_objs s) a
  end.

(** [p->...]: reading through a pointer. *)
Definition deref (p : ptr) : M Obj :=
  fun s =>
    match lookup s p with
    | Some o => Ok o s
    | None => Fault
    end.

(** ** Allocation and constructors *)

(** [all_objs[obj_count++] = obj] *)
Definition store_obj (o : Obj) (s : State) : State :=
  mkState (all_objs s ++ [o]) (nil_obj s) (t_obj s) (global_env_ptr s)
          (out s) (err s).

(** [alloc_obj] followed by the stores that fill the new object in. *)
Definition alloc_obj (o : Obj) : M ptr :=
  n <- gets obj_count ;;
  if MAX_OBJS <=? n then
    fprintf_stderr "Out of memory" ;; exit 1
  else
    fun s => Ok (Addr n) (store_obj o s).

Definition make_int (num : Z) : M ptr := alloc_obj (ObjInt num).
Definition make_symbol (name : cstr) : M ptr := alloc_obj (ObjSymbol name).
Definition cons (car cdr : ptr) : M ptr := alloc_obj (ObjCons car cdr).
Definition make_func (func : BuiltinFunc) : M ptr := alloc_obj (ObjFunc func).
Definition make_lambda (params body env : ptr) : M ptr :=
  alloc_obj (ObjLambda params body env).

Definition is_nil (obj : ptr) : M bool :=
  n <- gets nil_obj ;; ret (ptr_eqb obj n).

Definition car (obj : ptr) : M ptr :=
  o <- deref obj ;;
  match o with
  | ObjCons a _ => ret a
  | _ => fprintf_stderr "CAR: not a cons cell" ;; gets nil_obj
  end.

Definition cdr (obj : ptr) : M ptr :=
  o <- deref obj ;;
  match o with
  | ObjCons _ d => ret d
  | _ => fprintf_stderr "CDR: not a cons cell" ;; gets nil_obj
  end.

(** Reading [p->sym] / [p->num] of an object with another tag reads the
    wrong union member. *)
Definition sym_of (p : ptr) : M cstr :=
  o <- deref p ;;
  match o with
  | ObjSymbol name => ret name
  | _ => fault
  end.

(** ** Printer *)

Fixpoint print_obj (fuel : nat) (obj : ptr) : M unit :=
  match fuel with
  | O => timeout
  | S fuel' =>
      match obj with
      | NULL => printf "NULL"
      | _ =>
          o <- deref obj ;;
          match o with
          | ObjInt num => printf (show_int num)
          | ObjSymbol name => printf name
          | ObjCons _ _ =>
              printf "(" ;;
              a <- car obj ;;
              print_obj fuel' a ;;
              d <- cdr obj ;;
              print_tail fuel' d ;;
              printf ")"
          | ObjFunc _ => printf "<built-in function>"
          | ObjLambda _ _ _ => printf "<lambda>"
          end
      end
  end
(** the [while (!is_nil(obj))] loop of the [T_CONS] case *)
with print_tail (fuel : nat) (obj : ptr) : M unit :=
  match fuel with
  | O => timeout
  | S fuel' =>
      stop <- is_nil obj ;;
      if stop then ret tt
      else
        o <- deref obj ;;
        match o with
        | ObjCons _ _ =>
            printf " " ;;
            a <- car obj ;;
            print_obj fuel' a ;;
            d <- cdr obj ;;
            print_tail fuel' d
        | _ => printf " . " ;; print_obj fuel' obj
        end
  end.

(** ** Tokenizer *)

Record Tokenizer : Type := mkTokenizer {
  input : cstr;
  pos : nat
}.

(** [t->input[t->pos]]; past the last character the string's NUL is read. *)
Definition cur (t : Tokenizer) : ascii := nth (pos t) (input t) NUL.

(** [t->pos++] *)
Definition advance (t : Tokenizer) : Tokenizer :=
  mkTokenizer (input t) (S (pos t)).

Definition newline : ascii := "010"%char.

(** The loops of the tokenizer move [pos] forward by one per iteration and
    stop at the NUL, so the length of the input bounds their iterations. *)
Fixpoint skip_comment (n : nat) (t : Tokenizer) : Tokenizer :=
  match n with
  | O => t
  | S n' =>
      if negb (Ascii.eqb (cur t) NUL) && negb (Ascii.eqb (cur t) newline)
      then skip_comment n' (advance t)
      else t
  end.

Fixpoint skip_whitespace_loop (n : nat) (t : Tokenizer) : Tokenizer :=
  match n with
  | O => t
  | S n' =>
      if Ascii.eqb (cur t) NUL then t
      else if isspace (cur t) then skip_whitespace_loop n' (advance t)
      else if Ascii.eqb (cur t) ";" then
        skip_whitespace_loop n' (skip_comment (List.length (input t)) t)
      else t
  end.

Definition skip_whitespace (t : Tokenizer) : Tokenizer :=
  skip_whitespace_loop (S (List.length (input t))) t.

(** The [while] loop of [read_token] over the characters of an atom. *)
Fixpoint scan_atom (n : nat) (t : Tokenizer) : Tokenizer :=
  match n with
  | O => t
  | S n' =>
      if negb (Ascii.eqb (cur t) NUL) && negb (isspace (cur t))
         && negb (Ascii.eqb (cur t) "(") && negb (Ascii.eqb (cur t) ")")
      then scan_atom n' (advance t)
      else t
  end.

(** [None] is the NULL token of the source. *)
Definition read_token (t : Tokenizer) : option cstr * Tokenizer :=
  let t := skip_whitespace t in
  if Ascii.eqb (cur t) NUL then (None, t)
  else if Ascii.eqb (cur t) "(" || Ascii.eqb (cur t) ")" then
    (Some [cur t], advance t)
  else
    let start := pos t in
    let t' := scan_atom (List.length (input t)) t in
    let len := pos t' - start in
    (Some (firstn len (skipn start (input t))), t').

(** ** Parser *)

(** The number test of [parse_expr]: [i] starts after an optional '-',
    an empty remainder is no number, and the [for] loop clears [is_num] at
    the first character that is no digit. *)
Definition is_num (token : cstr) : bool :=
  let i := if Ascii.eqb (nth 0 token NUL) "-" then 1 else 0 in
  negb (Ascii.eqb (nth i token NUL) NUL) && forallb isdigit (skipn i token).

Fixpoint parse_expr (fuel : nat) (t : Tokenizer) : M (ptr * Tokenizer) :=
  match fuel with
  | O => timeout
  | S fuel' =>
      let (token, t) := read_token t in
      match token with
      | None => ret (NULL, t)
      | Some token =>
          if streq token "(" then
            '(list, t) <- parse_list fuel' t ;;
            let (token, t) := read_token t in
            match token with
            | Some token =>
                if streq token ")" then ret tt else fprintf_stderr "Expected ')'"
            | None => fprintf_stderr "Expected ')'"
            end ;;
            ret (list, t)
          else if streq token "'" then
            '(quoted, t) <- parse_expr fuel' t ;;
            q <- make_symbol "quote" ;;
            n <- gets nil_obj ;;
            tl <- cons quoted n ;;
            c <- cons q tl ;;
            ret (c, t)
          else if is_num token then
            i <- make_int (atoi token) ;;
            ret (i, t)
          else
            sym <- make_symbol token ;;
            ret (sym, t)
      end
  end
with parse_list (fuel : nat) (t : Tokenizer) : M (ptr * Tokenizer) :=
  match fuel with
  | O => timeout
  | S fuel' =>
      let t := skip_whitespace t in
      if Ascii.eqb (cur t) ")" then
        n <- gets nil_obj ;; ret (n, t)
      else if Ascii.eqb (cur t) NUL then
        fprintf_stderr "Unexpected EOF in list" ;;
        n <- gets nil_obj ;; ret (n, t)
      else
        '(car_obj, t) <- parse_expr fuel' t ;;
        '(cdr_obj, t) <- parse_list fuel' t ;;
        c <- cons car_obj cdr_obj ;;
        ret (c, t)
  end.

(** ** Environments *)

Fixpoint env_lookup (fuel : nat) (env : ptr) (name : cstr) : M ptr :=
  match fuel with
  | O => timeout
  | S fuel' =>
      stop <- is_nil env ;;
      if stop then ret NULL
      else
        pair <- car env ;;
        key <- car pair ;;
        key_name <- sym_of key ;;
        if streq key_name name then cdr pair
        else
          env' <- cdr env ;;
          env_lookup fuel' env' name
  end.

Definition env_define (env : ptr) (name : cstr) (value : ptr) : M ptr :=
  key <- make_symbol name ;;
  pair <- cons key value ;;
  cons pair env.

(** ** Built-in functions

    Each takes the evaluated argument list and the caller's environment.
    The loops walk a list in the heap, hence the fuel. *)

Definition builtin_car (args env : ptr) : M ptr :=
  stop <- is_nil args ;;
  if stop then gets nil_obj
  else a <- car args ;; car a.

Definition builtin_cdr (args env : ptr) : M ptr :=
  stop <- is_nil args ;;
  if stop then gets nil_obj
  else a <- car args ;; cdr a.

Definition builtin_cons (args env : ptr) : M ptr :=
  stop <- is_nil args ;;
  if stop then gets nil_obj
  else
    d <- cdr args ;;
    stop <- is_nil d ;;
    if stop then gets nil_obj
    else
      a <- car args ;;
      d <- cdr args ;;
      b <- car d ;;
      cons a b.

Fixpoint add_loop (fuel : nat) (sum : Z) (args : ptr) : M ptr :=
  match fuel with
  | O => timeout
  | S fuel' =>
      stop <- is_nil args ;;
      if stop then make_int sum
      else
        arg <- car args ;;
        o <- deref arg ;;
        match o with
        | ObjInt num =>
            args' <- cdr args ;;
            add_loop fuel' (wrap (sum + num)) args'
        | _ => fprintf_stderr "+: expected integer" ;; make_int 0
        end
  end.

Definition builtin_add (fuel : nat) (args env : ptr) : M ptr :=
  add_loop fuel 0%Z args.

Fixpoint sub_loop (fuel : nat) (result : Z) (args : ptr) : M ptr :=
  match fuel with
  | O => timeout
  | S fuel' =>
      stop <- is_nil args ;;
      if stop then make_int result
      else
        arg <- car args ;;
        o <- deref arg ;;
        match o with
        | ObjInt num =>
            args' <- cdr args ;;
            sub_loop fuel' (wrap (result - num)) args'
        | _ => make_int 0
        end
  end.

Definition builtin_sub (fuel : nat) (args env : ptr) : M ptr :=
  stop <- is_nil args ;;
  if stop then make_int 0
  else
    first <- car args ;;
    o <- deref first ;;
    match o with
    | ObjInt num =>
        d <- cdr args ;;
        stop <- is_nil d ;;
        if stop then make_int (wrap (- num))
        else
          args' <- cdr args ;;
          sub_loop fuel num args'
    | _ => make_int 0
    end.

Fixpoint mul_loop (fuel : nat) (product : Z) (args : ptr) : M ptr :=
  match fuel with
  | O => timeout
  | S fuel' =>
      stop <- is_nil args ;;
      if stop then make_int product
      else
        arg <- car args ;;
        o <- deref arg ;;
        match o with
        | ObjInt num =>
            args' <- cdr args ;;
            mul_loop fuel' (wrap (product * num)) args'
        | _ => make_int 1
        end
  end.

Definition builtin_mul (fuel : nat) (args env : ptr) : M ptr :=
  mul_loop fuel 1%Z args.

(** C's [/] truncates toward zero: [Z.quot].  The one quotient that no
    [int] holds, [INT_MIN / -1], traps. *)
Fixpoint div_loop (fuel : nat) (result : Z) (args : ptr) : M ptr :=
  match fuel with
  | O => timeout
  | S fuel' =>
      stop <- is_nil args ;;
      if stop then make_int result
      else
        arg <- car args ;;
        o <- deref arg ;;
        match o with
        | ObjInt num =>
            if (num =? 0)%Z then
              fprintf_stderr "/: division by zero or bad argument" ;; make_int 0
            else if (result =? INT_MIN)%Z && (num =? -1)%Z then fault
            else
              args' <- cdr args ;;
              div_loop fuel' (wrap (Z.quot result num)) args'
        | _ => fprintf_stderr "/: division by zero or bad argument" ;; make_int 0
        end
  end.

Definition builtin_div (fuel : nat) (args env : ptr) : M ptr :=
  stop <- is_nil args ;;
  if stop then make_int 1
  else
    first <- car args ;;
    o <- deref first ;;
    match o with
    | ObjInt num =>
        args' <- cdr args ;;
        div_loop fuel num args'
    | _ => make_int 1
    end.

Definition builtin_eq (args env : ptr) : M ptr :=
  stop <- is_nil args ;;
  if stop then gets nil_obj
  else
    d <- cdr args ;;
    stop <- is_nil d ;;
    if stop then gets nil_obj
    else
      a <- car args ;;
      d <- cdr args ;;
      b <- car d ;;
      oa <- deref a ;;
      ob <- deref b ;;
      if negb (ObjType_eqb (type oa) (type ob)) then gets nil_obj
      else
        match oa, ob with
        | ObjInt x, ObjInt y =>
            if (x =? y)%Z then gets t_obj else gets nil_obj
        | _, _ =>
            if ptr_eqb a b then gets t_obj else gets nil_obj
        end.

Definition builtin_lt (args env : ptr) : M ptr :=
  stop <- is_nil args ;;
  if stop then gets nil_obj
  else
    d <- cdr args ;;
    stop <- is_nil d ;;
    if stop then gets nil_obj
    else
      a <- car args ;;
      d <- cdr args ;;
      b <- car d ;;
      oa <- deref a ;;
      match oa with
      | ObjInt x =>
          ob <- deref b ;;
          match ob with
          | ObjInt y => if (x <? y)%Z then gets t_obj else gets nil_obj
          | _ => gets nil_obj
          end
      | _ => gets nil_obj
      end.

Fixpoint builtin_print (fuel : nat) (args env : ptr) : M ptr :=
  match fuel with
  | O => timeout
  | S fuel' =>
      stop <- is_nil args ;;
      if stop then gets nil_obj
      else
        a <- car args ;;
        print_obj fuel' a ;;
        printf [newline] ;;
        args' <- cdr args ;;
        builtin_print fuel' args' env
  end.

(** [func->func(evaled_args, env)] *)
Definition call_builtin (f : BuiltinFunc) (fuel : nat) (args env : ptr) : M ptr :=
  match f with
  | fn_car => builtin_car args env
  | fn_cdr => builtin_cdr args env
  | fn_cons => builtin_cons args env
  | fn_add => builtin_add fuel args env
  | fn_sub => builtin_sub fuel args env
  | fn_mul => builtin_mul fuel args env
  | fn_div => builtin_div fuel args env
  | fn_eq => builtin_eq args env
  | fn_lt => builtin_lt args env
  | fn_print => builtin_print fuel args env
  end.

(** ** Evaluator *)

(** [*global_env_ptr = e] *)
Definition set_global_env (e : ptr) : M unit :=
  fun s => Ok tt (mkState (all_objs s) (nil_obj s) (t_obj s) (Some e)
                          (out s) (err s)).

(** The parameter-binding loop of the [T_LAMBDA] case of [eval]. *)
Fixpoint bind_params (fuel : nat) (new_env params vals : ptr) : M ptr :=
  match fuel with
  | O => timeout
  | S fuel' =>
      pn <- is_nil params ;;
      vn <- is_nil vals ;;
      if negb pn && negb vn then
        p <- car params ;;
        name <- sym_of p ;;
        v <- car vals ;;
        new_env' <- env_define new_env name v ;;
        params' <- cdr params ;;
        vals' <- cdr vals ;;
        bind_params fuel' new_env' params' vals'
      else ret new_env
  end.

(** Arguments are evaluated left to right. *)
Fixpoint eval (fuel : nat) (expr env : ptr) : M ptr :=
  match fuel with
  | O => timeout
  | S fuel' =>
      match expr with
      | NULL => gets nil_obj
      | _ =>
          o <- deref expr ;;
          match o with
          | ObjInt _ => ret expr
          | ObjSymbol name =>
              if streq name "nil" then gets nil_obj
              else if streq name "t" then gets t_obj
              else
                val <- env_lookup fuel' env name ;;
                g <- gets global_env_ptr ;;
                val <- match val, g with
                       | NULL, Some genv => env_lookup fuel' genv name
                       | _, _ => ret val
                       end ;;
                match val with
                | NULL => fprintf_stderr (lit "Undefined symbol: " ++ name) ;; gets nil_obj
                | _ => ret val
                end
          | ObjCons _ _ =>
              op <- car expr ;;
              args <- cdr expr ;;
              oo <- deref op ;;
              let application :=
                func <- eval fuel' op env ;;
                fo <- deref func ;;
                match fo with
                | ObjFunc f =>
                    evaled_args <- eval_list fuel' args env ;;
                    call_builtin f fuel' evaled_args env
                | ObjLambda params body lenv =>
                    evaled_args <- eval_list fuel' args env ;;
                    new_env <- bind_params fuel' lenv params evaled_args ;;
                    eval fuel' body new_env
                | _ => fprintf_stderr "Not a function" ;; gets nil_obj
                end in
              match oo with
              | ObjSymbol name =>
                  if streq name "quote" then car args
                  else if streq name "if" then
                    c <- car args ;;
                    cond <- eval fuel' c env ;;
                    cn <- is_nil cond ;;
                    if negb cn then
                      d <- cdr args ;;
                      th <- car d ;;
                      eval fuel' th env
                    else
                      d <- cdr args ;;
                      dd <- cdr d ;;
                      en <- is_nil dd ;;
                      if negb en then
                        d <- cdr args ;;
                        dd <- cdr d ;;
                        el <- car dd ;;
                        eval fuel' el env
                      else gets nil_obj
                  else if streq name "lambda" then
                    params <- car args ;;
                    d <- cdr args ;;
                    body <- car d ;;
                    make_lambda params body env
                  else if streq name "defun" then
                    name <- car args ;;
                    d <- cdr args ;;
                    params <- car d ;;
                    d <- cdr args ;;
                    dd <- cdr d ;;
                    body <- car dd ;;
                    g <- gets global_env_ptr ;;
                    lambda <- make_lambda params body
                                (match g with Some genv => genv | None => env end) ;;
                    match g with
                    | Some genv =>
                        fname <- sym_of name ;;
                        genv' <- env_define genv fname lambda ;;
                        set_global_env genv'
                    | None => ret tt
                    end ;;
                    ret name
                  else application
              | _ => application
              end
          | _ => ret expr
          end
      end
  end
with eval_list (fuel : nat) (list env : ptr) : M ptr :=
  match fuel with
  | O => timeout
  | S fuel' =>
      stop <- is_nil list ;;
      if stop then gets nil_obj
      else
        a <- car list ;;
        v <- eval fuel' a env ;;
        d <- cdr list ;;
        vs <- eval_list fuel' d env ;;
        cons v vs
  end.

(** ** Start-up and the read-eval-print step *)

Definition init_env : M ptr :=
  env <- gets nil_obj ;;
  f <- make_func fn_car ;; env <- env_define env "car" f ;;
  f <- make_func fn_cdr ;; env <- env_define env "cdr" f ;;
  f <- make_func fn_cons ;; env <- env_define env "cons" f ;;
  f <- make_func fn_add ;; env <- env_define env "+" f ;;
  f <- make_func fn_sub ;; env <- env_define env "-" f ;;
  f <- make_func fn_mul ;; env <- env_define env "*" f ;;
  f <- make_func fn_div ;; env <- env_define env "/" f ;;
  f <- make_func fn_eq ;; env <- env_define env "eq" f ;;
  f <- make_func fn_lt ;; env <- env_define env "<" f ;;
  f <- make_func fn_print ;; env <- env_define env "print" f ;;
  ret env.

(** The state of a freshly started process: no object, NULL globals. *)
Definition start : State := mkState [] NULL NULL None [] [].

Definition set_nil_obj (p : ptr) : M unit :=
  fun s => Ok tt (mkState (all_objs s) p (t_obj s) (global_env_ptr s)
                          (out s) (err s)).

Definition set_t_obj (p : ptr) : M unit :=
  fun s => Ok tt (mkState (all_objs s) (nil_obj s) p (global_env_ptr s)
                          (out s) (err s)).

(** [repl] up to its loop, without the banner. *)
Definition repl_init : M unit :=
  n <- alloc_obj (ObjSymbol "nil") ;; set_nil_obj n ;;
  t <- alloc_obj (ObjSymbol "t") ;; set_t_obj t ;;
  global_env <- init_env ;;
  set_global_env global_env.

(** One pass of the [repl] loop once [input] has been read: parse the
    first expression, evaluate it in [global_env], print the result.
    The value is returned as well, for the statements below. *)
Definition repl_step (fuel : nat) (text : cstr) : M ptr :=
  '(expr, _) <- parse_expr fuel (mkTokenizer text 0) ;;
  match expr with
  | NULL => ret NULL
  | _ =>
      g <- gets global_env_ptr ;;
      match g with
      | None => fault
      | Some global_env =>
          result <- eval fuel expr global_env ;;
          print_obj fuel result ;;
          printf [newline] ;;
          ret result
      end
  end.

(** ** The line reader of [repl]

    Standard input is given as the strings that successive calls of
    [fgets(line, sizeof(line), stdin)] store in [line]; at the end of the
    list [fgets] returns NULL, and goes on doing so. *)

(** The C string held in a buffer: the characters before the first NUL. *)
Fixpoint c_str (b : cstr) : cstr :=
  match b with
  | [] => []
  | c :: b' => if Ascii.eqb c NUL then [] else c :: c_str b'
  end.

Definition strlen (b : cstr) : nat := List.length (c_str b).

Definition strcat (dst src : cstr) : cstr := c_str dst ++ c_str src.

(** [sizeof(input)] *)
Definition INPUT_SIZE : nat := 4096.

(** The loop that sets [is_empty]: [in_comment] is never cleared here. *)
Fixpoint is_empty_loop (in_comment : bool) (line : cstr) : bool :=
  match line with
  | [] => true
  | c :: line' =>
      if Ascii.eqb c NUL then true
      else
        let in_comment := if Ascii.eqb c ";" then true else in_comment in
        if negb in_comment && negb (isspace c) then false
        else is_empty_loop in_comment line'
  end.

Definition is_empty (line : cstr) : bool := is_empty_loop false line.

(** The loop that counts parentheses outside comments. *)
Fixpoint count_parens (in_comment : bool) (paren_depth : Z) (line : cstr) : Z :=
  match line with
  | [] => paren_depth
  | c :: line' =>
      if Ascii.eqb c NUL then paren_depth
      else
        let in_comment := if Ascii.eqb c ";" then true else in_comment in
        let in_comment := if Ascii.eqb c newline then false else in_comment in
        let paren_depth :=
          if negb in_comment then
            let d := if Ascii.eqb c "(" then wrap (paren_depth + 1)
                     else paren_depth in
            if Ascii.eqb c ")" then wrap (d - 1) else d
          else paren_depth in
        count_parens in_comment paren_depth line'
  end.

(** The loop that sets [has_content]. *)
Fixpoint has_content_loop (in_comment : bool) (input : cstr) : bool :=
  match input with
  | [] => false
  | c :: input' =>
      if Ascii.eqb c NUL then false
      else
        let in_comment := if Ascii.eqb c ";" then true else in_comment in
        let in_comment := if Ascii.eqb c newline then false else in_comment in
        if negb in_comment && negb (isspace c) then true
        else has_content_loop in_comment input'
  end.

Definition has_content (input : cstr) : bool := has_content_loop false input.

(** The inner [while (1)] of [repl], one line of [stdin] per iteration.
    [None] is the [return] at the end of the input; otherwise the loop was
    left by [break] with [input]. *)
Fixpoint read_lines (stdin : list cstr) (input : cstr) (paren_depth : Z)
    (first_line : bool) : M (option cstr * list cstr) :=
  match stdin with
  | [] =>
      if strlen input =? 0 then printf [newline] ;; ret (None, [])
      else ret (Some input, [])
  | line :: stdin' =>
      if is_empty line && first_line then ret (Some input, stdin')
      else
        let input :=
          if strlen input + strlen line <? INPUT_SIZE - 1
          then strcat input line else input in
        let paren_depth := count_parens false paren_depth line in
        if (paren_depth =? 0)%Z && (0 <? strlen input) && has_content input
        then ret (Some input, stdin')
        else
          (if (0 <? paren_depth)%Z then printf "  " else ret tt) ;;
          read_lines stdin' input paren_depth false
  end.

(** The outer [while (1)] of [repl]: [n] bounds its iterations, [fuel] is
    that of each read-eval-print step. *)
Fixpoint repl_loop (n fuel : nat) (stdin : list cstr) : M unit :=
  match n with
  | O => timeout
  | S n' =>
      printf "> " ;;
      '(r, stdin') <- read_lines stdin [] 0%Z true ;;
      match r with
      | None => ret tt
      | Some input =>
          if strlen input =? 0 then repl_loop n' fuel stdin'
          else repl_step fuel input ;; repl_loop n' fuel stdin'
      end
  end.

Definition banner : cstr :=
  lit "Tiny LISP Interpreter" ++ [newline] ++
  lit "Type expressions to evaluate. Press Ctrl+D to exit." ++ [newline] ++
  lit "Multi-line expressions are supported." ++ [newline; newline].

Definition repl (n fuel : nat) (stdin : list cstr) : M unit :=
  repl_init ;;
  printf banner ;;
  repl_loop n fuel stdin.

(** [main]: the exit status after [repl] has returned. *)
Definition main (n fuel : nat) (stdin : list cstr) : M Z :=
  repl n fuel stdin ;; ret 0%Z.

(** * Vocabulary of the statements *)

(** ** States *)

(** [stderr] after one more line. *)
Definition log (line : cstr) (s : State) : State :=
  mkState (all_objs s) (nil_obj s) (t_obj s) (global_env_ptr s)
          (out s) (err s ++ [line]).

(** [stdout] after more text. *)
Definition printed (text : cstr) (s : State) : State :=
  mkState (all_objs s) (nil_obj s) (t_obj s) (global_env_ptr s)
          (out s ++ text) (err s).

(** There is room for [k] more objects. *)
Definition room (k : nat) (s : State) : Prop := obj_count s + k <= MAX_OBJS.

(** The nil object is an allocated Symbol named nil. *)
Definition nil_allocated (s : State) : Prop :=
  lookup s (nil_obj s) = Some (ObjSymbol "nil").

(** [s'] is [s] after some allocations and output: the objects of [s] are
    where they were, and the nil and t objects are the same. *)
Definition extends (s s' : State) : Prop :=
  (exists l, all_objs s' = all_objs s ++ l) /\
  nil_obj s' = nil_obj s /\ t_obj s' = t_obj s.

(** A computation that, when it returns, has only added to the state. *)
Definition stable {A} (m : M A) : Prop :=
  forall s a s', m s = Ok a s' -> extends s s'.

(** [m'] does what [m] does, unless [m] runs out of fuel. *)
Definition refines {A} (m m' : M A) : Prop :=
  forall s, m s = Timeout \/ m' s = m s.

(** [env_define] allocates the key, the pair and the new head, in this
    order. *)
Definition bound (env : ptr) (name : cstr) (value : ptr) (s : State) : State :=
  let n := obj_count s in
  store_obj (ObjCons (Addr (n + 1)) env)
    (store_obj (ObjCons (Addr n) value)
       (store_obj (ObjSymbol name) s)).

(** ** Lists and environments in the heap *)

(** [p] is a proper list in the heap of [s] with the elements [l]: a chain
    of cons cells, none of them the nil object, ending in the nil object. *)
Fixpoint is_list (s : State) (p : ptr) (l : list ptr) : Prop :=
  match l with
  | [] => p = nil_obj s
  | x :: l' =>
      p <> nil_obj s /\
      exists d, lookup s p = Some (ObjCons x d) /\ is_list s d l'
  end.



Definition is_symbol (s : State) (p : ptr) (name : cstr) : Prop :=
  lookup s p = Some (ObjSymbol name).

(** The third element of the argument list of [if]: [r2] is what follows
    the first two arguments. *)
Definition else_branch (s : State) (r2 : ptr) (el : option ptr) : Prop :=
  match el with
  | Some e => r2 <> nil_obj s /\ exists r3, lookup s r2 = Some (ObjCons e r3)
  | None => r2 = nil_obj s
  end.

(** The head of an expression names one of the special forms of [eval]. *)
Definition special_form (o : Obj) : bool :=
  match o with
  | ObjSymbol name =>
      streq name "quote" || streq name "if" || streq name "lambda"
      || streq name "defun"
  | _ => false
  end.

(** [env_chain s e bs base]: starting at [e], the bindings [bs], innermost
    first, lead to the environment [base]. *)
Fixpoint env_chain (s : State) (e : ptr) (bs : list (cstr * ptr)) (base : ptr)
  : Prop :=
  match bs with
  | [] => e = base
  | (name, value) :: bs' =>
      e <> nil_obj s /\
      exists pair key rest,
        lookup s e = Some (ObjCons pair rest) /\
        lookup s pair = Some (ObjCons key value) /\
        lookup s key = Some (ObjSymbol name) /\
        env_chain s rest bs' base
  end.

(** First binding of [name] in [bs]. *)
Fixpoint assoc (name : cstr) (bs : list (cstr * ptr)) : option ptr :=
  match bs with
  | [] => None
  | (key, value) :: bs' => if streq key name then Some value else assoc name bs'
  end.

(** ** Tokens and text *)

(** The value of a string of decimal digits, most significant first. *)
Definition decimal (ds : cstr) : Z :=
  fold_left (fun acc c => (10 * acc + digit_val c)%Z) ds 0%Z.

Definition all_digits (ds : cstr) : Prop := Forall (fun c => isdigit c = true) ds.

(** [integer_token tok z]: the characters of [tok] are an optional leading
    '-' followed by at least one decimal digit and nothing else, and [z] is
    the number they denote in base 10. *)
Inductive integer_token : cstr -> Z -> Prop :=
| integer_plain ds :
    ds <> [] -> all_digits ds -> integer_token ds (decimal ds)
| integer_minus ds :
    ds <> [] -> all_digits ds -> integer_token ("-"%char :: ds) (- decimal ds).

(** What the tokenizer has not read yet. *)
Definition rest (t : Tokenizer) : cstr := skipn (pos t) (input t).

(** A character [read_token] keeps in an atom. *)
Definition atom_char (c : ascii) : bool :=
  negb (Ascii.eqb c NUL) && negb (isspace c)
  && negb (Ascii.eqb c "(") && negb (Ascii.eqb c ")").

(** The text of an atom: one or more atom characters, the first of which
    does not start a comment. *)
Definition atom_text (tok : cstr) : bool :=
  match tok with
  | [] => false
  | c :: _ => negb (Ascii.eqb c ";")
  end && forallb atom_char tok.

(** A name the reader reads as a Symbol of that name: an atom that is
    neither a number nor the quote mark. *)
Definition symbol_name (name : cstr) : bool :=
  atom_text name && negb (is_num name) && negb (streq name "'").

(** Where an atom may end: at the end of the text, or before white space
    or a parenthesis. *)
Definition delimited (r : cstr) : Prop :=
  match r with
  | [] => True
  | c :: _ => atom_char c = false
  end.

(** Where [skip_whitespace] comes to rest: at the end of the text or at a
    character that is neither white space nor the start of a comment. *)
Definition token_start (r : cstr) : Prop :=
  match r with
  | [] => True
  | c :: _ => c = NUL \/ (isspace c = false /\ Ascii.eqb c ";" = false)
  end.

(** What may follow the elements of a list: the end of the text, or the
    closing parenthesis. *)
Definition closing (term : cstr) : Prop :=
  term = [] \/ exists r, term = ")"%char :: r.

(** The line [parse_list] writes when the text ends there. *)
Definition eof_lines (term : cstr) : list cstr :=
  match term with
  | [] => [lit "Unexpected EOF in list"]
  | _ :: _ => []
  end.

(** ** Values as trees *)

(** The shape of a value: the nil object, atoms, and pairs. *)
Inductive sexp : Type :=
| SNil
| SInt (n : Z)
| SSym (name : cstr)
| SCons (a d : sexp).

(** [repr s p v]: in the heap of [s] the pointer [p] is a value of shape
    [v]. [SNil] is the nil object itself; a Symbol or a pair is another
    object. *)
Fixpoint repr (s : State) (p : ptr) (v : sexp) : Prop :=
  match v with
  | SNil => p = nil_obj s
  | SInt n => lookup s p = Some (ObjInt n)
  | SSym name => p <> nil_obj s /\ lookup s p = Some (ObjSymbol name)
  | SCons a d =>
      p <> nil_obj s /\
      exists pa pd,
        lookup s p = Some (ObjCons pa pd) /\ repr s pa a /\ repr s pd d
  end.

(** What [print_obj] writes for a value, and [print_tail] for the rest of
    a list. *)
Fixpoint show (v : sexp) : cstr :=
  match v with
  | SNil => lit "nil"
  | SInt n => show_int n
  | SSym name => name
  | SCons a d => lit "(" ++ show a ++ show_tail d ++ lit ")"
  end
with show_tail (v : sexp) : cstr :=
  match v with
  | SNil => []
  | SCons a d => lit " " ++ show a ++ show_tail d
  | SInt n => lit " . " ++ show_int n
  | SSym name => lit " . " ++ name
  end.

(** Values built from integers, symbols and proper lists: every Integer
    is an [int], every Symbol has a name the reader reads as a symbol, and
    every list ends in the nil object. *)
Fixpoint readable (v : sexp) : Prop :=
  match v with
  | SNil => True
  | SInt n => in_int n
  | SSym name => symbol_name name = true
  | SCons a d => readable a /\ readable_tail d
  end
with readable_tail (v : sexp) : Prop :=
  match v with
  | SNil => True
  | SCons a d => readable a /\ readable_tail d
  | _ => False
  end.

(** What the reader builds from the text of a value: the same shape, with
    a Symbol named nil where the text says [nil]. *)
Fixpoint reread (v : sexp) : sexp :=
  match v with
  | SNil => SSym "nil"
  | SCons a d => SCons (reread a) (reread_tail d)
  | _ => v
  end
with reread_tail (v : sexp) : sexp :=
  match v with
  | SCons a d => SCons (reread a) (reread_tail d)
  | _ => v
  end.

Fixpoint size (v : sexp) : nat :=
  match v with
  | SCons a d => 2 + size a + size d
  | _ => 1
  end.

(** Structural equality of two values, each in its own heap: the same
    tag and, by tag, the same number, the same name, or structurally equal
    heads and tails. *)
Inductive struct_eq (s s' : State) : ptr -> ptr -> Prop :=
| struct_eq_int p q n :
    lookup s p = Some (ObjInt n) -> lookup s' q = Some (ObjInt n) ->
    struct_eq s s' p q
| struct_eq_symbol p q name :
    lookup s p = Some (ObjSymbol name) -> lookup s' q = Some (ObjSymbol name) ->
    struct_eq s s' p q
| struct_eq_cons p q a d a' d' :
    lookup s p = Some (ObjCons a d) -> lookup s' q = Some (ObjCons a' d') ->
    struct_eq s s' a a' -> struct_eq s s' d d' ->
    struct_eq s s' p q.

(** The text of the elements of a list, as [print_obj] writes them between
    the parentheses. *)
Definition elems (l : sexp) : cstr :=
  match l with
  | SCons a d => show a ++ show_tail d
  | _ => []
  end.

(** [parse_expr] reads the text of [v], followed by [r], as [reread v]. *)
Definition parse_expr_reads (v : sexp) : Prop :=
  forall fuel t s r,
    rest t = show v ++ r ->
    delimited r ->
    size v < fuel ->
    room (size v) s ->
    nil_allocated s ->
    exists q t' s',
      parse_expr fuel t s = Ok (q, t') s' /\
      rest t' = r /\
      repr s' q (reread v) /\
      extends s s' /\
      obj_count s' <= obj_count s + size v /\
      err s' = err s /\ out s' = out s.

(** [parse_list] reads the text of the further elements [d] of a list up
    to, and without, what closes it. *)
Definition parse_list_reads (d : sexp) : Prop :=
  forall fuel t s term,
    rest t = show_tail d ++ term ->
    closing term ->
    size d < fuel ->
    room (size d) s ->
    nil_allocated s ->
    exists q t' s',
      parse_list fuel t s = Ok (q, t') s' /\
      rest t' = term /\
      repr s' q (reread_tail d) /\
      extends s s' /\
      obj_count s' <= obj_count s + size d /\
      err s' = err s ++ eof_lines term /\ out s' = out s.

(** ** Sessions *)

(** The session: start-up, then the given inputs one after the other;
    the value of the last one is returned. *)
Fixpoint repl_steps (fuel : nat) (texts : list cstr) (last : ptr) : M ptr :=
  match texts with
  | [] => ret last
  | text :: texts' =>
      v <- repl_step fuel text ;;
      repl_steps fuel texts' v
  end.

Definition session (fuel : nat) (texts : list cstr) : Res ptr :=
  (repl_init ;; repl_steps fuel texts NULL) start.

(** ** Concrete states *)

(** A state as [repl] leaves it after start-up, with a pair of symbols of
    the same name and lists over them. *)
Definition heap_two_a : State :=
  mkState [ObjSymbol "nil"; ObjSymbol "t";
           ObjSymbol "a"; ObjSymbol "a";
           ObjCons (Addr 3) (Addr 0); ObjCons (Addr 2) (Addr 4);
           ObjCons (Addr 2) (Addr 0)]
          (Addr 0) (Addr 1) None [] [].


(** [(if nil 1 2)] at [Addr 9]. *)
Definition heap_if : State :=
  mkState [ObjSymbol "nil"; ObjSymbol "t";
           ObjSymbol "if"; ObjSymbol "nil"; ObjInt 1; ObjInt 2;
           ObjCons (Addr 5) (Addr 0); ObjCons (Addr 4) (Addr 6);
           ObjCons (Addr 3) (Addr 7); ObjCons (Addr 2) (Addr 8)]
          (Addr 0) (Addr 1) None [] [].

(** [(defun f (x) x)] at [Addr 10], with an empty global environment. *)
Definition heap_defun : State :=
  mkState [ObjSymbol "nil"; ObjSymbol "t";
           ObjSymbol "defun"; ObjSymbol "f";
           ObjSymbol "x"; ObjCons (Addr 4) (Addr 0);
           ObjSymbol "x"; ObjCons (Addr 6) (Addr 0);
           ObjCons (Addr 5) (Addr 7); ObjCons (Addr 3) (Addr 8);
           ObjCons (Addr 2) (Addr 9)]
          (Addr 0) (Addr 1) (Some (Addr 0)) [] [].

(** [((lambda (x y) x) 1)] at [Addr 13]: two parameters, one argument. *)
Definition heap_app : State :=
  mkState [ObjSymbol "nil"; ObjSymbol "t";
           ObjSymbol "lambda"; ObjSymbol "x"; ObjSymbol "y";
           ObjCons (Addr 4) (Addr 0); ObjCons (Addr 3) (Addr 5);
           ObjSymbol "x"; ObjCons (Addr 7) (Addr 0);
           ObjCons (Addr 6) (Addr 8); ObjCons (Addr 2) (Addr 9);
           ObjInt 1; ObjCons (Addr 11) (Addr 0);
           ObjCons (Addr 10) (Addr 12)]
          (Addr 0) (Addr 1) None [] [].

(** The list [(a a)] of [heap_two_a], at [Addr 5]. *)
Definition list_a_a : sexp := SCons (SSym "a") (SCons (SSym "a") SNil).

(** ** Further vocabulary *)

(** The object count is within the bounds of [all_objs]. *)
Definition within_table (s : State) : Prop := obj_count s <= MAX_OBJS.

(** A computation that, when it returns, leaves the count within bounds. *)
Definition keeps_table {A} (m : M A) : Prop :=
  forall s a s', within_table s -> m s = Ok a s' -> within_table s'.

(** A state whose table is full. *)
Definition full_table : State :=
  mkState (ObjSymbol "nil" :: ObjSymbol "t" :: repeat (ObjInt 0) (MAX_OBJS - 2))
          (Addr 0) (Addr 1) None [] [].

(** The state [repl] starts its loop in. *)
Definition booted : State :=
  match repl_init start with
  | Ok _ s => s
  | _ => start
  end.

(** The names [init_env] binds, with the function each is bound to. *)
Definition primitive (name : cstr) : option BuiltinFunc :=
  if streq "car" name then Some fn_car
  else if streq "cdr" name then Some fn_cdr
  else if streq "cons" name then Some fn_cons
  else if streq "+" name then Some fn_add
  else if streq "-" name then Some fn_sub
  else if streq "*" name then Some fn_mul
  else if streq "/" name then Some fn_div
  else if streq "eq" name then Some fn_eq
  else if streq "<" name then Some fn_lt
  else if streq "print" name then Some fn_print
  else None.

(** A local environment with the bindings of [x] then [y], over a global
    one with [y] and [z]; the Symbols [x], [y], [z], [w] to evaluate are at
    [Addr 2] to [Addr 5], the values at [Addr 6] to [Addr 9]. *)
Definition heap_envs : State :=
  mkState [ObjSymbol "nil"; ObjSymbol "t";
           ObjSymbol "x"; ObjSymbol "y"; ObjSymbol "z"; ObjSymbol "w";
           ObjInt 1; ObjInt 2; ObjInt 3; ObjInt 4;
           (* global: (z . 4) then (y . 3) *)
           ObjCons (Addr 4) (Addr 9); ObjCons (Addr 10) (Addr 0);
           ObjCons (Addr 3) (Addr 8); ObjCons (Addr 12) (Addr 11);
           (* local: (y . 2) then (x . 1) *)
           ObjCons (Addr 3) (Addr 7); ObjCons (Addr 14) (Addr 0);
           ObjCons (Addr 2) (Addr 6); ObjCons (Addr 16) (Addr 15);
           (* the expression (w) *)
           ObjCons (Addr 5) (Addr 0)]
          (Addr 0) (Addr 1) (Some (Addr 13)) [] [].

(** [args] is the list in the heap of Integer objects holding [ns]. *)
Fixpoint int_list (s : State) (args : ptr) (ns : list Z) : Prop :=
  match ns with
  | [] => args = nil_obj s
  | n :: ns' =>
      args <> nil_obj s /\
      exists a d, lookup s args = Some (ObjCons a d) /\
                  lookup s a = Some (ObjInt n) /\
                  int_list s d ns'
  end.

Definition sum_of (ns : list Z) : Z := fold_right Z.add 0%Z ns.

Definition product_of (ns : list Z) : Z := fold_right Z.mul 1%Z ns.

(** Truncating division of [n] by each of [ns] in turn. *)
Definition quotient_of (n : Z) (ns : list Z) : Z := fold_left Z.quot ns n.

(** No divisor is zero and every quotient on the way fits in an [int]
    (the one that does not is [INT_MIN / -1]). *)
Fixpoint divides_exactly (n : Z) (ns : list Z) : Prop :=
  match ns with
  | [] => True
  | d :: ns' =>
      d <> 0%Z /\ in_int (Z.quot n d) /\ divides_exactly (Z.quot n d) ns'
  end.

(** The lists (7 2 3) at [Addr 10], (7 0 3) at [Addr 12], (7) at [Addr 13]
    and (6 6) at [Addr 15], the last of two distinct Integer objects. *)
Definition heap_ints : State :=
  mkState [ObjSymbol "nil"; ObjSymbol "t";
           ObjInt 7; ObjInt 2; ObjInt 3; ObjInt 0; ObjInt 6; ObjInt 6;
           ObjCons (Addr 4) (Addr 0); ObjCons (Addr 3) (Addr 8);
           ObjCons (Addr 2) (Addr 9);
           ObjCons (Addr 5) (Addr 8); ObjCons (Addr 2) (Addr 11);
           ObjCons (Addr 2) (Addr 0);
           ObjCons (Addr 7) (Addr 0); ObjCons (Addr 6) (Addr 14)]
          (Addr 0) (Addr 1) None [] [].

(** [heap_ints] after a copy of its list (7 2 3) was made, at [Addr 18]. *)
Definition heap_ints_copied : State :=
  store_obj (ObjCons (Addr 2) (Addr 17))
    (store_obj (ObjCons (Addr 3) (Addr 16))
       (store_obj (ObjCons (Addr 4) (Addr 0)) heap_ints)).

(** Everything [print_obj] can be given: besides integers, symbols and
    pairs, the NULL pointer, primitives and closures. *)
Inductive value : Type :=
| VNull
| VNil
| VInt (n : Z)
| VSym (name : cstr)
| VFunc
| VLambda
| VPair (a d : value).

(** [holds s p v]: in the heap of [s] the pointer [p] is a value of shape
    [v]; [VNil] is the nil object itself. *)
Fixpoint holds (s : State) (p : ptr) (v : value) : Prop :=
  match v with
  | VNull => p = NULL
  | VNil => p = nil_obj s
  | VInt n => lookup s p = Some (ObjInt n)
  | VSym name => p <> nil_obj s /\ lookup s p = Some (ObjSymbol name)
  | VFunc => exists f, lookup s p = Some (ObjFunc f)
  | VLambda =>
      exists params body env, lookup s p = Some (ObjLambda params body env)
  | VPair a d =>
      p <> nil_obj s /\
      exists pa pd,
        lookup s p = Some (ObjCons pa pd) /\ holds s pa a /\ holds s pd d
  end.

(** The text of a value: a list in parentheses with single spaces, a tail
    that is neither nil nor a pair after [ . ]. *)
Fixpoint text (v : value) : cstr :=
  match v with
  | VNull => lit "NULL"
  | VNil => lit "nil"
  | VInt n => show_int n
  | VSym name => name
  | VFunc => lit "<built-in function>"
  | VLambda => lit "<lambda>"
  | VPair a d => lit "(" ++ text a ++ text_tail d ++ lit ")"
  end
with text_tail (v : value) : cstr :=
  match v with
  | VNil => []
  | VPair a d => lit " " ++ text a ++ text_tail d
  | VNull => lit " . " ++ lit "NULL"
  | VInt n => lit " . " ++ show_int n
  | VSym name => lit " . " ++ name
  | VFunc => lit " . " ++ lit "<built-in function>"
  | VLambda => lit " . " ++ lit "<lambda>"
  end.

(** No pair has NULL for its tail (the loop of [print_obj] reads the type
    of every tail that is not the nil object). *)
Fixpoint printable (v : value) : Prop :=
  match v with
  | VPair a d => printable a /\ printable_tail d
  | _ => True
  end
with printable_tail (v : value) : Prop :=
  match v with
  | VNull => False
  | VPair a d => printable a /\ printable_tail d
  | _ => True
  end.

Fixpoint vsize (v : value) : nat :=
  match v with
  | VPair a d => 2 + vsize a + vsize d
  | _ => 1
  end.

(** The text of an object that is no pair. *)
Definition leaf_text (o : Obj) : cstr :=
  match o with
  | ObjInt num => show_int num
  | ObjSymbol name => name
  | ObjCons _ _ => []
  | ObjFunc _ => lit "<built-in function>"
  | ObjLambda _ _ _ => lit "<lambda>"
  end.

(** [args] is the list in the heap of the values [vs]. *)
Fixpoint value_list (s : State) (args : ptr) (vs : list value) : Prop :=
  match vs with
  | [] => args = nil_obj s
  | v :: vs' =>
      args <> nil_obj s /\
      exists a d, lookup s args = Some (ObjCons a d) /\
                  holds s a v /\ value_list s d vs'
  end.

(** The lines [print] writes for its arguments. *)
Definition lines_of (vs : list value) : cstr :=
  List.concat (map (fun v => text v ++ [newline]) vs).

(** The pair (1 . 2) at [Addr 4], the list (car (1 . 2) nil) at [Addr 8]. *)
Definition heap_values : State :=
  mkState [ObjSymbol "nil"; ObjSymbol "t";
           ObjInt 1; ObjInt 2; ObjCons (Addr 2) (Addr 3);
           ObjFunc fn_car;
           ObjCons (Addr 0) (Addr 0); ObjCons (Addr 4) (Addr 6);
           ObjCons (Addr 5) (Addr 7)]
          (Addr 0) (Addr 1) None [] [].

(** The tokenizer [k] characters further on. *)
Definition shift (t : Tokenizer) (k : nat) : Tokenizer :=
  mkTokenizer (input t) (pos t + k).

(** The characters of a comment after its [;]: anything but a newline. *)
Definition comment_body (body : cstr) : Prop :=
  Forall (fun c => c <> NUL /\ c <> newline) body.

(** Text between tokens: white space, and comments from a [;] to the
    newline that ends them. *)
Inductive layout : cstr -> Prop :=
| layout_nil : layout []
| layout_space c l : isspace c = true -> layout l -> layout (c :: l)
| layout_comment body l :
    comment_body body -> layout l ->
    layout (";"%char :: body ++ newline :: l).

(** A text with no token: layout, then possibly a last comment that no
    newline ends. *)
Definition blank (text : cstr) : Prop :=
  exists l c, text = l ++ c /\ layout l /\
    (c = [] \/ exists body, c = ";"%char :: body /\ comment_body body).

(** ** The shape of the heap *)

(** [p] is NULL or one of the first [n] objects. *)
Definition valid_ptr (n : nat) (p : ptr) : Prop :=
  match p with
  | NULL => True
  | Addr a => a < n
  end.

(** Every pointer held in [o] is NULL or one of the first [n] objects. *)
Definition valid_obj (n : nat) (o : Obj) : Prop :=
  match o with
  | ObjCons a d => valid_ptr n a /\ valid_ptr n d
  | ObjLambda params body env =>
      valid_ptr n params /\ valid_ptr n body /\ valid_ptr n env
  | _ => True
  end.

(** Every object points only to objects allocated before it. *)
Definition older (s : State) : Prop :=
  forall i o, nth_error (all_objs s) i = Some o -> valid_obj i o.

(** The heap has no cycle and no pointer out of the table, from an object
    or from one of the globals. *)
Definition well_formed (s : State) : Prop :=
  older s /\
  valid_ptr (obj_count s) (nil_obj s) /\
  valid_ptr (obj_count s) (t_obj s) /\
  match global_env_ptr s with
  | Some g => valid_ptr (obj_count s) g
  | None => True
  end.

(** [m], run in a well-formed state of at least [n] objects, returns in a
    well-formed state of no fewer objects, with a result that [Q] accepts
    there. *)
Definition sound_at {A} (Q : nat -> A -> Prop) (n : nat) (m : M A) : Prop :=
  forall s a s',
    well_formed s -> n <= obj_count s -> m s = Ok a s' ->
    well_formed s' /\ obj_count s <= obj_count s' /\ Q (obj_count s') a.

Definition any_value {A} (n : nat) (a : A) : Prop := True.

Definition valid_option (n : nat) (g : option ptr) : Prop :=
  match g with
  | Some p => valid_ptr n p
  | None => True
  end.

Definition valid_parse (n : nat) (r : ptr * Tokenizer) : Prop :=
  valid_ptr n (fst r).

(** The place of an object in the table, counted from one; zero for NULL. *)
Definition rank (p : ptr) : nat :=
  match p with
  | NULL => 0
  | Addr a => S a
  end.

(** The state after start-up and the input [(cons 1 (quote (2)))]. *)
Definition after_cons : State :=
  match session 20 [lit "(cons 1 (quote (2)))"] with
  | Ok _ s => s
  | _ => start
  end.

(** ** Lines of input *)

(** A line that [repl] handles on its own: it is not blank, its
    parentheses outside comments balance, and it fits the buffer. *)
Definition complete (line : cstr) : Prop :=
  is_empty line = false /\
  count_parens false 0%Z line = 0%Z /\
  strlen line < INPUT_SIZE - 1.

(** One prompt and one read-eval-print step for each line that is not
    blank, then the prompt and the newline of the end of the input. *)
Fixpoint one_per_line (fuel : nat) (lines : list cstr) : M unit :=
  match lines with
  | [] => printf "> " ;; printf [newline]
  | line :: lines' =>
      printf "> " ;;
      (if is_empty line then ret tt
       else repl_step fuel (c_str line) ;; ret tt) ;;
      one_per_line fuel lines'
  end.

(** Each of [lines], read one after the other from depth [d], leaves
    parentheses open. *)
Fixpoint open_lines (d : Z) (lines : list cstr) : Prop :=
  match lines with
  | [] => True
  | line :: lines' =>
      (0 < count_parens false d line)%Z /\
      open_lines (count_parens false d line) lines'
  end.

(** The depth of parentheses after [lines], read from depth [d]. *)
Definition depth_after (d : Z) (lines : list cstr) : Z :=
  fold_left (count_parens false) lines d.

(** The C strings of [lines], one after the other. *)
Definition joined (lines : list cstr) : cstr :=
  List.concat (map c_str lines).

(** One continuation prompt for each of [lines]. *)
Definition continuation_prompts (lines : list cstr) : cstr :=
  List.concat (map (fun _ : cstr => lit "  ") lines).

(** One prompt for each of [lines]. *)
Definition prompts (lines : list cstr) : cstr :=
  List.concat (map (fun _ : cstr => lit "> ") lines).

(** The state after start-up and the reading of [(+ 7 2 3)]: the
    expression is at [Addr 49], its head at [Addr 42] and its arguments at
    [Addr 48]. *)
Definition heap_sum : State :=
  match parse_expr 10 (mkTokenizer (lit "(+ 7 2 3)") 0) booted with
  | Ok _ s => s
  | _ => booted
  end.

(** ** Divisions that do not trap *)




(** [p] is the list [l] in the heap, ending in the nil object, and each of
    its pairs is an object allocated at place [n] or later. *)
Fixpoint new_list (n : nat) (s : State) (p : ptr) (l : list ptr) : Prop :=
  match l with
  | [] => p = nil_obj s
  | x :: l' =>
      p <> nil_obj s /\
      exists a d,
        p = Addr a /\ n <= a /\
        lookup s p = Some (ObjCons x d) /\ new_list n s d l'
  end.

(** The buffer after [line] has been offered to it: appended if the
    result leaves room for the NUL, left out otherwise. *)
Definition append_line (input line : cstr) : cstr :=
  if strlen input + strlen line <? INPUT_SIZE - 1
  then strcat input line else input.

(** The buffer after each of [lines] has been offered in turn. *)
Definition buffer_after (input : cstr) (lines : list cstr) : cstr :=
  fold_left append_line lines input.

(** ** The elements of an unclosed list *)

(** [reads_elements fuel t s ps t' s']: from [t] on the text holds, each
    after any white space and comments, expressions that [parse_expr]
    reads as the objects [ps], in this order, and then, after any white
    space and comments, it ends; [t'] is at its end and [s'] is the state
    after the last of the expressions. *)
Inductive reads_elements (fuel : nat) :
  Tokenizer -> State -> list ptr -> Tokenizer -> State -> Prop :=
| reads_end t s :
    cur (skip_whitespace t) = NUL ->
    reads_elements fuel t s [] (skip_whitespace t) s
| reads_one t s p t1 s1 ps t2 s2 :
    cur (skip_whitespace t) <> ")"%char ->
    cur (skip_whitespace t) <> NUL ->
    parse_expr fuel (skip_whitespace t) s = Ok (p, t1) s1 ->
    reads_elements fuel t1 s1 ps t2 s2 ->
    reads_elements fuel t s (p :: ps) t2 s2.

(** * Properties *)

(** ** The monad and the heap *)

Arguments lit : simpl never.

Lemma bind_ok {A B} {m : M A} (f : A -> M B) {s a s'} :
  m s = Ok a s' -> bind m f s = f a s'.
Proof. intros H. unfold bind. rewrite H. reflexivity. Qed.

Lemma ptr_eqb_refl p : ptr_eqb p p = true.
Proof. destruct p; simpl; auto using Nat.eqb_refl. Qed.

Lemma ptr_eqb_eq p q : ptr_eqb p q = true <-> p = q.
Proof.
  destruct p, q; simpl; split; intros H; try congruence.
  - apply Nat.eqb_eq in H. congruence.
  - inversion H. apply Nat.eqb_refl.
Qed.

Lemma ptr_eqb_neq p q : ptr_eqb p q = false <-> p <> q.
Proof.
  rewrite <- ptr_eqb_eq. destruct (ptr_eqb p q); split; congruence.
Qed.

Lemma alloc_obj_ok o s :
  obj_count s < MAX_OBJS ->
  alloc_obj o s = Ok (Addr (obj_count s)) (store_obj o s).
Proof.
  intros H. unfold alloc_obj, bind, gets.
  destruct (Nat.leb_spec MAX_OBJS (obj_count s)); [lia | reflexivity].
Qed.

Lemma alloc_obj_full o s :
  MAX_OBJS <= obj_count s ->
  alloc_obj o s = Exit 1 (log "Out of memory" s).
Proof.
  intros H. unfold alloc_obj, bind, gets.
  destruct (Nat.leb_spec MAX_OBJS (obj_count s)); [reflexivity | lia].
Qed.

Lemma obj_count_store o s : obj_count (store_obj o s) = S (obj_count s).
Proof. unfold obj_count, store_obj. simpl. rewrite length_app. simpl. lia. Qed.

Lemma lookup_store_old o s p x :
  lookup s p = Some x -> lookup (store_obj o s) p = Some x.
Proof.
  destruct p; simpl; [discriminate|]. intros H.
  rewrite nth_error_app1; [assumption|].
  apply nth_error_Some. congruence.
Qed.

Lemma lookup_store_new o s :
  lookup (store_obj o s) (Addr (obj_count s)) = Some o.
Proof.
  simpl. unfold obj_count. rewrite nth_error_app2 by lia.
  rewrite Nat.sub_diag. reflexivity.
Qed.

Lemma lookup_valid s p x : lookup s p = Some x -> exists a, p = Addr a /\ a < obj_count s.
Proof.
  destruct p; simpl; [discriminate|]. intros H. exists a. split; [reflexivity|].
  apply nth_error_Some. congruence.
Qed.

Lemma deref_ok s p o : lookup s p = Some o -> deref p s = Ok o s.
Proof. intros H. unfold deref. rewrite H. reflexivity. Qed.

Lemma car_cons s p a d : lookup s p = Some (ObjCons a d) -> car p s = Ok a s.
Proof. intros H. unfold car. rewrite (bind_ok _ (deref_ok _ _ _ H)). reflexivity. Qed.

Lemma cdr_cons s p a d : lookup s p = Some (ObjCons a d) -> cdr p s = Ok d s.
Proof. intros H. unfold cdr. rewrite (bind_ok _ (deref_ok _ _ _ H)). reflexivity. Qed.

Lemma is_nil_run p s : is_nil p s = Ok (ptr_eqb p (nil_obj s)) s.
Proof. reflexivity. Qed.

Lemma is_nil_nil s : is_nil (nil_obj s) s = Ok true s.
Proof. rewrite is_nil_run, ptr_eqb_refl. reflexivity. Qed.

Lemma is_nil_other p s : p <> nil_obj s -> is_nil p s = Ok false s.
Proof. intros H. rewrite is_nil_run. apply ptr_eqb_neq in H. rewrite H. reflexivity. Qed.

(** ** Arithmetic built-ins *)

(** C10.  Applied to the empty argument list, [/] returns a new Integer 1
    and writes nothing to either stream (provided the object table is not
    full, in which case [alloc_obj] ends the process). *)
Theorem builtin_div_no_args fuel env s :
  room 1 s ->
  exists p s',
    builtin_div fuel (nil_obj s) env s = Ok p s' /\
    lookup s' p = Some (ObjInt 1) /\
    err s' = err s /\ out s' = out s.
Proof.
  intros Hroom. unfold room in Hroom.
  exists (Addr (obj_count s)), (store_obj (ObjInt 1) s).
  split; [|split; [apply lookup_store_new | split; reflexivity]].
  unfold builtin_div. rewrite (bind_ok _ (is_nil_nil s)).
  apply alloc_obj_ok. lia.
Qed.

Lemma builtin_div_no_args_witness :
  exists p s',
    builtin_div 0 (nil_obj heap_two_a) NULL heap_two_a = Ok p s' /\
    lookup s' p = Some (ObjInt 1) /\
    err s' = err heap_two_a /\ out s' = out heap_two_a.
Proof.
  apply (builtin_div_no_args 0 NULL heap_two_a).
  unfold room. vm_compute. lia.
Defined.

Lemma fprintf_stderr_run line s : fprintf_stderr line s = Ok tt (log line s).
Proof. reflexivity. Qed.

Lemma obj_count_log line s : obj_count (log line s) = obj_count s.
Proof. reflexivity. Qed.






Lemma no_trap_test q d :
  ~ (q = INT_MIN /\ d = (-1)%Z) -> (q =? INT_MIN)%Z && (d =? -1)%Z = false.
Proof.
  intros H. destruct (Z.eqb_spec q INT_MIN) as [Hq|]; [|reflexivity].
  destruct (Z.eqb_spec d (-1)) as [Hd|]; [|reflexivity].
  exfalso. apply H. split; assumption.
Qed.






(** ** [eq] *)

(** C1, as the code has it.  On two Symbols [eq] compares the pointers:
    it returns t when the two arguments are one object and nil when they
    are two, whatever their names.  [(eq 'a 'a)] does evaluate to t, for
    another reason: the reader takes ['a] as a single atom, the Symbol
    named ['a], which is unbound, so both arguments evaluate to the nil
    object. *)
Theorem builtin_eq_symbols env s args a b rest na nb :
  is_list s args (a :: b :: rest) ->
  lookup s a = Some (ObjSymbol na) ->
  lookup s b = Some (ObjSymbol nb) ->
  builtin_eq args env s = Ok (if ptr_eqb a b then t_obj s else nil_obj s) s /\
  exists v s',
    session 20 [lit "(eq 'a 'a)"] = Ok v s' /\ v = t_obj s' /\
    err s' = [lit "Undefined symbol: 'a"; lit "Undefined symbol: 'a"].
Proof.
  intros (Hne & d & Hc & Hne' & d' & Hc' & _) Ha Hb. split.
  - unfold builtin_eq.
    rewrite (bind_ok _ (is_nil_other _ _ Hne)).
    rewrite (bind_ok _ (cdr_cons _ _ _ _ Hc)).
    rewrite (bind_ok _ (is_nil_other _ _ Hne')).
    rewrite (bind_ok _ (car_cons _ _ _ _ Hc)).
    rewrite (bind_ok _ (cdr_cons _ _ _ _ Hc)).
    rewrite (bind_ok _ (car_cons _ _ _ _ Hc')).
    rewrite (bind_ok _ (deref_ok _ _ _ Ha)).
    rewrite (bind_ok _ (deref_ok _ _ _ Hb)).
    simpl. destruct (ptr_eqb a b); reflexivity.
  - do 2 eexists. split; [vm_compute; reflexivity|]. split; reflexivity.
Qed.

Lemma builtin_eq_symbols_witness :
  builtin_eq (Addr 5) NULL heap_two_a = Ok (Addr 0) heap_two_a /\
  exists v s',
    session 20 [lit "(eq 'a 'a)"] = Ok v s' /\ v = t_obj s' /\
    err s' = [lit "Undefined symbol: 'a"; lit "Undefined symbol: 'a"].
Proof.
  apply (builtin_eq_symbols NULL heap_two_a (Addr 5) (Addr 2) (Addr 3) []
           "a" "a").
  - simpl. split; [discriminate|]. eexists. split; [reflexivity|].
    split; [discriminate|]. eexists. split; reflexivity.
  - reflexivity.
  - reflexivity.
Defined.

(** C1 fails as stated: two Symbols both named [a] (the arguments of
    [(eq (quote a) (quote a))]) are two objects, and [eq] returns nil. *)
Lemma eq_same_name_symbols_nil :
  is_list heap_two_a (Addr 5) [Addr 2; Addr 3] /\
  lookup heap_two_a (Addr 2) = Some (ObjSymbol "a") /\
  lookup heap_two_a (Addr 3) = Some (ObjSymbol "a") /\
  builtin_eq (Addr 5) NULL heap_two_a = Ok (nil_obj heap_two_a) heap_two_a /\
  nil_obj heap_two_a <> t_obj heap_two_a /\
  exists v s',
    session 20 [lit "(eq (quote a) (quote a))"] = Ok v s' /\
    v = nil_obj s' /\ v <> t_obj s'.
Proof.
  repeat split; try discriminate.
  - eexists. split; [reflexivity|]. split; [discriminate|].
    eexists. split; reflexivity.
  - do 2 eexists. split; [vm_compute; reflexivity|].
    split; [reflexivity | discriminate].
Qed.

(** ** Objects stay where they are

    Nothing in the program writes to an object after its construction, and
    [nil_obj] and [t_obj] are assigned once, at start-up. *)

Lemma extends_refl s : extends s s.
Proof. split; [exists []; symmetry; apply app_nil_r | split; reflexivity]. Qed.

Lemma extends_trans s1 s2 s3 : extends s1 s2 -> extends s2 s3 -> extends s1 s3.
Proof.
  intros ((l1 & H1) & Hn1 & Ht1) ((l2 & H2) & Hn2 & Ht2).
  split; [|split; congruence].
  exists (l1 ++ l2). rewrite H2, H1, app_assoc. reflexivity.
Qed.

Lemma extends_lookup s s' p o :
  extends s s' -> lookup s p = Some o -> lookup s' p = Some o.
Proof.
  intros ((l & Hl) & _) H. destruct p; simpl in *; [discriminate|].
  rewrite Hl, nth_error_app1; [assumption|].
  apply nth_error_Some. congruence.
Qed.

Lemma extends_count s s' : extends s s' -> obj_count s <= obj_count s'.
Proof.
  intros ((l & Hl) & _). unfold obj_count. rewrite Hl, length_app. lia.
Qed.

Lemma extends_store o s : extends s (store_obj o s).
Proof. split; [exists [o]; reflexivity | split; reflexivity]. Qed.

Lemma extends_log line s : extends s (log line s).
Proof. split; [exists []; symmetry; apply app_nil_r | split; reflexivity]. Qed.

Lemma extends_is_list s s' l : forall p,
  extends s s' -> is_list s p l -> is_list s' p l.
Proof.
  induction l as [|x l IH]; simpl; intros p He Hl.
  - destruct He as (_ & Hn & _). congruence.
  - destruct Hl as (Hne & d & Hc & Hl). split.
    + destruct He as (_ & Hn & _). congruence.
    + exists d. split; [eapply extends_lookup; eauto | auto].
Qed.

Create HintDb stable.

Lemma stable_ret {A} (a : A) : stable (ret a).
Proof. intros s a' s' H. inversion H. apply extends_refl. Qed.

Lemma stable_gets {A} (f : State -> A) : stable (gets f).
Proof. intros s a' s' H. inversion H. apply extends_refl. Qed.

Lemma stable_fault {A} : stable (@fault A).
Proof. intros s a' s' H. discriminate. Qed.

Lemma stable_timeout {A} : stable (@timeout A).
Proof. intros s a' s' H. discriminate. Qed.

Lemma stable_exit {A} c : stable (@exit A c).
Proof. intros s a' s' H. discriminate. Qed.

Lemma stable_fprintf_stderr line : stable (fprintf_stderr line).
Proof. intros s a' s' H. inversion H. apply extends_log. Qed.

Lemma stable_printf text : stable (printf text).
Proof.
  intros s a' s' H. inversion H.
  split; [exists []; symmetry; apply app_nil_r | split; reflexivity].
Qed.

Lemma stable_set_global_env e : stable (set_global_env e).
Proof.
  intros s a' s' H. inversion H.
  split; [exists []; symmetry; apply app_nil_r | split; reflexivity].
Qed.

Lemma stable_deref p : stable (deref p).
Proof.
  intros s a' s' H. unfold deref in H.
  destruct (lookup s p); inversion H. apply extends_refl.
Qed.

Lemma stable_bind {A B} (m : M A) (f : A -> M B) :
  stable m -> (forall a, stable (f a)) -> stable (bind m f).
Proof.
  intros Hm Hf s b s' H. unfold bind in H.
  destruct (m s) as [a s1| | |] eqn:E; try discriminate.
  eapply extends_trans; [eapply Hm | eapply Hf]; eauto.
Qed.

Lemma stable_alloc_obj o : stable (alloc_obj o).
Proof.
  intros s a' s' H. unfold alloc_obj, bind, gets in H.
  destruct (MAX_OBJS <=? obj_count s); simpl in H; inversion H.
  apply extends_store.
Qed.

#[local] Hint Resolve stable_ret stable_gets stable_fault stable_timeout
  stable_exit stable_fprintf_stderr stable_printf stable_set_global_env stable_deref
  stable_alloc_obj : stable.

Ltac stable_tac :=
  repeat first
    [ solve [auto with stable]
    | match goal with
      | |- stable (bind _ _) => apply stable_bind; [| intros ?]
      | |- stable (if ?b then _ else _) => destruct b
      | |- stable (match ?x with _ => _ end) => destruct x
      end ].

Lemma stable_is_nil p : stable (is_nil p).
Proof. unfold is_nil. stable_tac. Qed.

Lemma stable_car p : stable (car p).
Proof. unfold car. stable_tac. Qed.

Lemma stable_cdr p : stable (cdr p).
Proof. unfold cdr. stable_tac. Qed.

Lemma stable_sym_of p : stable (sym_of p).
Proof. unfold sym_of. stable_tac. Qed.

Lemma stable_make_int n : stable (make_int n).
Proof. apply stable_alloc_obj. Qed.

Lemma stable_make_symbol n : stable (make_symbol n).
Proof. apply stable_alloc_obj. Qed.

Lemma stable_cons a d : stable (cons a d).
Proof. apply stable_alloc_obj. Qed.

Lemma stable_make_lambda a b c : stable (make_lambda a b c).
Proof. apply stable_alloc_obj. Qed.

#[local] Hint Resolve stable_is_nil stable_car stable_cdr stable_sym_of
  stable_make_int stable_make_symbol stable_cons stable_make_lambda : stable.

Lemma stable_env_define env name v : stable (env_define env name v).
Proof. unfold env_define. stable_tac. Qed.

#[local] Hint Resolve stable_env_define : stable.

Lemma stable_env_lookup fuel : forall env name, stable (env_lookup fuel env name).
Proof. induction fuel; intros; simpl; stable_tac. Qed.

Lemma stable_print_obj fuel :
  (forall p, stable (print_obj fuel p)) /\ (forall p, stable (print_tail fuel p)).
Proof.
  induction fuel as [|fuel [IH1 IH2]]; split; intros; simpl; stable_tac.
Qed.

Lemma stable_bind_params fuel : forall e ps vs, stable (bind_params fuel e ps vs).
Proof. induction fuel; intros; simpl; stable_tac. Qed.

Lemma stable_add_loop fuel : forall acc args, stable (add_loop fuel acc args).
Proof. induction fuel; intros; simpl; stable_tac. Qed.

Lemma stable_sub_loop fuel : forall acc args, stable (sub_loop fuel acc args).
Proof. induction fuel; intros; simpl; stable_tac. Qed.

Lemma stable_mul_loop fuel : forall acc args, stable (mul_loop fuel acc args).
Proof. induction fuel; intros; simpl; stable_tac. Qed.

Lemma stable_div_loop fuel : forall acc args, stable (div_loop fuel acc args).
Proof. induction fuel; intros; simpl; stable_tac. Qed.

Lemma stable_builtin_print fuel : forall args env, stable (builtin_print fuel args env).
Proof.
  pose proof (fun f => proj1 (stable_print_obj f)) as Hp.
  induction fuel; intros; simpl; stable_tac.
Qed.

#[local] Hint Resolve stable_env_lookup stable_bind_params stable_add_loop
  stable_sub_loop stable_mul_loop stable_div_loop stable_builtin_print : stable.

Lemma stable_call_builtin f fuel args env : stable (call_builtin f fuel args env).
Proof.
  destruct f; simpl;
    unfold builtin_car, builtin_cdr, builtin_cons, builtin_add, builtin_sub,
      builtin_mul, builtin_div, builtin_eq, builtin_lt;
    stable_tac.
Qed.

#[local] Hint Resolve stable_call_builtin : stable.

Lemma stable_eval_both fuel :
  (forall expr env, stable (eval fuel expr env)) /\
  (forall l env, stable (eval_list fuel l env)).
Proof.
  induction fuel as [|fuel [IH1 IH2]]; split; intros; simpl; cbv zeta; stable_tac.
Qed.

Lemma stable_eval fuel expr env : stable (eval fuel expr env).
Proof. apply stable_eval_both. Qed.

Lemma stable_eval_list fuel l env : stable (eval_list fuel l env).
Proof. apply stable_eval_both. Qed.

Lemma stable_parse_both fuel :
  (forall t, stable (parse_expr fuel t)) /\ (forall t, stable (parse_list fuel t)).
Proof.
  induction fuel as [|fuel [IH1 IH2]]; split; intros; simpl; stable_tac.
Qed.

(** ** Special forms *)

Lemma bind_congr {A B} (m : M A) (f g : A -> M B) s :
  (forall a s', m s = Ok a s' -> f a s' = g a s') ->
  bind m f s = bind m g s.
Proof. intros H. unfold bind. destruct (m s); auto. Qed.

(** C8.  [(if c t e)] evaluates [c]; when the value is not the nil object
    the form is the evaluation of [t] alone in the state [c] left; else,
    when the argument list has a third element, that of [e] alone; else
    nil.  The state, with both output streams, is threaded through [c] and
    the one branch taken only.  In a session, [(if nil (print 1) (print 2))]
    prints 2 and never 1. *)
Theorem eval_if fuel env s expr op args c r1 th r2 el :
  lookup s expr = Some (ObjCons op args) ->
  lookup s op = Some (ObjSymbol "if") ->
  lookup s args = Some (ObjCons c r1) ->
  lookup s r1 = Some (ObjCons th r2) ->
  else_branch s r2 el ->
  eval (S fuel) expr env s =
    (cond <- eval fuel c env ;;
     stop <- is_nil cond ;;
     if negb stop then eval fuel th env
     else match el with
          | Some e => eval fuel e env
          | None => gets nil_obj
          end) s /\
  exists v s',
    session 20 [lit "(if nil (print 1) (print 2))"] = Ok v s' /\
    out s' = lit "2" ++ [newline] ++ lit "nil" ++ [newline].
Proof.
  intros He Hop Ha Hr1 Hel. split.
  - destruct expr as [|e]; [discriminate|]. simpl eval.
    rewrite (bind_ok _ (deref_ok _ _ _ He)).
    rewrite (bind_ok _ (car_cons _ _ _ _ He)).
    rewrite (bind_ok _ (cdr_cons _ _ _ _ He)).
    rewrite (bind_ok _ (deref_ok _ _ _ Hop)).
    cbv zeta.
    change (streq (lit "if") (lit "quote")) with false.
    change (streq (lit "if") (lit "if")) with true. cbv iota.
    rewrite (bind_ok _ (car_cons _ _ _ _ Ha)).
    apply bind_congr. intros cv s1 Hc.
    pose proof (stable_eval _ _ _ _ _ _ Hc) as Hext.
    assert (Hn : nil_obj s1 = nil_obj s) by apply Hext.
    pose proof (extends_lookup _ _ _ _ Hext Ha) as Ha1.
    pose proof (extends_lookup _ _ _ _ Hext Hr1) as Hr11.
    rewrite !(bind_ok _ (is_nil_run _ _)).
    destruct (ptr_eqb cv (nil_obj s1)); cbn [negb]; cbv iota.
    + rewrite (bind_ok _ (cdr_cons _ _ _ _ Ha1)).
      rewrite (bind_ok _ (cdr_cons _ _ _ _ Hr11)).
      destruct el as [e'|]; simpl in Hel.
      * destruct Hel as (Hne & r3 & Hr2).
        rewrite <- Hn in Hne.
        rewrite (bind_ok _ (is_nil_other _ _ Hne)). cbn [negb]. cbv iota.
        rewrite (bind_ok _ (cdr_cons _ _ _ _ Ha1)).
        rewrite (bind_ok _ (cdr_cons _ _ _ _ Hr11)).
        rewrite (bind_ok _ (car_cons _ _ _ _ (extends_lookup _ _ _ _ Hext Hr2))).
        reflexivity.
      * subst r2. rewrite <- Hn.
        rewrite (bind_ok _ (is_nil_nil _)). reflexivity.
    + rewrite (bind_ok _ (cdr_cons _ _ _ _ Ha1)).
      rewrite (bind_ok _ (car_cons _ _ _ _ Hr11)).
      reflexivity.
  - do 2 eexists. split; vm_compute; reflexivity.
Qed.

Lemma eval_if_witness :
  eval 3 (Addr 9) NULL heap_if =
    (cond <- eval 2 (Addr 3) NULL ;;
     stop <- is_nil cond ;;
     if negb stop then eval 2 (Addr 4) NULL
     else eval 2 (Addr 5) NULL) heap_if /\
  exists v s',
    session 20 [lit "(if nil (print 1) (print 2))"] = Ok v s' /\
    out s' = lit "2" ++ [newline] ++ lit "nil" ++ [newline].
Proof.
  apply (eval_if 2 NULL heap_if (Addr 9) (Addr 2) (Addr 8) (Addr 3) (Addr 7)
           (Addr 4) (Addr 6) (Some (Addr 5))).
  - reflexivity.
  - reflexivity.
  - reflexivity.
  - reflexivity.
  - simpl. split; [discriminate|]. eexists. reflexivity.
Defined.

Lemma streq_refl a : streq a a = true.
Proof. induction a as [|c a IH]; simpl; [reflexivity|]. rewrite Ascii.eqb_refl. exact IH. Qed.

Lemma streq_eq a : forall b, streq a b = true <-> a = b.
Proof.
  induction a as [|c a IH]; destruct b as [|c' b]; simpl; split; intros H;
    try congruence.
  - apply andb_true_iff in H. destruct H as [Hc H].
    apply Ascii.eqb_eq in Hc. apply IH in H. congruence.
  - inversion H; subst. rewrite Ascii.eqb_refl. apply streq_refl.
Qed.

Lemma bind_assoc {A B C} (m : M A) (f : A -> M B) (g : B -> M C) s :
  bind (bind m f) g s = bind m (fun a => bind (f a) g) s.
Proof. unfold bind. destruct (m s); reflexivity. Qed.

Lemma gets_run {A} (f : State -> A) s : gets f s = Ok (f s) s.
Proof. reflexivity. Qed.

Lemma sym_of_ok s p name :
  lookup s p = Some (ObjSymbol name) -> sym_of p s = Ok name s.
Proof. intros H. unfold sym_of. rewrite (bind_ok _ (deref_ok _ _ _ H)). reflexivity. Qed.

Lemma make_lambda_ok params body env s :
  room 1 s ->
  make_lambda params body env s =
    Ok (Addr (obj_count s)) (store_obj (ObjLambda params body env) s).
Proof. intros H. apply alloc_obj_ok. unfold room in H. lia. Qed.

Lemma make_symbol_ok name s :
  room 1 s ->
  make_symbol name s = Ok (Addr (obj_count s)) (store_obj (ObjSymbol name) s).
Proof. intros H. apply alloc_obj_ok. unfold room in H. lia. Qed.

Lemma make_int_ok n s :
  room 1 s ->
  make_int n s = Ok (Addr (obj_count s)) (store_obj (ObjInt n) s).
Proof. intros H. apply alloc_obj_ok. unfold room in H. lia. Qed.

Lemma cons_ok a d s :
  room 1 s ->
  cons a d s = Ok (Addr (obj_count s)) (store_obj (ObjCons a d) s).
Proof. intros H. apply alloc_obj_ok. unfold room in H. lia. Qed.

Lemma room_store k o s : room (S k) s -> room k (store_obj o s).
Proof. unfold room. rewrite obj_count_store. lia. Qed.

Lemma room_le k k' s : room k s -> k' <= k -> room k' s.
Proof. unfold room. lia. Qed.

Lemma env_define_ok env name value s :
  room 3 s ->
  env_define env name value s = Ok (Addr (obj_count s + 2)) (bound env name value s).
Proof.
  intros H. unfold env_define.
  rewrite (bind_ok _ (make_symbol_ok _ _ (room_le _ 1 _ H ltac:(lia)))).
  apply (room_store 2 (ObjSymbol name)) in H.
  rewrite (bind_ok _ (cons_ok _ _ _ (room_le _ 1 _ H ltac:(lia)))).
  apply (room_store 1 (ObjCons (Addr (obj_count s)) value)) in H.
  rewrite (cons_ok _ _ _ H). rewrite !obj_count_store. unfold bound.
  repeat f_equal; lia.
Qed.

Lemma nth_error_app_at {A} (l l' : list A) k :
  nth_error (l ++ l') (List.length l + k) = nth_error l' k.
Proof. rewrite nth_error_app2 by lia. f_equal. lia. Qed.

Lemma all_objs_bound env name value s :
  all_objs (bound env name value s) =
    all_objs s ++ [ObjSymbol name;
                   ObjCons (Addr (obj_count s)) value;
                   ObjCons (Addr (obj_count s + 1)) env].
Proof. unfold bound. simpl. repeat rewrite <- app_assoc. reflexivity. Qed.

(** One step of [env_lookup] at a well-formed binding. *)
Lemma env_lookup_head fuel s e pair rest key value kname name :
  e <> nil_obj s ->
  lookup s e = Some (ObjCons pair rest) ->
  lookup s pair = Some (ObjCons key value) ->
  lookup s key = Some (ObjSymbol kname) ->
  env_lookup (S fuel) e name s =
    if streq kname name then Ok value s else env_lookup fuel rest name s.
Proof.
  intros Hne He Hp Hk. simpl.
  rewrite (bind_ok _ (is_nil_other _ _ Hne)).
  rewrite (bind_ok _ (car_cons _ _ _ _ He)).
  rewrite (bind_ok _ (car_cons _ _ _ _ Hp)).
  rewrite (bind_ok _ (sym_of_ok _ _ _ Hk)).
  destruct (streq kname name).
  - apply (cdr_cons _ _ _ _ Hp).
  - rewrite (bind_ok _ (cdr_cons _ _ _ _ He)). reflexivity.
Qed.

(** C5.  With the global environment pointer set, as [repl] sets it before
    any evaluation, [(defun name params body)] allocates the Closure
    [(params, body, genv)] over the global environment [genv], prepends the
    binding of [name] to it, makes the result the global environment, and
    returns the Symbol [name] it was given; nothing is printed.  In a
    session the recursive [fact] then gives 120 on 5. *)
Theorem eval_defun fuel env s expr op args name r1 params r2 body r3 fname genv :
  lookup s expr = Some (ObjCons op args) ->
  lookup s op = Some (ObjSymbol "defun") ->
  lookup s args = Some (ObjCons name r1) ->
  lookup s r1 = Some (ObjCons params r2) ->
  lookup s r2 = Some (ObjCons body r3) ->
  lookup s name = Some (ObjSymbol fname) ->
  global_env_ptr s = Some genv ->
  nil_allocated s ->
  room 4 s ->
  let n := obj_count s in
  (exists s',
     eval (S fuel) expr env s = Ok name s' /\
     all_objs s' =
       all_objs s ++ [ObjLambda params body genv; ObjSymbol fname;
                      ObjCons (Addr (n + 1)) (Addr n);
                      ObjCons (Addr (n + 2)) genv] /\
     global_env_ptr s' = Some (Addr (n + 3)) /\
     env_lookup 1 (Addr (n + 3)) fname s' = Ok (Addr n) s' /\
     err s' = err s /\ out s' = out s) /\
  (exists v s',
     session 100
       [lit "(defun fact (n) (if (< n 2) 1 (* n (fact (- n 1)))))";
        lit "(fact 5)"] = Ok v s' /\
     lookup s' v = Some (ObjInt 120) /\
     out s' = lit "fact" ++ [newline] ++ lit "120" ++ [newline]).
Proof.
  intros He Hop Ha Hr1 Hr2 Hname Hg Hnil Hroom n. split.
  - destruct expr as [|e]; [discriminate|]. simpl eval.
    rewrite (bind_ok _ (deref_ok _ _ _ He)).
    rewrite (bind_ok _ (car_cons _ _ _ _ He)).
    rewrite (bind_ok _ (cdr_cons _ _ _ _ He)).
    rewrite (bind_ok _ (deref_ok _ _ _ Hop)).
    cbv zeta.
    change (streq (lit "defun") (lit "quote")) with false.
    change (streq (lit "defun") (lit "if")) with false.
    change (streq (lit "defun") (lit "lambda")) with false.
    change (streq (lit "defun") (lit "defun")) with true. cbv iota.
    rewrite (bind_ok _ (car_cons _ _ _ _ Ha)).
    rewrite (bind_ok _ (cdr_cons _ _ _ _ Ha)).
    rewrite (bind_ok _ (car_cons _ _ _ _ Hr1)).
    rewrite (bind_ok _ (cdr_cons _ _ _ _ Ha)).
    rewrite (bind_ok _ (cdr_cons _ _ _ _ Hr1)).
    rewrite (bind_ok _ (car_cons _ _ _ _ Hr2)).
    rewrite (bind_ok _ (gets_run _ _)), Hg.
    rewrite (bind_ok _ (make_lambda_ok _ _ _ _ (room_le _ 1 _ Hroom ltac:(lia)))).
    apply (room_store 3 (ObjLambda params body genv)) in Hroom. rewrite !bind_assoc.
    rewrite (bind_ok _ (sym_of_ok _ _ _ (lookup_store_old _ _ _ _ Hname))).
    rewrite bind_assoc.
    rewrite (bind_ok _ (env_define_ok _ _ _ _ Hroom)).
    rewrite obj_count_store. fold n.
    replace (S n + 2) with (n + 3) by lia.
    set (s1 := bound genv fname (Addr n) (store_obj (ObjLambda params body genv) s)).
    eexists. split; [reflexivity|].
    assert (Hobjs : all_objs s1 =
              all_objs s ++ [ObjLambda params body genv; ObjSymbol fname;
                             ObjCons (Addr (n + 1)) (Addr n);
                             ObjCons (Addr (n + 2)) genv]).
    { subst s1. rewrite all_objs_bound. simpl. rewrite obj_count_store. fold n.
      rewrite <- app_assoc. simpl. repeat f_equal; lia. }
    assert (Hn1 : nil_obj s1 = nil_obj s) by reflexivity.
    assert (He1 : err s1 = err s) by reflexivity.
    assert (Ho1 : out s1 = out s) by reflexivity.
    clearbody s1. cbn [all_objs global_env_ptr err out].
    split; [exact Hobjs|]. split; [reflexivity|]. split; [|split; assumption].
    assert (Hlk : forall k, lookup (mkState (all_objs s1) (nil_obj s1) (t_obj s1)
                      (Some (Addr (n + 3))) (out s1) (err s1)) (Addr (n + k)) =
                    nth_error [ObjLambda params body genv; ObjSymbol fname;
                               ObjCons (Addr (n + 1)) (Addr n);
                               ObjCons (Addr (n + 2)) genv] k).
    { intros k. simpl. rewrite Hobjs. apply nth_error_app_at. }
    rewrite (env_lookup_head 0 _ (Addr (n + 3)) (Addr (n + 2)) genv (Addr (n + 1))
               (Addr n) fname fname).
    + rewrite streq_refl. reflexivity.
    + simpl. rewrite Hn1. unfold nil_allocated in Hnil. intros Heq.
      apply lookup_valid in Hnil. destruct Hnil as (a & Ha' & Hlt).
      rewrite <- Heq in Ha'. inversion Ha'. fold n in Hlt. lia.
    + apply (Hlk 3).
    + apply (Hlk 2).
    + apply (Hlk 1).
  - do 2 eexists. split; [vm_compute; reflexivity|]. split; reflexivity.
Qed.

Lemma eval_defun_witness :
  (exists s',
     eval 1 (Addr 10) NULL heap_defun = Ok (Addr 3) s' /\
     all_objs s' =
       all_objs heap_defun ++
         [ObjLambda (Addr 5) (Addr 6) (Addr 0); ObjSymbol "f";
          ObjCons (Addr 12) (Addr 11); ObjCons (Addr 13) (Addr 0)] /\
     global_env_ptr s' = Some (Addr 14) /\
     env_lookup 1 (Addr 14) "f" s' = Ok (Addr 11) s' /\
     err s' = err heap_defun /\ out s' = out heap_defun) /\
  (exists v s',
     session 100
       [lit "(defun fact (n) (if (< n 2) 1 (* n (fact (- n 1)))))";
        lit "(fact 5)"] = Ok v s' /\
     lookup s' v = Some (ObjInt 120) /\
     out s' = lit "fact" ++ [newline] ++ lit "120" ++ [newline]).
Proof.
  apply (eval_defun 0 NULL heap_defun (Addr 10) (Addr 2) (Addr 9) (Addr 3)
           (Addr 8) (Addr 5) (Addr 7) (Addr 6) (Addr 0) "f" (Addr 0)).
  - reflexivity.
  - reflexivity.
  - reflexivity.
  - reflexivity.
  - reflexivity.
  - reflexivity.
  - reflexivity.
  - reflexivity.
  - unfold room. vm_compute. lia.
Defined.

(** ** Atoms *)

Lemma isdigit_range c :
  isdigit c = true <-> (48 <= N_of_ascii c <= 57)%N.
Proof.
  unfold isdigit. rewrite andb_true_iff, !N.leb_le. tauto.
Qed.

Lemma isdigit_not_space c : isdigit c = true -> isspace c = false.
Proof.
  intros H. apply isdigit_range in H. unfold isspace.
  destruct (N.eqb_spec (N_of_ascii c) 32); [lia|].
  destruct (N.leb_spec 9 (N_of_ascii c)); [|reflexivity].
  destruct (N.leb_spec (N_of_ascii c) 13); [lia | reflexivity].
Qed.

Lemma isdigit_neq c c' :
  isdigit c = true -> isdigit c' = false -> Ascii.eqb c c' = false.
Proof.
  intros H H'. destruct (Ascii.eqb_spec c c'); [congruence | reflexivity].
Qed.

Lemma atoi_digits_decimal ds : forall acc,
  all_digits ds ->
  atoi_digits acc ds = fold_left (fun a c => (10 * a + digit_val c)%Z) ds acc.
Proof.
  induction ds as [|c ds IH]; intros acc H; simpl; [reflexivity|].
  inversion H as [|? ? Hc Hds]; subst. rewrite Hc. apply IH, Hds.
Qed.

Lemma atoi_plain ds :
  ds <> [] -> all_digits ds -> atoi ds = wrap (clamp_long (decimal ds)).
Proof.
  intros Hne H. destruct ds as [|c ds]; [congruence|].
  inversion H as [|? ? Hc Hds]; subst. unfold atoi. cbn [strtol].
  rewrite (isdigit_not_space _ Hc).
  rewrite (isdigit_neq c "-" Hc eq_refl), (isdigit_neq c "+" Hc eq_refl).
  rewrite atoi_digits_decimal by assumption. reflexivity.
Qed.

Lemma atoi_minus ds :
  all_digits ds -> atoi ("-"%char :: ds) = wrap (clamp_long (- decimal ds)).
Proof.
  intros H. unfold atoi. cbn [strtol].
  change (isspace "-") with false. change (Ascii.eqb "-" "-") with true.
  cbv iota. rewrite atoi_digits_decimal by assumption. reflexivity.
Qed.

Lemma clamp_long_in_int z : in_int z -> clamp_long z = z.
Proof.
  unfold in_int, INT_MIN, INT_MAX, clamp_long, LONG_MIN, LONG_MAX. lia.
Qed.

Lemma forallb_isdigit ds : forallb isdigit ds = true <-> all_digits ds.
Proof. unfold all_digits. rewrite forallb_forall, Forall_forall. tauto. Qed.

(** The number test of the reader accepts the integer tokens and no other. *)
Lemma is_num_integer_token tok :
  is_num tok = true <-> exists z, integer_token tok z.
Proof.
  unfold is_num. split.
  - intros H. apply andb_true_iff in H. destruct H as [Hnz Hd].
    apply forallb_isdigit in Hd.
    destruct tok as [|c tok]; [discriminate|]. simpl nth in *.
    destruct (Ascii.eqb_spec c "-") as [->|Hc].
    + simpl in *. destruct tok as [|c' tok]; [discriminate|].
      eexists. apply integer_minus; [discriminate | assumption].
    + simpl in *. eexists. apply integer_plain; [discriminate | assumption].
  - intros (z & H). destruct H as [ds Hne Hd|ds Hne Hd].
    + destruct ds as [|c ds]; [congruence|]. simpl nth.
      inversion Hd as [|? ? Hc Hds]; subst.
      rewrite (isdigit_neq c "-" Hc eq_refl). simpl.
      rewrite (isdigit_neq c NUL Hc eq_refl), Hc. simpl.
      apply forallb_isdigit, Hds.
    + destruct ds as [|c ds]; [congruence|]. simpl.
      inversion Hd as [|? ? Hc Hds]; subst.
      rewrite (isdigit_neq c NUL Hc eq_refl), Hc. simpl.
      apply forallb_isdigit, Hds.
Qed.

Lemma integer_token_atoi tok z :
  integer_token tok z -> atoi tok = wrap (clamp_long z).
Proof.
  intros H. destruct H.
  - apply atoi_plain; assumption.
  - apply atoi_minus; assumption.
Qed.

Lemma integer_token_atoi_int tok z :
  integer_token tok z -> in_int z -> atoi tok = z.
Proof.
  intros H Hz. rewrite (integer_token_atoi _ _ H), (clamp_long_in_int _ Hz).
  unfold wrap, in_int, INT_MIN, INT_MAX in *. rewrite Z.mod_small; lia.
Qed.

Lemma streq_neq a b : a <> b -> streq a b = false.
Proof.
  intros H. destruct (streq a b) eqn:E; [|reflexivity].
  apply streq_eq in E. contradiction.
Qed.

(** C7.  Whatever atom the tokenizer hands over, the reader allocates one
    object for it: an Integer when the token is an optional '-' followed by
    one or more digits and nothing else, and otherwise the Symbol of that
    name.  The Integer holds the base-10 value of the token whenever an
    [int] holds that value; for any value it holds what [atoi] makes of
    it, the low 32 bits of the value cut down to a [long].  The lone [-] is
    no integer token; [007] is one, with value 7. *)
Theorem parse_atom fuel t t' tok s :
  read_token t = (Some tok, t') ->
  tok <> lit "(" ->
  tok <> lit "'" ->
  room 1 s ->
  (exists o,
     parse_expr (S fuel) t s = Ok (Addr (obj_count s), t') (store_obj o s) /\
     (forall z, integer_token tok z -> in_int z -> o = ObjInt z) /\
     (forall z, integer_token tok z -> o = ObjInt (wrap (clamp_long z))) /\
     ((forall z, ~ integer_token tok z) -> o = ObjSymbol tok)) /\
  (forall z, ~ integer_token (lit "-") z) /\
  integer_token (lit "007") 7.
Proof.
  intros Htok Hopen Hquote Hroom. split; [|split].
  - cbn [parse_expr]. rewrite Htok.
    rewrite (streq_neq _ _ Hopen), (streq_neq _ _ Hquote).
    destruct (is_num tok) eqn:E.
    + apply is_num_integer_token in E. destruct E as (z & Hz).
      exists (ObjInt (atoi tok)). split; [|split; [|split]].
      * rewrite (bind_ok _ (make_int_ok _ _ Hroom)). reflexivity.
      * intros z' Hz' Hin. f_equal. apply integer_token_atoi_int; assumption.
      * intros z' Hz'. f_equal. apply integer_token_atoi, Hz'.
      * intros Hno. exfalso. apply (Hno z Hz).
    + assert (Hnum : forall z, ~ integer_token tok z).
      { intros z Hz.
        assert (is_num tok = true) by (apply is_num_integer_token; eauto).
        congruence. }
      exists (ObjSymbol tok). split; [|split; [|split]].
      * rewrite (bind_ok _ (make_symbol_ok _ _ Hroom)). reflexivity.
      * intros z Hz. destruct (Hnum z Hz).
      * intros z Hz. destruct (Hnum z Hz).
      * reflexivity.
  - intros z H.
    assert (E : is_num (lit "-") = true) by (apply is_num_integer_token; eauto).
    discriminate E.
  - apply (integer_plain (lit "007")); [discriminate|].
    repeat constructor.
Qed.

Lemma parse_atom_witness :
  (exists o,
     parse_expr 1 (mkTokenizer (lit "-12 x") 0) heap_two_a =
       Ok (Addr (obj_count heap_two_a), mkTokenizer (lit "-12 x") 3)
          (store_obj o heap_two_a) /\
     (forall z, integer_token (lit "-12") z -> in_int z -> o = ObjInt z) /\
     (forall z, integer_token (lit "-12") z ->
                o = ObjInt (wrap (clamp_long z))) /\
     ((forall z, ~ integer_token (lit "-12") z) -> o = ObjSymbol (lit "-12"))) /\
  (forall z, ~ integer_token (lit "-") z) /\
  integer_token (lit "007") 7.
Proof.
  apply (parse_atom 0 (mkTokenizer (lit "-12 x") 0)
           (mkTokenizer (lit "-12 x") 3) (lit "-12") heap_two_a).
  - vm_compute. reflexivity.
  - vm_compute. discriminate.
  - vm_compute. discriminate.
  - unfold room. vm_compute. lia.
Defined.

(** ** The token [nil] *)

Lemma bind_inv {A B} (m : M A) (f : A -> M B) s b s' :
  bind m f s = Ok b s' ->
  exists a s1, m s = Ok a s1 /\ f a s1 = Ok b s'.
Proof.
  unfold bind. destruct (m s) as [a s1| | |]; try discriminate.
  intros H. exists a, s1. split; [reflexivity | exact H].
Qed.

Lemma new_not_nil s k : nil_allocated s -> Addr (obj_count s + k) <> nil_obj s.
Proof.
  intros Hnil Heq. unfold nil_allocated in Hnil.
  apply lookup_valid in Hnil. destruct Hnil as (a & Ha & Hlt).
  rewrite <- Heq in Ha. inversion Ha. lia.
Qed.

Lemma nil_allocated_extends s s' :
  extends s s' -> nil_allocated s -> nil_allocated s'.
Proof.
  intros Hext H. unfold nil_allocated in *.
  destruct Hext as (Hl & Hn & Ht). rewrite Hn.
  eapply extends_lookup; [split; eauto | exact H].
Qed.





(** ** Closure application *)

Lemma env_chain_extends s s' bs base : forall e,
  extends s s' -> env_chain s e bs base -> env_chain s' e bs base.
Proof.
  induction bs as [|[name v] bs IH]; simpl; intros e Hext H; [assumption|].
  destruct H as (Hne & pair & key & rest & He & Hp & Hk & Hc).
  split; [destruct Hext as (_ & Hn & _); congruence|].
  exists pair, key, rest. repeat split; eauto using extends_lookup.
Qed.

Lemma env_chain_app s bs1 bs2 e2 e3 : forall e1,
  env_chain s e1 bs1 e2 -> env_chain s e2 bs2 e3 ->
  env_chain s e1 (bs1 ++ bs2) e3.
Proof.
  induction bs1 as [|[name v] bs1 IH]; simpl; intros e1 H1 H2.
  - subst. assumption.
  - destruct H1 as (Hne & pair & key & rest & He & Hp & Hk & Hc).
    split; [assumption|]. exists pair, key, rest. repeat split; eauto.
Qed.

(** Looking a name up through a chain of bindings: the first binding of
    the name, or else whatever the base environment gives. *)
Lemma env_lookup_chain s bs base name : forall e fuel,
  env_chain s e bs base ->
  env_lookup (List.length bs + fuel) e name s =
    match assoc name bs with
    | Some v => Ok v s
    | None => env_lookup fuel base name s
    end.
Proof.
  induction bs as [|[key v] bs IH]; intros e fuel H; simpl in H;
    cbn [assoc List.length Nat.add].
  - subst. reflexivity.
  - destruct H as (Hne & pair & k & rest & He & Hp & Hk & Hc).
    rewrite (env_lookup_head _ _ _ _ _ _ _ _ name Hne He Hp Hk).
    destruct (streq key name); [reflexivity | apply IH, Hc].
Qed.

Lemma extends_bound env name value s : extends s (bound env name value s).
Proof.
  unfold bound. eapply extends_trans; [apply extends_store|].
  eapply extends_trans; apply extends_store.
Qed.

Lemma obj_count_bound env name value s :
  obj_count (bound env name value s) = obj_count s + 3.
Proof. unfold bound. rewrite !obj_count_store. lia. Qed.

Lemma env_chain_bound env name value s :
  nil_allocated s ->
  env_chain (bound env name value s) (Addr (obj_count s + 2)) [(name, value)] env.
Proof.
  intros Hnil. simpl. split.
  - intros Heq. unfold nil_allocated in Hnil. apply lookup_valid in Hnil.
    destruct Hnil as (a & Ha & Hlt). simpl in Heq. rewrite <- Heq in Ha.
    inversion Ha. lia.
  - exists (Addr (obj_count s + 1)), (Addr (obj_count s)), env.
    assert (Hlk : forall k, lookup (bound env name value s) (Addr (obj_count s + k)) =
              nth_error [ObjSymbol name; ObjCons (Addr (obj_count s)) value;
                         ObjCons (Addr (obj_count s + 1)) env] k).
    { intros k. unfold lookup. rewrite all_objs_bound. apply nth_error_app_at. }
    split; [apply (Hlk 2)|]. split; [apply (Hlk 1)|]. split; [|reflexivity].
    rewrite <- (Nat.add_0_r (obj_count s)) at 1. apply (Hlk 0).
Qed.

(** The binding loop: one binding per parameter that has an argument, the
    last one innermost. *)
Lemma bind_params_spec ps : forall vs names fuel e params vals s,
  is_list s params ps ->
  Forall2 (is_symbol s) ps names ->
  is_list s vals vs ->
  nil_allocated s ->
  Nat.min (List.length ps) (List.length vs) < fuel ->
  room (3 * Nat.min (List.length ps) (List.length vs)) s ->
  exists e' s',
    bind_params fuel e params vals s = Ok e' s' /\
    extends s s' /\
    obj_count s' = obj_count s + 3 * Nat.min (List.length ps) (List.length vs) /\
    env_chain s' e' (rev (combine names vs)) e /\
    err s' = err s /\ out s' = out s /\ global_env_ptr s' = global_env_ptr s.
Proof.
  induction ps as [|p ps IH]; intros vs names fuel e params vals s Hps Hnames Hvs Hnil Hfuel Hroom;
    (destruct fuel as [|fuel]; [lia|]).
  - simpl in Hps. subst params. inversion Hnames; subst.
    exists e, s. simpl bind_params.
    rewrite (bind_ok _ (is_nil_nil _)), (bind_ok _ (is_nil_run _ _)).
    simpl. split; [reflexivity|]. split; [apply extends_refl|].
    split; [lia|]. repeat split.
  - inversion Hnames as [|? name ? names' Hp Hnames']; subst.
    destruct Hps as (Hpne & pd & Hpc & Hps).
    destruct vs as [|v vs].
    + simpl in Hvs. subst vals. exists e, s. simpl bind_params.
      rewrite (bind_ok _ (is_nil_other _ _ Hpne)), (bind_ok _ (is_nil_nil _)).
      simpl. split; [reflexivity|]. split; [apply extends_refl|].
      split; [lia|]. repeat split.
    + destruct Hvs as (Hvne & vd & Hvc & Hvs).
      simpl in Hfuel, Hroom.
      cbn [bind_params].
      rewrite (bind_ok _ (is_nil_other _ _ Hpne)), (bind_ok _ (is_nil_other _ _ Hvne)).
      cbn [negb andb]. cbv iota.
      rewrite (bind_ok _ (car_cons _ _ _ _ Hpc)).
      rewrite (bind_ok _ (sym_of_ok _ _ _ Hp)).
      rewrite (bind_ok _ (car_cons _ _ _ _ Hvc)).
      rewrite (bind_ok _ (env_define_ok _ _ _ _ (room_le _ 3 _ Hroom ltac:(lia)))).
      pose proof (extends_bound e name v s) as Hext.
      rewrite (bind_ok _ (cdr_cons _ _ _ _ (extends_lookup _ _ _ _ Hext Hpc))).
      rewrite (bind_ok _ (cdr_cons _ _ _ _ (extends_lookup _ _ _ _ Hext Hvc))).
      destruct (IH vs names' fuel (Addr (obj_count s + 2)) pd vd (bound e name v s))
        as (e' & s' & Hrun & Hext' & Hcount & Hchain & Herr & Hout & Hg).
      * eapply extends_is_list; eauto.
      * eapply Forall2_impl; [|exact Hnames'].
        intros a b Hab. eapply extends_lookup; eauto.
      * eapply extends_is_list; eauto.
      * eapply nil_allocated_extends; eauto.
      * lia.
      * unfold room in *. rewrite obj_count_bound. lia.
      * exists e', s'. split; [exact Hrun|].
        split; [eapply extends_trans; eauto|].
        split; [rewrite Hcount, obj_count_bound; simpl; lia|].
        split; [|split; [rewrite Herr | split; [rewrite Hout | rewrite Hg]]; reflexivity].
        simpl. eapply env_chain_app; [exact Hchain|].
        eapply env_chain_extends; [exact Hext'|].
        apply env_chain_bound, Hnil.
Qed.

Lemma special_dispatch {A} (oo : Obj) (q i l d app : A) :
  special_form oo = false ->
  match oo with
  | ObjSymbol name =>
      if streq name "quote" then q
      else if streq name "if" then i
      else if streq name "lambda" then l
      else if streq name "defun" then d
      else app
  | _ => app
  end = app.
Proof.
  destruct oo; try reflexivity. simpl. intros H.
  apply orb_false_iff in H. destruct H as [H Hd].
  apply orb_false_iff in H. destruct H as [H Hl].
  apply orb_false_iff in H. destruct H as [Hq Hi].
  rewrite Hq, Hi, Hl, Hd. reflexivity.
Qed.

(** C9, as the code has it.  Applying a Closure binds parameters to
    arguments pairwise from the front and stops at the end of the shorter
    list: [combine] pairs exactly that prefix, and three objects are
    allocated per pair.  The body is evaluated in the captured environment
    [lenv] extended by these bindings.  No binding is made for a surplus
    parameter and a surplus argument is dropped: looking up a name that is
    not among the bound prefix gives what [lenv] gives for it.  So the
    lookup of a surplus parameter finds the binding [lenv] has for its
    name, when it has one, and it fails ([env_lookup] returns NULL) only
    when [lenv] does not bind the name either. *)
Theorem eval_closure_application
    fuel env s expr op args oo f params body lenv s1 vals s2 ps names vs :
  lookup s expr = Some (ObjCons op args) ->
  lookup s op = Some oo ->
  special_form oo = false ->
  eval fuel op env s = Ok f s1 ->
  lookup s1 f = Some (ObjLambda params body lenv) ->
  eval_list fuel args env s1 = Ok vals s2 ->
  is_list s2 params ps ->
  Forall2 (is_symbol s2) ps names ->
  is_list s2 vals vs ->
  nil_allocated s2 ->
  Nat.min (List.length ps) (List.length vs) < fuel ->
  room (3 * Nat.min (List.length ps) (List.length vs)) s2 ->
  exists new_env s3,
    eval (S fuel) expr env s = eval fuel body new_env s3 /\
    env_chain s3 new_env (rev (combine names vs)) lenv /\
    extends s2 s3 /\
    obj_count s3 = obj_count s2 + 3 * Nat.min (List.length ps) (List.length vs) /\
    err s3 = err s2 /\ out s3 = out s2 /\
    (forall name n,
       env_lookup (Nat.min (List.length ps) (List.length vs) + n) new_env name s3 =
         match assoc name (rev (combine names vs)) with
         | Some v => Ok v s3
         | None => env_lookup n lenv name s3
         end) /\
    (forall name n,
       assoc name (rev (combine names vs)) = None ->
       env_lookup n lenv name s3 = Ok NULL s3 ->
       env_lookup (Nat.min (List.length ps) (List.length vs) + n) new_env name s3 =
         Ok NULL s3).
Proof.
  intros He Hop Hsp Hf Hlam Hargs Hps Hnames Hvs Hnil Hfuel Hroom.
  destruct (bind_params_spec ps vs names fuel lenv params vals s2)
    as (e' & s3 & Hrun & Hext & Hcount & Hchain & Herr & Hout & _); auto.
  exists e', s3. split; [|split; [exact Hchain|split; [exact Hext|]]].
  - destruct expr as [|e]; [discriminate|]. cbn [eval].
    rewrite (bind_ok _ (deref_ok _ _ _ He)).
    rewrite (bind_ok _ (car_cons _ _ _ _ He)).
    rewrite (bind_ok _ (cdr_cons _ _ _ _ He)).
    rewrite (bind_ok _ (deref_ok _ _ _ Hop)).
    cbv zeta. rewrite (special_dispatch _ _ _ _ _ _ Hsp).
    rewrite (bind_ok _ Hf).
    rewrite (bind_ok _ (deref_ok _ _ _ Hlam)).
    rewrite (bind_ok _ Hargs).
    rewrite (bind_ok _ Hrun). reflexivity.
  - split; [exact Hcount|]. split; [exact Herr|]. split; [exact Hout|].
    assert (Hlook : forall name n,
              env_lookup (Nat.min (List.length ps) (List.length vs) + n) e' name s3 =
                match assoc name (rev (combine names vs)) with
                | Some v => Ok v s3
                | None => env_lookup n lenv name s3
                end).
    { intros name n.
      rewrite <- (env_lookup_chain _ _ _ name _ n Hchain).
      f_equal. f_equal.
      rewrite length_rev, length_combine.
      apply Forall2_length in Hnames. rewrite Hnames. reflexivity. }
    split; [exact Hlook|].
    intros name n Hnone Hbase. rewrite Hlook, Hnone. exact Hbase.
Qed.

Lemma eval_closure_application_witness :
  exists new_env s3,
    eval 4 (Addr 13) (Addr 0) heap_app = eval 3 (Addr 7) new_env s3 /\
    env_chain s3 new_env (rev (combine [lit "x"; lit "y"] [Addr 11])) (Addr 0) /\
    extends
      (store_obj (ObjCons (Addr 11) (Addr 0))
       (store_obj (ObjLambda (Addr 6) (Addr 7) (Addr 0)) heap_app)) s3 /\
    obj_count s3 = 16 + 3 * Nat.min 2 1 /\
    err s3 = [] /\ out s3 = [] /\
    (forall name n,
       env_lookup (Nat.min 2 1 + n) new_env name s3 =
         match assoc name (rev (combine [lit "x"; lit "y"] [Addr 11])) with
         | Some v => Ok v s3
         | None => env_lookup n (Addr 0) name s3
         end) /\
    (forall name n,
       assoc name (rev (combine [lit "x"; lit "y"] [Addr 11])) = None ->
       env_lookup n (Addr 0) name s3 = Ok NULL s3 ->
       env_lookup (Nat.min 2 1 + n) new_env name s3 = Ok NULL s3).
Proof.
  apply (eval_closure_application 3 (Addr 0) heap_app (Addr 13) (Addr 10)
           (Addr 12) (ObjCons (Addr 2) (Addr 9)) (Addr 14) (Addr 6) (Addr 7)
           (Addr 0)
           (store_obj (ObjLambda (Addr 6) (Addr 7) (Addr 0)) heap_app)
           (Addr 15)
           (store_obj (ObjCons (Addr 11) (Addr 0))
              (store_obj (ObjLambda (Addr 6) (Addr 7) (Addr 0)) heap_app))
           [Addr 3; Addr 4] [lit "x"; lit "y"] [Addr 11]).
  - reflexivity.
  - reflexivity.
  - reflexivity.
  - vm_compute. reflexivity.
  - reflexivity.
  - vm_compute. reflexivity.
  - simpl. split; [discriminate|]. eexists. split; [reflexivity|].
    split; [discriminate|]. eexists. split; reflexivity.
  - repeat constructor.
  - simpl. split; [discriminate|]. eexists. split; reflexivity.
  - reflexivity.
  - simpl. lia.
  - unfold room. vm_compute. lia.
Defined.

(** C9 fails as stated: a surplus parameter is not made unbound.  In
    [((lambda (a car) car) 1)] the parameter [car] gets no argument, and
    the lookup of [car] in the body does not fail: it finds the binding of
    the captured environment, the primitive, and no diagnostic is
    written.  With a parameter name that nothing binds, as in
    [((lambda (a b) b) 1)], the lookup fails. *)
Lemma surplus_parameter_still_found :
  (exists v s',
     session 30 [lit "((lambda (a car) car) 1)"] = Ok v s' /\
     lookup s' v = Some (ObjFunc fn_car) /\
     err s' = []) /\
  (exists v s',
     session 30 [lit "((lambda (a b) b) 1)"] = Ok v s' /\
     v = nil_obj s' /\
     err s' = [lit "Undefined symbol: b"]).
Proof.
  split.
  - eexists. eexists. split; [vm_compute; reflexivity|].
    split; reflexivity.
  - eexists. eexists. split; [vm_compute; reflexivity|].
    split; reflexivity.
Qed.

(** ** The tokenizer on the text it has left *)

Lemma nth_skipn_hd {A} (d : A) n : forall l, nth n l d = hd d (skipn n l).
Proof. induction n as [|n IH]; destruct l; simpl; auto. Qed.

Lemma skipn_S_tl {A} n : forall l : list A, skipn (S n) l = tl (skipn n l).
Proof.
  induction n as [|n IH]; destruct l as [|x l]; try reflexivity.
  change (skipn (S (S n)) (x :: l)) with (skipn (S n) l).
  rewrite IH. reflexivity.
Qed.

Lemma cur_rest t : cur t = hd NUL (rest t).
Proof. apply nth_skipn_hd. Qed.

Lemma rest_advance t : rest (advance t) = tl (rest t).
Proof. apply skipn_S_tl. Qed.

Lemma rest_length t : List.length (rest t) <= List.length (input t).
Proof. unfold rest. rewrite length_skipn. lia. Qed.

Lemma rest_shift t k :
  rest (mkTokenizer (input t) (pos t + k)) = skipn k (rest t).
Proof. unfold rest. simpl. rewrite skipn_skipn. f_equal. lia. Qed.

Lemma atom_char_true c :
  atom_char c = true ->
  Ascii.eqb c NUL = false /\ isspace c = false /\
  Ascii.eqb c "(" = false /\ Ascii.eqb c ")" = false.
Proof.
  unfold atom_char. rewrite !andb_true_iff, !negb_true_iff. tauto.
Qed.

(** [skip_whitespace] stays where it is at the end of the text and before
    a character that is neither white space nor the start of a comment. *)
Lemma skip_whitespace_stay t :
  match rest t with
  | [] => True
  | c :: _ => isspace c = false /\ Ascii.eqb c ";" = false
  end ->
  skip_whitespace t = t.
Proof.
  intros H. unfold skip_whitespace. cbn [skip_whitespace_loop].
  rewrite cur_rest. destruct (rest t) as [|c r]; simpl hd.
  - reflexivity.
  - destruct H as [Hs Hc]. rewrite Hs, Hc.
    destruct (Ascii.eqb c NUL); reflexivity.
Qed.

(** It steps over one blank that is followed by such a character. *)
Lemma skip_whitespace_blank t r :
  rest t = " "%char :: r ->
  match r with
  | [] => True
  | c :: _ => isspace c = false /\ Ascii.eqb c ";" = false
  end ->
  skip_whitespace t = advance t.
Proof.
  intros Ht H. unfold skip_whitespace.
  pose proof (rest_length t) as Hlen. rewrite Ht in Hlen. simpl in Hlen.
  destruct (List.length (input t)) as [|n] eqn:E; [lia|].
  cbn [skip_whitespace_loop]. rewrite cur_rest, Ht. simpl hd.
  change (Ascii.eqb " " NUL) with false. change (isspace " ") with true.
  cbv iota. rewrite cur_rest, rest_advance, Ht. simpl tl.
  destruct r as [|c r]; simpl hd.
  - reflexivity.
  - destruct H as [Hs Hc]. rewrite Hs, Hc.
    destruct (Ascii.eqb c NUL); reflexivity.
Qed.

Lemma scan_atom_spec tok : forall n t r,
  rest t = tok ++ r ->
  forallb atom_char tok = true ->
  delimited r ->
  List.length tok <= n ->
  scan_atom n t = mkTokenizer (input t) (pos t + List.length tok).
Proof.
  induction tok as [|c tok IH]; intros n t r Ht Htok Hr Hn.
  - simpl in *. rewrite Nat.add_0_r. destruct t as [i p]. simpl.
    destruct n as [|n]; [reflexivity|]. cbn [scan_atom].
    rewrite cur_rest, Ht. destruct r as [|c r]; simpl hd.
    + reflexivity.
    + simpl in Hr. unfold atom_char in Hr.
      destruct (Ascii.eqb c NUL); simpl in *; [reflexivity|].
      destruct (isspace c); simpl in *; [reflexivity|].
      destruct (Ascii.eqb c "("); simpl in *; [reflexivity|].
      rewrite negb_false_iff in Hr. rewrite Hr. reflexivity.
  - simpl in Htok. apply andb_true_iff in Htok. destruct Htok as [Hc Htok].
    destruct n as [|n]; [simpl in Hn; lia|]. cbn [scan_atom].
    rewrite cur_rest, Ht. simpl hd.
    apply atom_char_true in Hc. destruct Hc as (H0 & Hs & Ho & Hcl).
    rewrite H0, Hs, Ho, Hcl. simpl.
    rewrite (IH n (advance t) r).
    + simpl. f_equal. lia.
    + rewrite rest_advance, Ht. reflexivity.
    + exact Htok.
    + exact Hr.
    + simpl in Hn. lia.
Qed.

(** An atom followed by a delimiter is read as one token. *)
Lemma read_token_atom t tok r :
  rest t = tok ++ r ->
  atom_text tok = true ->
  delimited r ->
  read_token t = (Some tok, mkTokenizer (input t) (pos t + List.length tok)).
Proof.
  intros Ht Htok Hr. unfold atom_text in Htok.
  apply andb_true_iff in Htok. destruct Htok as [Hhd Hall].
  destruct tok as [|c tok]; [discriminate|].
  pose proof Hall as Hall'. simpl in Hall'.
  apply andb_true_iff in Hall'. destruct Hall' as [Hc _].
  apply atom_char_true in Hc. destruct Hc as (H0 & Hs & Ho & Hcl).
  rewrite negb_true_iff in Hhd.
  unfold read_token. rewrite skip_whitespace_stay.
  2:{ rewrite Ht. simpl. split; assumption. }
  rewrite cur_rest, Ht. simpl hd. rewrite H0, Ho, Hcl. simpl orb. cbv iota.
  rewrite (scan_atom_spec (c :: tok) _ t r Ht Hall Hr).
  2:{ pose proof (rest_length t) as Hlen. rewrite Ht, length_app in Hlen. lia. }
  cbn [pos]. replace (pos t + List.length (c :: tok) - pos t) with (List.length (c :: tok)) by lia.
  fold (rest t). rewrite Ht.
  rewrite firstn_app, Nat.sub_diag, firstn_all. rewrite firstn_0, app_nil_r.
  reflexivity.
Qed.

Lemma read_token_paren t c r :
  rest t = c :: r ->
  c = "("%char \/ c = ")"%char ->
  read_token t = (Some [c], advance t).
Proof.
  intros Ht Hc. unfold read_token. rewrite skip_whitespace_stay.
  2:{ rewrite Ht. destruct Hc; subst; split; reflexivity. }
  rewrite cur_rest, Ht. simpl hd.
  destruct Hc; subst; reflexivity.
Qed.

Lemma read_token_eof t : rest t = [] -> read_token t = (None, t).
Proof.
  intros Ht. unfold read_token. rewrite skip_whitespace_stay by (rewrite Ht; exact I).
  rewrite cur_rest, Ht. reflexivity.
Qed.

(** ** The loops of the tokenizer reach their exits

    The loops are bounded by the length of the input.  These lemmas show
    that the bound is never what stops them, and what kind of token
    [read_token] returns on any text. *)

Lemma length_rest_advance t :
  List.length (rest (advance t)) = List.length (rest t) - 1.
Proof. rewrite rest_advance. destruct (rest t); simpl; lia. Qed.

Lemma skip_comment_spec n : forall t,
  List.length (rest t) <= n ->
  input (skip_comment n t) = input t /\
  List.length (rest (skip_comment n t)) <= List.length (rest t) /\
  match rest (skip_comment n t) with
  | [] => True
  | c :: _ => c = NUL \/ c = newline
  end.
Proof.
  induction n as [|n IH]; intros t Hn; cbn [skip_comment].
  - destruct (rest t); [auto | simpl in Hn; lia].
  - rewrite cur_rest. destruct (rest t) as [|c r] eqn:E; simpl hd.
    + change (Ascii.eqb NUL NUL) with true. simpl. rewrite E. auto.
    + destruct (Ascii.eqb_spec c NUL) as [->|H0]; simpl.
      { rewrite E. auto. }
      destruct (Ascii.eqb_spec c newline) as [->|Hnl]; simpl.
      { rewrite E. auto. }
      destruct (IH (advance t)) as (Hi & Hl & Hs).
      { rewrite length_rest_advance, E. simpl in *. lia. }
      split; [exact Hi|]. split; [|exact Hs].
      rewrite length_rest_advance, E in Hl. simpl in *. lia.
Qed.

Lemma skip_whitespace_loop_spec n : forall t,
  List.length (rest t) < n ->
  input (skip_whitespace_loop n t) = input t /\
  token_start (rest (skip_whitespace_loop n t)).
Proof.
  induction n as [|n IH]; intros t Hn; [lia|]. cbn [skip_whitespace_loop].
  rewrite cur_rest. destruct (rest t) as [|c r] eqn:E; simpl hd.
  - change (Ascii.eqb NUL NUL) with true. cbv iota. rewrite ?E. split; simpl; auto.
  - destruct (Ascii.eqb_spec c NUL) as [->|H0].
    { rewrite ?E. split; simpl; auto. }
    destruct (isspace c) eqn:Hs.
    { destruct (IH (advance t)) as (Hi & Hst); [|split; assumption].
      rewrite length_rest_advance, E. simpl in *. lia. }
    destruct (Ascii.eqb c ";") eqn:Hsemi.
    + destruct (skip_comment_spec (List.length (input t)) t (rest_length t))
        as (Hi & Hl & _).
      assert (Hlt : List.length (rest (skip_comment (List.length (input t)) t))
                    < List.length (rest t)).
      { pose proof (rest_length t) as Hlen. rewrite E in Hlen. simpl in Hlen.
        destruct (List.length (input t)) as [|m] eqn:Em; [lia|].
        cbn [skip_comment]. rewrite cur_rest, E. simpl hd.
        apply Ascii.eqb_eq in Hsemi. subst c.
        change (negb (Ascii.eqb ";" NUL) && negb (Ascii.eqb ";" newline)) with true.
        cbv iota.
        destruct (skip_comment_spec m (advance t)) as (_ & Hl' & _).
        { rewrite length_rest_advance, E. simpl. lia. }
        rewrite length_rest_advance, E in Hl'. simpl in *. lia. }
      destruct (IH (skip_comment (List.length (input t)) t)) as (Hi' & Hst).
      { rewrite E in Hlt. simpl in *. lia. }
      split; [congruence | exact Hst].
    + rewrite ?E. split; simpl; auto.
Qed.

Lemma skip_whitespace_spec t :
  input (skip_whitespace t) = input t /\ token_start (rest (skip_whitespace t)).
Proof.
  apply skip_whitespace_loop_spec. pose proof (rest_length t). lia.
Qed.

Lemma scan_atom_run n : forall t,
  exists k,
    scan_atom n t = mkTokenizer (input t) (pos t + k) /\
    forallb atom_char (firstn k (rest t)) = true /\
    List.length (firstn k (rest t)) = k /\
    (0 < n -> atom_char (cur t) = true -> 0 < k).
Proof.
  induction n as [|n IH]; intros t.
  - exists 0. simpl. rewrite Nat.add_0_r. destruct t. repeat split; auto.
  - cbn [scan_atom]. fold (atom_char (cur t)).
    destruct (atom_char (cur t)) eqn:Hc.
    + destruct (IH (advance t)) as (k & Hrun & Hall & Hlen & _).
      exists (S k). rewrite Hrun. simpl.
      split; [f_equal; lia|].
      rewrite cur_rest in Hc. rewrite rest_advance in Hall, Hlen.
      destruct (rest t) as [|c r]; [discriminate Hc|]. simpl in *.
      rewrite Hc, Hall, Hlen. repeat split; auto. lia.
    + exists 0. simpl. rewrite Nat.add_0_r. destruct t.
      repeat split; auto. intros _ H. discriminate H.
Qed.

(** A token is a parenthesis or the text of an atom. *)
Lemma read_token_kinds t tok t' :
  read_token t = (Some tok, t') ->
  tok = lit "(" \/ tok = lit ")" \/ atom_text tok = true.
Proof.
  unfold read_token. intros H.
  destruct (skip_whitespace_spec t) as (Hi & Hst).
  set (t0 := skip_whitespace t) in *.
  rewrite cur_rest in H.
  destruct (rest t0) as [|c r] eqn:E; simpl hd in H.
  { change (Ascii.eqb NUL NUL) with true in H. discriminate H. }
  destruct (Ascii.eqb_spec c NUL) as [->|H0]; [discriminate H|].
  destruct (Ascii.eqb_spec c "(") as [->|Ho].
  { inversion H. left. reflexivity. }
  destruct (Ascii.eqb_spec c ")") as [->|Hc].
  { inversion H. right. left. reflexivity. }
  simpl in H. inversion H; subst tok t'. clear H. right. right.
  simpl in Hst. destruct Hst as [Hst|[Hsp Hsemi]]; [contradiction|].
  destruct (scan_atom_run (List.length (input t0)) t0) as (k & Hrun & Hall & Hlen & Hpos).
  rewrite Hrun. cbn [pos].
  replace (pos t0 + k - pos t0) with k by lia. fold (rest t0).
  assert (Hk : 0 < k).
  { apply Hpos.
    - pose proof (rest_length t0) as Hl. rewrite E in Hl. simpl in Hl. lia.
    - rewrite cur_rest, E. simpl. unfold atom_char.
      apply Ascii.eqb_neq in H0, Ho, Hc. rewrite H0, Hsp, Ho, Hc. reflexivity. }
  unfold atom_text. rewrite Hall. rewrite E.
  destruct k as [|k]; [lia|]. simpl. rewrite Hsemi. reflexivity.
Qed.

(** The name of every Symbol the reader makes from an atom is one that is
    read back as that Symbol. *)
Lemma reader_symbol_names t tok t' :
  read_token t = (Some tok, t') ->
  tok <> lit "(" -> tok <> lit ")" ->
  streq tok "'" = false ->
  is_num tok = false ->
  symbol_name tok = true.
Proof.
  intros H Ho Hc Hq Hn.
  destruct (read_token_kinds _ _ _ H) as [?|[?|Hat]]; try contradiction.
  unfold symbol_name. rewrite Hat, Hq, Hn. reflexivity.
Qed.

(** ** Printing and reading integers *)

Lemma digit_char_spec d :
  (0 <= d < 10)%Z ->
  isdigit (digit_char d) = true /\ digit_val (digit_char d) = d.
Proof.
  intros H. unfold digit_char, digit_val, isdigit.
  rewrite N_ascii_embedding by lia.
  split; [|lia].
  apply andb_true_iff. split; apply N.leb_le; lia.
Qed.

Lemma digits_acc_S fuel n acc :
  digits_acc (S fuel) n acc =
    if (n <? 10)%Z then digit_char (n mod 10) :: acc
    else digits_acc fuel (n / 10) (digit_char (n mod 10) :: acc).
Proof. reflexivity. Qed.

Lemma digits_acc_spec fuel : forall n acc,
  (0 <= n < 10 ^ Z.of_nat (S fuel))%Z ->
  exists ds,
    digits_acc (S fuel) n acc = ds ++ acc /\ ds <> [] /\ all_digits ds /\
    forall a0,
      fold_left (fun a c => (10 * a + digit_val c)%Z) ds a0 =
      (a0 * 10 ^ Z.of_nat (List.length ds) + n)%Z.
Proof.
  induction fuel as [|fuel IH]; intros n acc Hn; rewrite digits_acc_S.
  - change (10 ^ Z.of_nat 1)%Z with 10%Z in Hn.
    destruct (Z.ltb_spec n 10) as [Hlt|Hge]; [|lia].
    exists [digit_char (n mod 10)].
    rewrite Z.mod_small by lia.
    destruct (digit_char_spec n) as [Hd Hv]; [lia|].
    split; [reflexivity|]. split; [discriminate|].
    split; [constructor; [exact Hd | constructor]|].
    intros a0. cbn [fold_left List.length]. rewrite Hv.
      change (10 ^ Z.of_nat 1)%Z with 10%Z. lia.
  - destruct (Z.ltb_spec n 10) as [Hlt|Hge].
    + exists [digit_char (n mod 10)].
      rewrite Z.mod_small by lia.
      destruct (digit_char_spec n) as [Hd Hv]; [lia|].
      split; [reflexivity|]. split; [discriminate|].
      split; [constructor; [exact Hd | constructor]|].
      intros a0. cbn [fold_left List.length]. rewrite Hv.
      change (10 ^ Z.of_nat 1)%Z with 10%Z. lia.
    + destruct (IH (n / 10)%Z (digit_char (n mod 10) :: acc))
        as (ds & Hrun & Hne & Hall & Hval).
      { split; [apply Z.div_pos; lia|].
        apply Z.div_lt_upper_bound; [lia|].
        rewrite Nat2Z.inj_succ, Z.pow_succ_r in Hn by lia. lia. }
      exists (ds ++ [digit_char (n mod 10)]).
      destruct (digit_char_spec (n mod 10)) as [Hd Hv];
        [apply Z.mod_pos_bound; lia|].
      split; [rewrite Hrun, <- app_assoc; reflexivity|].
      split; [destruct ds; discriminate|].
      split; [apply Forall_app; split; [exact Hall | constructor; [exact Hd | constructor]]|].
      intros a0. rewrite fold_left_app, Hval. cbn [fold_left]. rewrite Hv.
      rewrite length_app. cbn [List.length].
      rewrite Nat2Z.inj_add, Z.pow_add_r by lia.
      change (10 ^ Z.of_nat 1)%Z with 10%Z.
      pose proof (Z.div_mod n 10 ltac:(lia)). lia.
Qed.

Lemma digits_spec n :
  (0 <= n)%Z ->
  digits n <> [] /\ all_digits (digits n) /\ decimal (digits n) = n.
Proof.
  intros Hn. unfold digits.
  destruct (digits_acc_spec (Z.to_nat (Z.log2 n)) n [])
    as (ds & Hrun & Hne & Hall & Hval).
  { split; [exact Hn|].
    rewrite Nat2Z.inj_succ, Z2Nat.id by apply Z.log2_nonneg.
    destruct (Z.eq_dec n 0) as [->|Hnz]; [reflexivity|].
    pose proof (Z.log2_spec n ltac:(lia)) as [_ Hlt].
    eapply Z.lt_le_trans; [exact Hlt|].
    apply Z.pow_le_mono_l. lia. }
  rewrite Hrun, app_nil_r. split; [exact Hne|]. split; [exact Hall|].
  unfold decimal. rewrite Hval. lia.
Qed.

(** [printf("%d")] writes an integer token whose value is the number. *)
Lemma show_int_integer_token n : integer_token (show_int n) n.
Proof.
  unfold show_int. destruct (Z.ltb_spec n 0) as [Hneg|Hpos].
  - destruct (digits_spec (- n)) as (Hne & Hall & Hval); [lia|].
    replace n with (- decimal (digits (- n)))%Z at 2 by lia.
    apply integer_minus; assumption.
  - destruct (digits_spec n) as (Hne & Hall & Hval); [lia|].
    rewrite <- Hval at 2. apply integer_plain; assumption.
Qed.

Lemma wrap_in_int n : in_int n -> wrap n = n.
Proof.
  unfold in_int, INT_MIN, INT_MAX, wrap. intros H.
  rewrite Z.mod_small; lia.
Qed.

Lemma isdigit_atom_char c : isdigit c = true -> atom_char c = true.
Proof.
  intros H. unfold atom_char.
  rewrite (isdigit_not_space _ H).
  rewrite (isdigit_neq c NUL H eq_refl), (isdigit_neq c "(" H eq_refl),
    (isdigit_neq c ")" H eq_refl).
  reflexivity.
Qed.

Lemma all_digits_atom_chars ds : all_digits ds -> forallb atom_char ds = true.
Proof.
  intros H. apply forallb_forall. intros c Hc.
  apply isdigit_atom_char. unfold all_digits in H.
  rewrite Forall_forall in H. auto.
Qed.

Lemma integer_token_atom_text tok z : integer_token tok z -> atom_text tok = true.
Proof.
  intros H. destruct H as [ds Hne Hall|ds Hne Hall]; unfold atom_text.
  - destruct ds as [|c ds]; [congruence|].
    rewrite (all_digits_atom_chars _ Hall).
    inversion Hall as [|? ? Hc _]; subst.
    rewrite (isdigit_neq c ";" Hc eq_refl). reflexivity.
  - cbn [forallb]. rewrite (all_digits_atom_chars _ Hall). reflexivity.
Qed.

(** ** Reading one atom *)

Lemma parse_expr_token fuel t t' tok s :
  read_token t = (Some tok, t') ->
  streq tok "(" = false ->
  streq tok "'" = false ->
  room 1 s ->
  parse_expr (S fuel) t s =
    Ok (Addr (obj_count s), t')
       (store_obj (if is_num tok then ObjInt (atoi tok) else ObjSymbol tok) s).
Proof.
  intros Htok Hopen Hquote Hroom. cbn [parse_expr].
  rewrite Htok, Hopen, Hquote. destruct (is_num tok).
  - rewrite (bind_ok _ (make_int_ok _ _ Hroom)). reflexivity.
  - rewrite (bind_ok _ (make_symbol_ok _ _ Hroom)). reflexivity.
Qed.

Lemma atom_text_not_open tok : atom_text tok = true -> streq tok "(" = false.
Proof.
  intros H. destruct (streq tok "(") eqn:E; [|reflexivity].
  apply streq_eq in E. subst. discriminate H.
Qed.

Lemma parse_expr_atom fuel t tok r s :
  rest t = tok ++ r ->
  atom_text tok = true ->
  delimited r ->
  streq tok "'" = false ->
  room 1 s ->
  parse_expr (S fuel) t s =
    Ok (Addr (obj_count s), mkTokenizer (input t) (pos t + List.length tok))
       (store_obj (if is_num tok then ObjInt (atoi tok) else ObjSymbol tok) s).
Proof.
  intros Ht Htok Hr Hq Hroom.
  apply parse_expr_token; auto using atom_text_not_open.
  eapply read_token_atom; eauto.
Qed.

(** ** Reading back what was printed *)

Lemma repr_extends s s' v : forall p,
  extends s s' -> repr s p v -> repr s' p v.
Proof.
  induction v as [| n | name | a IHa d IHd]; simpl; intros p Hext H.
  - destruct Hext as (_ & Hn & _). congruence.
  - eapply extends_lookup; eauto.
  - destruct H as [Hne H]. split; [|eapply extends_lookup; eauto].
    destruct Hext as (_ & Hn & _). congruence.
  - destruct H as (Hne & pa & pd & Hp & Ha & Hd). split.
    + destruct Hext as (_ & Hn & _). congruence.
    + exists pa, pd. split; [eapply extends_lookup; eauto|]. split; auto.
Qed.

Lemma atom_text_start tok :
  atom_text tok = true ->
  exists c r,
    tok = c :: r /\ isspace c = false /\ Ascii.eqb c ";" = false /\
    Ascii.eqb c ")" = false /\ Ascii.eqb c NUL = false.
Proof.
  unfold atom_text. intros H. apply andb_true_iff in H. destruct H as [Hc Hall].
  destruct tok as [|c r]; [discriminate|]. exists c, r.
  simpl in Hall. apply andb_true_iff in Hall. destruct Hall as [Ha _].
  apply atom_char_true in Ha. rewrite negb_true_iff in Hc. tauto.
Qed.

Lemma symbol_name_atom_text name : symbol_name name = true -> atom_text name = true.
Proof.
  unfold symbol_name. rewrite !andb_true_iff. tauto.
Qed.

(** The text of a readable value starts with a character at which
    [parse_list] goes on to read an element. *)
Lemma show_start v :
  readable v ->
  exists c r,
    show v = c :: r /\ isspace c = false /\ Ascii.eqb c ";" = false /\
    Ascii.eqb c ")" = false /\ Ascii.eqb c NUL = false.
Proof.
  destruct v as [| n | name | a d]; simpl; intros H.
  - exists "n"%char, (lit "il"). repeat split.
  - apply (atom_text_start (show_int n)).
    eapply integer_token_atom_text, show_int_integer_token.
  - apply atom_text_start, symbol_name_atom_text, H.
  - eexists "("%char, _. repeat split.
Qed.

Lemma closing_delimited term : closing term -> delimited term.
Proof. intros [->|(r & ->)]; simpl; reflexivity. Qed.

Lemma show_tail_delimited d term :
  readable_tail d -> closing term -> delimited (show_tail d ++ term).
Proof.
  destruct d; simpl; intros H Hc; try contradiction.
  - apply closing_delimited, Hc.
  - reflexivity.
Qed.

Lemma rest_after t tok r :
  rest t = tok ++ r ->
  rest (mkTokenizer (input t) (pos t + List.length tok)) = r.
Proof.
  intros H. rewrite rest_shift, H, skipn_app, Nat.sub_diag, skipn_all.
  reflexivity.
Qed.

Lemma count_store_le o s k : obj_count (store_obj o s) <= obj_count s + S k.
Proof. rewrite obj_count_store. lia. Qed.

(** An atom whose text the reader takes for a number or a name. *)
Lemma parse_expr_reads_atom tok o v :
  atom_text tok = true ->
  streq tok "'" = false ->
  (if is_num tok then ObjInt (atoi tok) else ObjSymbol tok) = o ->
  show v = tok -> size v = 1 ->
  (forall s, nil_allocated s -> repr (store_obj o s) (Addr (obj_count s)) (reread v)) ->
  parse_expr_reads v.
Proof.
  intros Htok Hq Ho Hshow Hsize Hrepr fuel t s r Ht Hr Hfuel Hroom Hnil.
  rewrite Hshow in Ht. rewrite Hsize in *.
  destruct fuel as [|fuel]; [lia|].
  exists (Addr (obj_count s)), (mkTokenizer (input t) (pos t + List.length tok)),
    (store_obj o s).
  split; [rewrite <- Ho; apply parse_expr_atom with (r := r); auto|].
  split; [eapply rest_after; eauto|].
  split; [auto|]. split; [apply extends_store|].
  split; [apply count_store_le|]. split; reflexivity.
Qed.

(** The body of [parse_list] once the white space is skipped: an element,
    the rest of the list, and the pair of the two. *)
Lemma parse_list_element a d fuel t t0 s term :
  parse_expr_reads a -> parse_list_reads d ->
  readable a -> readable_tail d ->
  skip_whitespace t = t0 ->
  rest t0 = show a ++ show_tail d ++ term ->
  closing term ->
  size a + size d + 1 < S fuel ->
  room (size a + size d + 1) s ->
  nil_allocated s ->
  exists q t' s',
    parse_list (S fuel) t s = Ok (q, t') s' /\
    rest t' = term /\
    repr s' q (SCons (reread a) (reread_tail d)) /\
    extends s s' /\
    obj_count s' <= obj_count s + (size a + size d + 1) /\
    err s' = err s ++ eof_lines term /\ out s' = out s.
Proof.
  intros PEa PLd Ha Hd Hskip Ht Hterm Hfuel Hroom Hnil.
  destruct (show_start a Ha) as (c & r0 & Hshow & Hsp & Hsemi & Hcl & Hnul).
  destruct (PEa fuel t0 s (show_tail d ++ term))
    as (qa & t1 & s1 & Hrun1 & Hrest1 & Hrepr1 & Hext1 & Hcnt1 & Herr1 & Hout1);
    auto using show_tail_delimited; try lia.
  { eapply room_le; [exact Hroom | lia]. }
  destruct (PLd fuel t1 s1 term)
    as (qd & t2 & s2 & Hrun2 & Hrest2 & Hrepr2 & Hext2 & Hcnt2 & Herr2 & Hout2);
    auto; try lia.
  { unfold room in *. lia. }
  { eapply nil_allocated_extends; eauto. }
  assert (Hroom2 : room 1 s2) by (unfold room in *; lia).
  assert (Hnil2 : nil_allocated s2) by (eauto using nil_allocated_extends).
  exists (Addr (obj_count s2)), t2, (store_obj (ObjCons qa qd) s2).
  split; [|split; [exact Hrest2|split; [|split; [|split; [|split]]]]].
  - cbn [parse_list]. rewrite Hskip, cur_rest, Ht, Hshow. cbn [hd app].
    rewrite Hcl, Hnul.
    rewrite (bind_ok _ Hrun1). cbv iota beta.
    rewrite (bind_ok _ Hrun2). cbv iota beta.
    rewrite (bind_ok _ (cons_ok _ _ _ Hroom2)). reflexivity.
  - simpl. split.
    + rewrite <- (Nat.add_0_r (obj_count s2)). apply (new_not_nil s2 0 Hnil2).
    + exists qa, qd. split; [apply lookup_store_new|].
      split.
      * apply (repr_extends s1); [|exact Hrepr1].
        eapply extends_trans; [exact Hext2 | apply extends_store].
      * apply (repr_extends s2); [apply extends_store | exact Hrepr2].
  - eapply extends_trans; [exact Hext1|].
    eapply extends_trans; [exact Hext2 | apply extends_store].
  - rewrite obj_count_store. lia.
  - simpl. congruence.
  - simpl. congruence.
Qed.

Lemma parse_reads v :
  (readable v -> parse_expr_reads v) /\ (readable_tail v -> parse_list_reads v).
Proof.
  induction v as [| n | name | a [IHa _] d [_ IHd]]; split; simpl; intros Hv.
  - (* the text nil *)
    apply (parse_expr_reads_atom (lit "nil") (ObjSymbol (lit "nil"))); auto.
    intros s Hnil. simpl. split; [|apply lookup_store_new].
    rewrite <- (Nat.add_0_r (obj_count s)). apply (new_not_nil s 0 Hnil).
  - (* the end of a list *)
    intros fuel t s term Ht Hterm Hfuel _ _. simpl in Ht.
    destruct fuel as [|fuel]; [simpl in Hfuel; lia|].
    exists (nil_obj s), t, (match term with [] => log "Unexpected EOF in list" s | _ => s end).
    cbn [parse_list].
    rewrite skip_whitespace_stay.
    2:{ rewrite Ht. destruct Hterm as [->|(r & ->)]; [exact I | split; reflexivity]. }
    rewrite cur_rest, Ht.
    destruct Hterm as [->|(r & ->)]; simpl hd.
    + change (Ascii.eqb NUL ")") with false. change (Ascii.eqb NUL NUL) with true.
      cbv iota. split; [reflexivity|]. split; [reflexivity|].
      split; [reflexivity|]. split; [apply extends_log|].
      split; [simpl; rewrite obj_count_log; lia|]. split; reflexivity.
    + change (Ascii.eqb ")" ")") with true. cbv iota.
      split; [reflexivity|]. split; [reflexivity|].
      split; [reflexivity|]. split; [apply extends_refl|].
      split; [lia|]. split; [simpl; rewrite app_nil_r|]; reflexivity.
  - (* an integer *)
    pose proof (show_int_integer_token n) as Htok.
    assert (Hnum : is_num (show_int n) = true) by (apply is_num_integer_token; eauto).
    apply (parse_expr_reads_atom (show_int n) (ObjInt n)); auto.
    + eapply integer_token_atom_text; eauto.
    + destruct (streq (show_int n) "'") eqn:E; [|reflexivity].
      apply streq_eq in E. rewrite E in Hnum. discriminate Hnum.
    + rewrite Hnum, (integer_token_atoi_int _ _ Htok Hv).
      reflexivity.
    + intros s _. apply lookup_store_new.
  - contradiction.
  - (* a symbol *)
    unfold symbol_name in Hv. apply andb_true_iff in Hv. destruct Hv as [Hv Hq].
    apply andb_true_iff in Hv. destruct Hv as [Hat Hnum].
    rewrite negb_true_iff in Hq, Hnum.
    apply (parse_expr_reads_atom name (ObjSymbol name)); auto.
    + rewrite Hnum. reflexivity.
    + intros s Hnil. simpl. split; [|apply lookup_store_new].
      rewrite <- (Nat.add_0_r (obj_count s)). apply (new_not_nil s 0 Hnil).
  - contradiction.
  - (* a list: the parenthesis, the elements, the parenthesis *)
    destruct Hv as [Ha Hd].
    intros fuel t s r Ht Hr Hfuel Hroom Hnil. simpl in Ht, Hfuel.
    destruct fuel as [|fuel]; [lia|]. destruct fuel as [|fuel]; [lia|].
    destruct (parse_list_element a d fuel (advance t) (advance t) s (")"%char :: r))
      as (q & t1 & s1 & Hrun & Hrest & Hrepr & Hext & Hcnt & Herr & Hout); auto.
    + apply skip_whitespace_stay. rewrite rest_advance, Ht. simpl tl.
      destruct (show_start a Ha) as (c & r0 & Hshow & Hsp & Hsemi & _).
      rewrite Hshow. simpl. split; assumption.
    + rewrite rest_advance, Ht. simpl. rewrite <- !app_assoc. reflexivity.
    + right. eauto.
    + lia.
    + eapply room_le; [exact Hroom | simpl; lia].
    + exists q, (advance t1), s1.
      split; [|split; [rewrite rest_advance, Hrest; reflexivity|]].
      * cbn [parse_expr]. rewrite (read_token_paren t "(" _ Ht (or_introl eq_refl)).
        change (streq [("(")%char] (lit "(")) with true. cbv iota.
        rewrite (bind_ok _ Hrun). cbv iota beta.
        rewrite (read_token_paren t1 ")" _ Hrest (or_intror eq_refl)).
        change (streq [(")")%char] (lit ")")) with true. cbv iota.
        reflexivity.
      * split; [exact Hrepr|]. split; [exact Hext|].
        split; [simpl; lia|]. simpl in Herr. rewrite app_nil_r in Herr. split; assumption.
  - (* a further element *)
    destruct Hv as [Ha Hd].
    intros fuel t s term Ht Hterm Hfuel Hroom Hnil. simpl in Ht, Hfuel.
    destruct fuel as [|fuel]; [lia|].
    destruct (parse_list_element a d fuel t (advance t) s term)
      as (q & t1 & s1 & Hrun & Hrest & Hrepr & Hext & Hcnt & Herr & Hout); auto.
    + eapply skip_whitespace_blank; [exact Ht|].
      destruct (show_start a Ha) as (c & r0 & Hshow & Hsp & Hsemi & _).
      rewrite Hshow. simpl. split; assumption.
    + rewrite rest_advance, Ht. simpl. rewrite <- app_assoc. reflexivity.
    + lia.
    + eapply room_le; [exact Hroom | simpl; lia].
    + exists q, t1, s1. split; [exact Hrun|]. split; [exact Hrest|].
      split; [exact Hrepr|]. split; [exact Hext|]. split; [simpl; lia|].
      split; assumption.
Qed.

(** ** What the printer writes *)

Lemma printf_run text s : printf text s = Ok tt (printed text s).
Proof. reflexivity. Qed.

Lemma extends_printed text s : extends s (printed text s).
Proof. split; [exists []; symmetry; apply app_nil_r | split; reflexivity]. Qed.

Lemma printed_printed a b s : printed b (printed a s) = printed (a ++ b) s.
Proof. unfold printed. simpl. rewrite app_assoc. reflexivity. Qed.

Lemma printed_nil s : printed [] s = s.
Proof. destruct s. unfold printed. simpl. rewrite app_nil_r. reflexivity. Qed.

Lemma repr_cases s p v :
  repr s p v -> nil_allocated s ->
  exists a o, p = Addr a /\ lookup s p = Some o /\
    match v with
    | SNil => o = ObjSymbol "nil" /\ p = nil_obj s
    | SInt n => o = ObjInt n /\ p <> nil_obj s
    | SSym name => o = ObjSymbol name /\ p <> nil_obj s
    | SCons x y =>
        p <> nil_obj s /\ exists pa pd, o = ObjCons pa pd /\ repr s pa x /\ repr s pd y
    end.
Proof.
  intros H Hnil. unfold nil_allocated in Hnil.
  assert (Hgen : forall o, lookup s p = Some o ->
            exists a, p = Addr a).
  { intros o Ho. destruct (lookup_valid _ _ _ Ho) as (a & -> & _). eauto. }
  destruct v as [| n | name | x y]; simpl in H.
  - subst p. destruct (Hgen _ Hnil) as (a & Ha). exists a. eexists.
    split; [exact Ha|]. split; [exact Hnil|]. split; reflexivity.
  - destruct (Hgen _ H) as (a & Ha). exists a. eexists.
    split; [exact Ha|]. split; [exact H|]. split; [reflexivity|].
    intros Heq. rewrite Heq in H. congruence.
  - destruct H as [Hne H]. destruct (Hgen _ H) as (a & Ha). exists a. eexists.
    split; [exact Ha|]. split; [exact H|]. split; [reflexivity | exact Hne].
  - destruct H as (Hne & pa & pd & Hp & Hx & Hy).
    destruct (Hgen _ Hp) as (a & Ha). exists a. eexists.
    split; [exact Ha|]. split; [exact Hp|]. split; [exact Hne|].
    exists pa, pd. auto.
Qed.

Lemma print_obj_S fuel a :
  print_obj (S fuel) (Addr a) =
    (o <- deref (Addr a) ;;
     match o with
     | ObjInt num => printf (show_int num)
     | ObjSymbol name => printf name
     | ObjCons _ _ =>
         printf "(" ;;
         x <- car (Addr a) ;;
         print_obj fuel x ;;
         d <- cdr (Addr a) ;;
         print_tail fuel d ;;
         printf ")"
     | ObjFunc _ => printf "<built-in function>"
     | ObjLambda _ _ _ => printf "<lambda>"
     end).
Proof. reflexivity. Qed.

Lemma print_tail_S fuel obj :
  print_tail (S fuel) obj =
    (stop <- is_nil obj ;;
     if stop then ret tt
     else
       o <- deref obj ;;
       match o with
       | ObjCons _ _ =>
           printf " " ;;
           a <- car obj ;;
           print_obj fuel a ;;
           d <- cdr obj ;;
           print_tail fuel d
       | _ => printf " . " ;; print_obj fuel obj
       end).
Proof. reflexivity. Qed.

(** [print_obj] writes [show v] for a value of shape [v], and the loop of
    its list case writes [show_tail v]. *)
Lemma print_obj_shows v : forall fuel s p,
  repr s p v -> nil_allocated s -> size v < fuel ->
  print_obj fuel p s = Ok tt (printed (show v) s) /\
  print_tail fuel p s = Ok tt (printed (show_tail v) s).
Proof.
  induction v as [| n | name | x IHx y IHy]; intros fuel s p Hrepr Hnil Hfuel;
    (destruct fuel as [|fuel]; [simpl in Hfuel; lia|]);
    destruct (repr_cases _ _ _ Hrepr Hnil) as (a & o & -> & Hp & Hcase);
    rewrite print_obj_S, print_tail_S.
  - destruct Hcase as [-> Hn].
    rewrite (bind_ok _ (deref_ok _ _ _ Hp)). split; [reflexivity|].
    rewrite Hn, (bind_ok _ (is_nil_nil _)). simpl.
    rewrite printed_nil. reflexivity.
  - destruct Hcase as [-> Hne].
    rewrite (bind_ok _ (deref_ok _ _ _ Hp)). split; [reflexivity|].
    rewrite (bind_ok _ (is_nil_other _ _ Hne)).
    rewrite (bind_ok _ (deref_ok _ _ _ Hp)).
    rewrite (bind_ok _ (printf_run _ _)).
    destruct fuel as [|fuel]; [simpl in Hfuel; lia|].
    rewrite print_obj_S.
    rewrite (bind_ok _ (deref_ok _ _ _ (extends_lookup _ _ _ _ (extends_printed _ s) Hp))).
    rewrite printf_run, printed_printed. reflexivity.
  - destruct Hcase as [-> Hne].
    rewrite (bind_ok _ (deref_ok _ _ _ Hp)). split; [reflexivity|].
    rewrite (bind_ok _ (is_nil_other _ _ Hne)).
    rewrite (bind_ok _ (deref_ok _ _ _ Hp)).
    rewrite (bind_ok _ (printf_run _ _)).
    destruct fuel as [|fuel]; [simpl in Hfuel; lia|].
    rewrite print_obj_S.
    rewrite (bind_ok _ (deref_ok _ _ _ (extends_lookup _ _ _ _ (extends_printed _ s) Hp))).
    rewrite printf_run, printed_printed. reflexivity.
  - destruct Hcase as (Hne & pa & pd & -> & Hx & Hy). simpl in Hfuel.
    assert (Hin : forall s0, extends s s0 ->
              car (Addr a) s0 = Ok pa s0 /\ cdr (Addr a) s0 = Ok pd s0 /\
              print_obj fuel pa s0 = Ok tt (printed (show x) s0) /\
              print_tail fuel pd s0 = Ok tt (printed (show_tail y) s0)).
    { intros s0 Hext.
      pose proof (extends_lookup _ _ _ _ Hext Hp) as Hp'.
      split; [apply (car_cons _ _ _ _ Hp')|].
      split; [apply (cdr_cons _ _ _ _ Hp')|].
      split.
      - apply IHx; [eapply repr_extends; eauto | eapply nil_allocated_extends; eauto | lia].
      - apply IHy; [eapply repr_extends; eauto | eapply nil_allocated_extends; eauto | lia]. }
    assert (Hseq : forall pre s0, extends s s0 ->
              (x0 <- car (Addr a) ;; print_obj fuel x0 ;;
               d <- cdr (Addr a) ;; print_tail fuel d) (printed pre s0) =
              Ok tt (printed (pre ++ show x ++ show_tail y) s0)).
    { intros pre s0 Hext.
      destruct (Hin (printed pre s0)) as (Hcar & _ & Hpx & _);
        [eapply extends_trans; [exact Hext | apply extends_printed]|].
      rewrite (bind_ok _ Hcar), (bind_ok _ Hpx), printed_printed.
      destruct (Hin (printed (pre ++ show x) s0)) as (_ & Hcdr & _ & Hpy);
        [eapply extends_trans; [exact Hext | apply extends_printed]|].
      rewrite (bind_ok _ Hcdr), Hpy, printed_printed, <- app_assoc.
      reflexivity. }
    rewrite (bind_ok _ (deref_ok _ _ _ Hp)). split.
    + rewrite (bind_ok _ (printf_run _ _)).
      pose proof (Hseq (lit "(") s (extends_refl s)) as Hs.
      transitivity (((x0 <- car (Addr a) ;; print_obj fuel x0 ;;
                      d <- cdr (Addr a) ;; print_tail fuel d) ;; printf (lit ")"))
                      (printed (lit "(") s)).
      { rewrite !bind_assoc. apply bind_congr. intros x1 s1 _.
        rewrite !bind_assoc. apply bind_congr. intros x2 s2 _.
        rewrite !bind_assoc. reflexivity. }
      rewrite (bind_ok _ Hs), printf_run, printed_printed.
      simpl show. rewrite <- !app_assoc. reflexivity.
    + rewrite (bind_ok _ (is_nil_other _ _ Hne)).
      rewrite (bind_ok _ (deref_ok _ _ _ Hp)).
      rewrite (bind_ok _ (printf_run _ _)).
      rewrite (Hseq (lit " ") s (extends_refl s)). reflexivity.
Qed.

Lemma reread_struct_eq v : forall s s' p q,
  nil_allocated s -> nil_allocated s' ->
  (repr s p v -> repr s' q (reread v) -> struct_eq s s' p q) /\
  (repr s p v -> repr s' q (reread_tail v) -> struct_eq s s' p q).
Proof.
  induction v as [| n | name | a IHa d IHd]; intros s s' p q Hnil Hnil';
    split; simpl; intros Hp Hq.
  - subst p. destruct Hq as [_ Hq]. eapply struct_eq_symbol; eauto.
  - subst p q. eapply struct_eq_symbol; eauto.
  - eapply struct_eq_int; eauto.
  - eapply struct_eq_int; eauto.
  - destruct Hp as [_ Hp], Hq as [_ Hq]. eapply struct_eq_symbol; eauto.
  - destruct Hp as [_ Hp], Hq as [_ Hq]. eapply struct_eq_symbol; eauto.
  - destruct Hp as (_ & pa & pd & Hp & Ha & Hd).
    destruct Hq as (_ & qa & qd & Hq & Ha' & Hd').
    eapply struct_eq_cons; eauto.
    + apply (proj1 (IHa s s' pa qa Hnil Hnil')); assumption.
    + apply (proj2 (IHd s s' pd qd Hnil Hnil')); assumption.
  - destruct Hp as (_ & pa & pd & Hp & Ha & Hd).
    destruct Hq as (_ & qa & qd & Hq & Ha' & Hd').
    eapply struct_eq_cons; eauto.
    + apply (proj1 (IHa s s' pa qa Hnil Hnil')); assumption.
    + apply (proj2 (IHd s s' pd qd Hnil Hnil')); assumption.
Qed.

(** C6, as the code has it.  Take a value built from Integers, Symbols
    whose names the reader reads as symbols, and proper lists (a quoted
    form is the list of the symbol [quote] and the form).  [print_obj]
    writes its text [show v]; [parse_expr] on that text reads all of it,
    writes no diagnostic, and returns a value structurally equal to the
    printed one.  By [reader_symbol_names] every Symbol the reader makes
    from an atom has such a name. *)
Theorem print_parse_roundtrip fuel s p v :
  repr s p v ->
  readable v ->
  nil_allocated s ->
  size v < fuel ->
  room (size v) s ->
  exists q t' s',
    print_obj fuel p s = Ok tt (printed (show v) s) /\
    parse_expr fuel (mkTokenizer (show v) 0) (printed (show v) s) = Ok (q, t') s' /\
    struct_eq s s' p q /\
    rest t' = [] /\
    err s' = err s.
Proof.
  intros Hrepr Hread Hnil Hfuel Hroom.
  destruct (print_obj_shows v fuel s p Hrepr Hnil Hfuel) as [Hprint _].
  destruct (proj1 (parse_reads v) Hread fuel (mkTokenizer (show v) 0)
              (printed (show v) s) [])
    as (q & t' & s' & Hrun & Hrest & Hq & Hext & _ & Herr & _).
  - unfold rest. simpl. rewrite app_nil_r. reflexivity.
  - exact I.
  - exact Hfuel.
  - exact Hroom.
  - exact Hnil.
  - exists q, t', s'. split; [exact Hprint|]. split; [exact Hrun|].
    split; [|split; [exact Hrest | exact Herr]].
    assert (Hnil' : nil_allocated s').
    { eapply nil_allocated_extends; [|exact Hnil].
      eapply extends_trans; [apply extends_printed | exact Hext]. }
    apply (proj1 (reread_struct_eq v s s' p q Hnil Hnil')); assumption.
Qed.

Lemma print_parse_roundtrip_witness :
  exists q t' s',
    print_obj 8 (Addr 5) heap_two_a = Ok tt (printed (show list_a_a) heap_two_a) /\
    parse_expr 8 (mkTokenizer (show list_a_a) 0) (printed (show list_a_a) heap_two_a)
      = Ok (q, t') s' /\
    struct_eq heap_two_a s' (Addr 5) q /\
    rest t' = [] /\
    err s' = err heap_two_a.
Proof.
  apply (print_parse_roundtrip 8 heap_two_a (Addr 5) list_a_a).
  - simpl. split; [discriminate|]. do 2 eexists. split; [reflexivity|].
    split; [split; [discriminate | reflexivity]|].
    split; [discriminate|]. do 2 eexists. split; [reflexivity|].
    split; [split; [discriminate | reflexivity] | reflexivity].
  - simpl. vm_compute. auto.
  - reflexivity.
  - simpl. lia.
  - unfold room. vm_compute. lia.
Defined.

(** C6 fails as stated for a Symbol whose name is not read back as that
    Symbol.  The reader makes one from a closing parenthesis that follows a
    quote mark: [(cons ') nil)] evaluates to the one-element list of the
    Symbol named [)], which is printed as [())] and read back as nil. *)
Lemma close_paren_symbol_not_reread :
  exists v s1 q t' s2,
    session 30 [lit "(cons ') nil)"] = Ok v s1 /\
    repr s1 v (SCons (SSym (lit ")")) SNil) /\
    out s1 = lit "())" ++ [newline] /\
    parse_expr 30 (mkTokenizer (lit "())") 0) s1 = Ok (q, t') s2 /\
    q = nil_obj s2 /\
    ~ struct_eq s1 s2 v q.
Proof.
  do 5 eexists. split; [vm_compute; reflexivity|].
  split.
  { simpl. split; [discriminate|]. do 2 eexists. split; [reflexivity|].
    split; [split; [discriminate | reflexivity] | reflexivity]. }
  split; [reflexivity|].
  split; [vm_compute; reflexivity|].
  split; [reflexivity|].
  intros H. inversion H;
    match goal with
    | Hp : lookup _ (Addr 53) = Some (ObjInt _) |- _ => discriminate Hp
    | Hp : lookup _ (Addr 53) = Some (ObjSymbol _) |- _ => discriminate Hp
    | Hq : lookup _ (Addr 0) = Some (ObjCons _ _) |- _ => discriminate Hq
    end.
Qed.

(** ** Fuel

    More fuel never changes what a run does: a run that does not end in
    [Timeout] is the same with any larger amount. *)

Lemma refines_refl {A} (m : M A) : refines m m.
Proof. intros s. right. reflexivity. Qed.

Lemma refines_timeout {A} (m : M A) : refines timeout m.
Proof. intros s. left. reflexivity. Qed.

Lemma refines_bind {A B} (m m' : M A) (k k' : A -> M B) :
  refines m m' -> (forall a, refines (k a) (k' a)) ->
  refines (bind m k) (bind m' k').
Proof.
  intros Hm Hk s. unfold bind. destruct (Hm s) as [E|E].
  - left. rewrite E. reflexivity.
  - rewrite E. destruct (m s) as [a s1| | |]; auto. apply Hk.
Qed.

Ltac refines_tac :=
  repeat first
    [ match goal with
      | |- refines ?x ?x => apply refines_refl
      | |- refines timeout _ => apply refines_timeout
      end
    | solve [auto]
    | match goal with
      | |- refines (bind _ _) (bind _ _) => apply refines_bind; [| intros ?]
      | |- refines (if ?b then _ else _) _ => destruct b
      | |- refines (match ?x with _ => _ end) _ => destruct x
      end ].

Ltac fuel_induction n :=
  induction n as [|n IH]; intros n' Hle;
  [ intros; apply refines_timeout
  | destruct n' as [|n']; [lia|]; apply le_S_n in Hle ].

Lemma env_lookup_fuel n : forall n', n <= n' ->
  forall env name, refines (env_lookup n env name) (env_lookup n' env name).
Proof. fuel_induction n. intros; simpl; refines_tac. Qed.

Lemma print_obj_fuel n : forall n', n <= n' ->
  (forall p, refines (print_obj n p) (print_obj n' p)) /\
  (forall p, refines (print_tail n p) (print_tail n' p)).
Proof.
  induction n as [|n IH]; intros n' Hle.
  - split; intros; apply refines_timeout.
  - destruct n' as [|n']; [lia|]. apply le_S_n in Hle.
    destruct (IH n' Hle) as [IH1 IH2].
    split; intros; simpl; refines_tac.
Qed.

Lemma bind_params_fuel n : forall n', n <= n' ->
  forall e ps vs, refines (bind_params n e ps vs) (bind_params n' e ps vs).
Proof. fuel_induction n. intros; simpl; refines_tac. Qed.

Lemma add_loop_fuel n : forall n', n <= n' ->
  forall acc args, refines (add_loop n acc args) (add_loop n' acc args).
Proof. fuel_induction n. intros; simpl; refines_tac. Qed.

Lemma sub_loop_fuel n : forall n', n <= n' ->
  forall acc args, refines (sub_loop n acc args) (sub_loop n' acc args).
Proof. fuel_induction n. intros; simpl; refines_tac. Qed.

Lemma mul_loop_fuel n : forall n', n <= n' ->
  forall acc args, refines (mul_loop n acc args) (mul_loop n' acc args).
Proof. fuel_induction n. intros; simpl; refines_tac. Qed.

Lemma div_loop_fuel n : forall n', n <= n' ->
  forall acc args, refines (div_loop n acc args) (div_loop n' acc args).
Proof. fuel_induction n. intros; simpl; refines_tac. Qed.

Lemma builtin_print_fuel n : forall n', n <= n' ->
  forall args env, refines (builtin_print n args env) (builtin_print n' args env).
Proof.
  induction n as [|n IH]; intros n' Hle; [intros; apply refines_timeout|].
  destruct n' as [|n']; [lia|]. apply le_S_n in Hle.
  pose proof (proj1 (print_obj_fuel n n' Hle)) as Hp.
  intros; simpl; refines_tac.
Qed.

Lemma call_builtin_fuel f n n' args env :
  n <= n' -> refines (call_builtin f n args env) (call_builtin f n' args env).
Proof.
  intros Hle.
  pose proof (add_loop_fuel n n' Hle) as Ha.
  pose proof (sub_loop_fuel n n' Hle) as Hs.
  pose proof (mul_loop_fuel n n' Hle) as Hm.
  pose proof (div_loop_fuel n n' Hle) as Hd.
  pose proof (builtin_print_fuel n n' Hle) as Hp.
  destruct f; simpl;
    unfold builtin_add, builtin_sub, builtin_mul, builtin_div; refines_tac.
Qed.

Lemma eval_fuel n : forall n', n <= n' ->
  (forall expr env, refines (eval n expr env) (eval n' expr env)) /\
  (forall l env, refines (eval_list n l env) (eval_list n' l env)).
Proof.
  induction n as [|n IH]; intros n' Hle.
  - split; intros; apply refines_timeout.
  - destruct n' as [|n']; [lia|]. apply le_S_n in Hle.
    destruct (IH n' Hle) as [IH1 IH2].
    pose proof (env_lookup_fuel n n' Hle) as Hl.
    pose proof (bind_params_fuel n n' Hle) as Hb.
    pose proof (fun f a e => call_builtin_fuel f n n' a e Hle) as Hc.
    split; intros; simpl; cbv zeta; refines_tac.
Qed.

Lemma parse_fuel n : forall n', n <= n' ->
  (forall t, refines (parse_expr n t) (parse_expr n' t)) /\
  (forall t, refines (parse_list n t) (parse_list n' t)).
Proof.
  induction n as [|n IH]; intros n' Hle.
  - split; intros; apply refines_timeout.
  - destruct n' as [|n']; [lia|]. apply le_S_n in Hle.
    destruct (IH n' Hle) as [IH1 IH2].
    split; intros; simpl; refines_tac.
Qed.

(** A value obtained with some fuel is obtained with any more. *)
Lemma eval_more_fuel n n' expr env s v s' :
  eval n expr env s = Ok v s' -> n <= n' -> eval n' expr env s = Ok v s'.
Proof.
  intros H Hle. destruct (proj1 (eval_fuel n n' Hle) expr env s) as [E|E];
    congruence.
Qed.

Lemma parse_expr_more_fuel n n' t s r s' :
  parse_expr n t s = Ok r s' -> n <= n' -> parse_expr n' t s = Ok r s'.
Proof.
  intros H Hle. destruct (proj1 (parse_fuel n n' Hle) t s) as [E|E]; congruence.
Qed.

(** ** The end of the text inside a list *)

Lemma read_token_at_end t : cur t = NUL -> read_token t = (None, t).
Proof.
  intros H. unfold read_token.
  assert (Hs : skip_whitespace t = t).
  { apply skip_whitespace_stay. rewrite cur_rest in H.
    destruct (rest t) as [|c r]; [exact I|]. simpl in H. subst c.
    split; reflexivity. }
  rewrite Hs, H. reflexivity.
Qed.

Lemma reads_elements_end n t s ps t' s' :
  reads_elements n t s ps t' s' -> cur t' = NUL.
Proof. induction 1; assumption. Qed.

Lemma parse_list_at_end fuel t s :
  cur (skip_whitespace t) = NUL ->
  parse_list (S fuel) t s =
    Ok (nil_obj s, skip_whitespace t) (log "Unexpected EOF in list" s).
Proof.
  intros H. cbn [parse_list]. rewrite H.
  change (Ascii.eqb NUL ")") with false.
  change (Ascii.eqb NUL NUL) with true. reflexivity.
Qed.

(** [parse_list] on elements after which the text ends. *)
Lemma parse_list_unclosed n t s ps t2 s2 :
  reads_elements n t s ps t2 s2 ->
  forall fuel,
    nil_allocated s ->
    n + List.length ps < fuel ->
    room (List.length ps) s2 ->
    exists q s',
      parse_list fuel t s = Ok (q, t2) s' /\
      is_list s' q ps /\
      extends s2 s' /\
      obj_count s' = obj_count s2 + List.length ps /\
      err s' = err s2 ++ [lit "Unexpected EOF in list"] /\
      out s' = out s2 /\
      (q = nil_obj s' <-> ps = []).
Proof.
  induction 1 as [t s Hend | t s p t1 s1 ps t2 s2 Hclose Hnul Hp Hrest IH];
    intros fuel Hnil Hfuel Hroom;
    (destruct fuel as [|fuel]; [lia|]).
  - exists (nil_obj s), (log "Unexpected EOF in list" s).
    split; [apply parse_list_at_end, Hend|].
    split; [reflexivity|]. split; [apply extends_log|].
    split; [rewrite obj_count_log; simpl; lia|].
    split; [reflexivity|]. split; [reflexivity|]. tauto.
  - simpl in Hfuel, Hroom.
    pose proof (proj1 (stable_parse_both n) _ _ _ _ Hp) as E1.
    destruct (IH fuel (nil_allocated_extends _ _ E1 Hnil) ltac:(lia)
                ltac:(apply (room_le (S (List.length ps)));
                      [exact Hroom | lia]))
      as (q & s' & Hrun & Hq & Hext & Hcount & Herr & Hout & _).
    assert (Hr1 : room 1 s') by (unfold room in *; lia).
    exists (Addr (obj_count s')), (store_obj (ObjCons p q) s').
    split; [|split; [|split; [|split; [|split; [|split]]]]].
    + cbn [parse_list].
      apply Ascii.eqb_neq in Hclose, Hnul. rewrite Hclose, Hnul.
      rewrite (bind_ok _ (parse_expr_more_fuel _ fuel _ _ _ _ Hp
                            ltac:(lia))).
      cbv beta iota. rewrite (bind_ok _ Hrun). cbv beta iota.
      rewrite (bind_ok _ (cons_ok _ _ _ Hr1)). reflexivity.
    + simpl. split.
      * replace (obj_count s') with (obj_count s' + 0) by lia.
        apply new_not_nil.
        apply (nil_allocated_extends s1);
          [| apply (nil_allocated_extends _ _ E1 Hnil)].
        eapply extends_trans; [|exact Hext].
        clear - Hrest. induction Hrest as [| ? ? ? ? ? ? ? ? _ _ Hp' _ IH'].
        -- apply extends_refl.
        -- eapply extends_trans; [|exact IH'].
           apply (proj1 (stable_parse_both n) _ _ _ _ Hp').
      * exists q. split; [apply lookup_store_new|].
        eapply extends_is_list; [apply extends_store | exact Hq].
    + eapply extends_trans; [exact Hext | apply extends_store].
    + rewrite obj_count_store, Hcount. simpl. lia.
    + simpl. exact Herr.
    + simpl. exact Hout.
    + split; [|discriminate]. intros Heq. exfalso.
      assert (Hne : Addr (obj_count s') <> nil_obj (store_obj (ObjCons p q) s')).
      { simpl.
        replace (obj_count s') with (obj_count s' + 0) by lia.
        apply new_not_nil.
        apply (nil_allocated_extends s1);
          [| apply (nil_allocated_extends _ _ E1 Hnil)].
        eapply extends_trans; [|exact Hext].
        clear - Hrest. induction Hrest as [| ? ? ? ? ? ? ? ? _ _ Hp' _ IH'].
        -- apply extends_refl.
        -- eapply extends_trans; [|exact IH'].
           apply (proj1 (stable_parse_both n) _ _ _ _ Hp'). }
      apply Hne, Heq.
Qed.

(** C3, as the code has it.  The [parse_list] call that meets the end of
    the text, after any white space and comments, writes the one line
    [Unexpected EOF in list] and returns nil, as the tail of the list.
    The [parse_expr] that opened the list then finds no closing
    parenthesis and writes [Expected ')'] as well, and it returns the list
    of the elements read before the end: nil only when there is none.
    The elements are whatever expressions [parse_expr] reads there, with
    any white space, newlines and comments around them; the two lines come
    after whatever the reading of the elements wrote. *)
Theorem parse_unclosed_list fuel n s t t1 ps t2 s2 :
  read_token t = (Some (lit "("), t1) ->
  reads_elements n t1 s ps t2 s2 ->
  nil_allocated s ->
  n + List.length ps < fuel ->
  room (List.length ps) s2 ->
  (forall t0, cur (skip_whitespace t0) = NUL ->
     parse_list fuel t0 s =
       Ok (nil_obj s, skip_whitespace t0) (log "Unexpected EOF in list" s)) /\
  exists q s',
    parse_expr (S fuel) t s = Ok (q, t2) s' /\
    is_list s' q ps /\
    extends s2 s' /\
    err s' = err s2 ++ [lit "Unexpected EOF in list"; lit "Expected ')'"] /\
    out s' = out s2 /\
    (q = nil_obj s' <-> ps = []).
Proof.
  intros Htok Hread Hnil Hfuel Hroom. split.
  - intros t0 H0. destruct fuel as [|fuel]; [lia|].
    apply parse_list_at_end, H0.
  - destruct (parse_list_unclosed _ _ _ _ _ _ Hread fuel Hnil Hfuel Hroom)
      as (q & s1 & Hrun & Hq & Hext & _ & Herr & Hout & Hiff).
    exists q, (log "Expected ')'" s1).
    split; [|split; [|split; [|split; [|split]]]].
    + cbn [parse_expr]. rewrite Htok.
      change (streq (lit "(") (lit "(")) with true. cbv iota.
      rewrite (bind_ok _ Hrun). cbv beta iota.
      rewrite (read_token_at_end _ (reads_elements_end _ _ _ _ _ _ Hread)).
      reflexivity.
    + eapply extends_is_list; [apply extends_log | exact Hq].
    + eapply extends_trans; [exact Hext | apply extends_log].
    + simpl. rewrite Herr, <- app_assoc. reflexivity.
    + simpl. exact Hout.
    + exact Hiff.
Qed.

Lemma parse_unclosed_list_witness :
  (forall t0, cur (skip_whitespace t0) = NUL ->
     parse_list 3 t0 heap_two_a =
       Ok (nil_obj heap_two_a, skip_whitespace t0)
          (log "Unexpected EOF in list" heap_two_a)) /\
  exists q s',
    parse_expr 4 (mkTokenizer (lit "(a" ++ [newline]) 0) heap_two_a =
      Ok (q, mkTokenizer (lit "(a" ++ [newline]) 3) s' /\
    is_list s' q [Addr 7] /\
    extends (store_obj (ObjSymbol "a") heap_two_a) s' /\
    err s' = err (store_obj (ObjSymbol "a") heap_two_a) ++
             [lit "Unexpected EOF in list"; lit "Expected ')'"] /\
    out s' = out (store_obj (ObjSymbol "a") heap_two_a) /\
    (q = nil_obj s' <-> [Addr 7] = []).
Proof.
  apply (parse_unclosed_list 3 1 heap_two_a
           (mkTokenizer (lit "(a" ++ [newline]) 0)
           (mkTokenizer (lit "(a" ++ [newline]) 1) [Addr 7]
           (mkTokenizer (lit "(a" ++ [newline]) 3)
           (store_obj (ObjSymbol "a") heap_two_a)).
  - vm_compute. reflexivity.
  - apply (reads_one 1 _ _ (Addr 7) (mkTokenizer (lit "(a" ++ [newline]) 2)
             (store_obj (ObjSymbol "a") heap_two_a)).
    + vm_compute. discriminate.
    + vm_compute. discriminate.
    + vm_compute. reflexivity.
    + apply (reads_end 1 (mkTokenizer (lit "(a" ++ [newline]) 2)).
      vm_compute. reflexivity.
  - reflexivity.
  - simpl. lia.
  - unfold room. vm_compute. lia.
Defined.

(** C3 fails as stated: on the text [(a], whose end comes inside the
    list, the parse writes two diagnostic lines and returns the list [(a)],
    not nil. *)
Lemma unclosed_list_two_lines :
  exists q t' s' a,
    parse_expr 3 (mkTokenizer (lit "(a") 0) heap_two_a = Ok (q, t') s' /\
    err s' = [lit "Unexpected EOF in list"; lit "Expected ')'"] /\
    lookup s' q = Some (ObjCons a (nil_obj s')) /\
    q <> nil_obj s'.
Proof.
  do 4 eexists. split; [vm_compute; reflexivity|].
  split; [reflexivity|]. split; [reflexivity | discriminate].
Qed.

(** * Further properties of the code *)

(** ** The object table *)

Lemma keeps_ret {A} (a : A) : keeps_table (ret a).
Proof. intros s a' s' Hw H. inversion H. subst. exact Hw. Qed.

Lemma keeps_gets {A} (f : State -> A) : keeps_table (gets f).
Proof. intros s a' s' Hw H. inversion H. subst. exact Hw. Qed.

Lemma keeps_fault {A} : keeps_table (@fault A).
Proof. intros s a' s' Hw H. discriminate. Qed.

Lemma keeps_timeout {A} : keeps_table (@timeout A).
Proof. intros s a' s' Hw H. discriminate. Qed.

Lemma keeps_exit {A} c : keeps_table (@exit A c).
Proof. intros s a' s' Hw H. discriminate. Qed.

Lemma keeps_fprintf_stderr line : keeps_table (fprintf_stderr line).
Proof. intros s a' s' Hw H. inversion H. exact Hw. Qed.

Lemma keeps_printf text : keeps_table (printf text).
Proof. intros s a' s' Hw H. inversion H. exact Hw. Qed.

Lemma keeps_set_global_env e : keeps_table (set_global_env e).
Proof. intros s a' s' Hw H. inversion H. exact Hw. Qed.

Lemma keeps_set_nil_obj p : keeps_table (set_nil_obj p).
Proof. intros s a' s' Hw H. inversion H. exact Hw. Qed.

Lemma keeps_set_t_obj p : keeps_table (set_t_obj p).
Proof. intros s a' s' Hw H. inversion H. exact Hw. Qed.

Lemma keeps_deref p : keeps_table (deref p).
Proof.
  intros s a' s' Hw H. unfold deref in H.
  destruct (lookup s p); inversion H. subst. exact Hw.
Qed.

Lemma keeps_bind {A B} (m : M A) (f : A -> M B) :
  keeps_table m -> (forall a, keeps_table (f a)) -> keeps_table (bind m f).
Proof.
  intros Hm Hf s b s' Hw H. unfold bind in H.
  destruct (m s) as [a s1| | |] eqn:E; try discriminate.
  eapply Hf; [eapply Hm; eauto | eauto].
Qed.

(** [alloc_obj] stores only below [MAX_OBJS]. *)
Lemma keeps_alloc_obj o : keeps_table (alloc_obj o).
Proof.
  intros s a' s' Hw H. unfold alloc_obj, bind, gets in H.
  destruct (Nat.leb_spec MAX_OBJS (obj_count s)) as [Hfull|Hroom];
    simpl in H; inversion H.
  unfold within_table. rewrite obj_count_store. lia.
Qed.

Create HintDb keeps.

#[local] Hint Resolve keeps_ret keeps_gets keeps_fault keeps_timeout
  keeps_exit keeps_fprintf_stderr keeps_printf keeps_set_global_env
  keeps_set_nil_obj keeps_set_t_obj keeps_deref keeps_alloc_obj : keeps.

Ltac keeps_tac :=
  repeat first
    [ solve [auto with keeps]
    | match goal with
      | |- keeps_table (bind _ _) => apply keeps_bind; [| intros ?]
      | |- keeps_table (if ?b then _ else _) => destruct b
      | |- keeps_table (match ?x with _ => _ end) => destruct x
      end ].

Lemma keeps_is_nil p : keeps_table (is_nil p).
Proof. unfold is_nil. keeps_tac. Qed.

Lemma keeps_car p : keeps_table (car p).
Proof. unfold car. keeps_tac. Qed.

Lemma keeps_cdr p : keeps_table (cdr p).
Proof. unfold cdr. keeps_tac. Qed.

Lemma keeps_sym_of p : keeps_table (sym_of p).
Proof. unfold sym_of. keeps_tac. Qed.

Lemma keeps_make_int n : keeps_table (make_int n).
Proof. apply keeps_alloc_obj. Qed.

Lemma keeps_make_symbol n : keeps_table (make_symbol n).
Proof. apply keeps_alloc_obj. Qed.

Lemma keeps_cons a d : keeps_table (cons a d).
Proof. apply keeps_alloc_obj. Qed.

Lemma keeps_make_func f : keeps_table (make_func f).
Proof. apply keeps_alloc_obj. Qed.

Lemma keeps_make_lambda a b c : keeps_table (make_lambda a b c).
Proof. apply keeps_alloc_obj. Qed.

#[local] Hint Resolve keeps_is_nil keeps_car keeps_cdr keeps_sym_of
  keeps_make_int keeps_make_symbol keeps_cons keeps_make_func
  keeps_make_lambda : keeps.

Lemma keeps_env_define env name v : keeps_table (env_define env name v).
Proof. unfold env_define. keeps_tac. Qed.

#[local] Hint Resolve keeps_env_define : keeps.

Lemma keeps_env_lookup fuel : forall env name, keeps_table (env_lookup fuel env name).
Proof. induction fuel; intros; simpl; keeps_tac. Qed.

Lemma keeps_print_obj fuel :
  (forall p, keeps_table (print_obj fuel p)) /\
  (forall p, keeps_table (print_tail fuel p)).
Proof.
  induction fuel as [|fuel [IH1 IH2]]; split; intros; simpl; keeps_tac.
Qed.

Lemma keeps_bind_params fuel : forall e ps vs, keeps_table (bind_params fuel e ps vs).
Proof. induction fuel; intros; simpl; keeps_tac. Qed.

Lemma keeps_add_loop fuel : forall acc args, keeps_table (add_loop fuel acc args).
Proof. induction fuel; intros; simpl; keeps_tac. Qed.

Lemma keeps_sub_loop fuel : forall acc args, keeps_table (sub_loop fuel acc args).
Proof. induction fuel; intros; simpl; keeps_tac. Qed.

Lemma keeps_mul_loop fuel : forall acc args, keeps_table (mul_loop fuel acc args).
Proof. induction fuel; intros; simpl; keeps_tac. Qed.

Lemma keeps_div_loop fuel : forall acc args, keeps_table (div_loop fuel acc args).
Proof. induction fuel; intros; simpl; keeps_tac. Qed.

Lemma keeps_builtin_print fuel : forall args env, keeps_table (builtin_print fuel args env).
Proof.
  pose proof (fun f => proj1 (keeps_print_obj f)) as Hp.
  induction fuel; intros; simpl; keeps_tac.
Qed.

#[local] Hint Resolve keeps_env_lookup keeps_bind_params keeps_add_loop
  keeps_sub_loop keeps_mul_loop keeps_div_loop keeps_builtin_print : keeps.

Lemma keeps_call_builtin f fuel args env : keeps_table (call_builtin f fuel args env).
Proof.
  destruct f; simpl;
    unfold builtin_car, builtin_cdr, builtin_cons, builtin_add, builtin_sub,
      builtin_mul, builtin_div, builtin_eq, builtin_lt;
    keeps_tac.
Qed.

#[local] Hint Resolve keeps_call_builtin : keeps.

Lemma keeps_eval_both fuel :
  (forall expr env, keeps_table (eval fuel expr env)) /\
  (forall l env, keeps_table (eval_list fuel l env)).
Proof.
  induction fuel as [|fuel [IH1 IH2]]; split; intros; simpl; cbv zeta; keeps_tac.
Qed.

Lemma keeps_parse_both fuel :
  (forall t, keeps_table (parse_expr fuel t)) /\
  (forall t, keeps_table (parse_list fuel t)).
Proof.
  induction fuel as [|fuel [IH1 IH2]]; split; intros; simpl; keeps_tac.
Qed.

Lemma keeps_init_env : keeps_table init_env.
Proof. unfold init_env. keeps_tac. Qed.

Lemma keeps_repl_init : keeps_table repl_init.
Proof. pose proof keeps_init_env. unfold repl_init. keeps_tac. Qed.

Lemma keeps_repl_step fuel text : keeps_table (repl_step fuel text).
Proof.
  pose proof (proj1 (keeps_parse_both fuel)) as Hp.
  pose proof (proj1 (keeps_eval_both fuel)) as He.
  pose proof (proj1 (keeps_print_obj fuel)) as Hpr.
  unfold repl_step. keeps_tac.
Qed.

(** X1.  [obj_count] never passes [MAX_OBJS]: whatever a parse, an
    evaluation or a whole read-eval-print step allocates, the count stays
    within the table when the step returns; and once the table is full the
    next allocation writes [Out of memory] and ends the process with
    status 1, storing nothing. *)
Theorem object_table_never_overflows fuel s :
  within_table s ->
  (forall t r s', parse_expr fuel t s = Ok r s' -> within_table s') /\
  (forall expr env v s', eval fuel expr env s = Ok v s' -> within_table s') /\
  (forall text v s', repl_step fuel text s = Ok v s' -> within_table s') /\
  (forall o, obj_count s = MAX_OBJS ->
     alloc_obj o s = Exit 1 (log "Out of memory" s)).
Proof.
  intros Hw. split; [|split; [|split]].
  - intros t r s' H. eapply (proj1 (keeps_parse_both fuel)); eauto.
  - intros expr env v s' H. eapply (proj1 (keeps_eval_both fuel)); eauto.
  - intros text v s' H. eapply keeps_repl_step; eauto.
  - intros o Hfull. apply alloc_obj_full. lia.
Qed.

Lemma object_table_never_overflows_witness :
  (forall t r s', parse_expr 3 t full_table = Ok r s' -> within_table s') /\
  (forall expr env v s', eval 3 expr env full_table = Ok v s' -> within_table s') /\
  (forall text v s', repl_step 3 text full_table = Ok v s' -> within_table s') /\
  (forall o, obj_count full_table = MAX_OBJS ->
     alloc_obj o full_table = Exit 1 (log "Out of memory" full_table)).
Proof.
  apply (object_table_never_overflows 3 full_table).
  unfold within_table. apply Nat.leb_le. vm_compute. reflexivity.
Defined.

(** ** Environments *)

Lemma env_lookup_nil fuel name s :
  env_lookup (S fuel) (nil_obj s) name s = Ok NULL s.
Proof. simpl. rewrite (bind_ok _ (is_nil_nil s)). reflexivity. Qed.

(** Lookup in an environment that ends in nil: the first binding of the
    name, or NULL. *)
Lemma env_lookup_assoc s bs name : forall e fuel,
  env_chain s e bs (nil_obj s) ->
  List.length bs < fuel ->
  env_lookup fuel e name s =
    match assoc name bs with
    | Some v => Ok v s
    | None => Ok NULL s
    end.
Proof.
  intros e fuel Hc Hfuel.
  replace fuel with (List.length bs + S (fuel - List.length bs - 1)) by lia.
  rewrite (env_lookup_chain _ _ _ name _ _ Hc).
  rewrite env_lookup_nil. reflexivity.
Qed.

(** X2.  [env_define] then [env_lookup]: the name just defined is found
    with the value just given, in front of any older binding of it; every
    other name is looked up as before in the old environment; and the old
    environment's objects are untouched. *)
Theorem env_define_then_lookup fuel env name value s :
  nil_allocated s ->
  room 3 s ->
  exists e' s',
    env_define env name value s = Ok e' s' /\
    env_lookup (S fuel) e' name s' = Ok value s' /\
    (forall other, streq name other = false ->
       env_lookup (S fuel) e' other s' = env_lookup fuel env other s') /\
    (forall p o, lookup s p = Some o -> lookup s' p = Some o).
Proof.
  intros Hnil Hroom.
  exists (Addr (obj_count s + 2)), (bound env name value s).
  pose proof (env_chain_bound env name value s Hnil) as Hc.
  split; [apply env_define_ok, Hroom|]. split; [|split].
  - pose proof (env_lookup_chain _ _ _ name _ fuel Hc) as H.
    simpl in H. rewrite streq_refl in H. exact H.
  - intros other Hne.
    pose proof (env_lookup_chain _ _ _ other _ fuel Hc) as H.
    simpl in H. rewrite Hne in H. exact H.
  - intros p o Hp. eapply extends_lookup; [apply extends_bound | exact Hp].
Qed.

Lemma env_define_then_lookup_witness :
  exists e' s',
    env_define (Addr 17) (lit "y") (Addr 9) heap_envs = Ok e' s' /\
    env_lookup 4 e' (lit "y") s' = Ok (Addr 9) s' /\
    (forall other, streq (lit "y") other = false ->
       env_lookup 4 e' other s' = env_lookup 3 (Addr 17) other s') /\
    (forall p o, lookup heap_envs p = Some o -> lookup s' p = Some o).
Proof.
  apply (env_define_then_lookup 3 (Addr 17) (lit "y") (Addr 9) heap_envs).
  - reflexivity.
  - unfold room. apply Nat.leb_le. vm_compute. reflexivity.
Defined.

(** X3.  A Symbol other than [nil] and [t] is looked up in the local
    environment first, and in the global one when the local one has no
    binding for it or binds it to NULL; so a local binding to an object
    hides a global one of the same name.  A name that neither environment
    binds to an object writes [Undefined symbol: name] and gives the nil
    object.  A Symbol named [nil] or [t] gives the nil or t object whatever
    the environments bind. *)
Theorem eval_symbol_lookup_order fuel env g s expr name bs gs :
  lookup s expr = Some (ObjSymbol name) ->
  global_env_ptr s = Some g ->
  env_chain s env bs (nil_obj s) ->
  env_chain s g gs (nil_obj s) ->
  List.length bs < fuel ->
  List.length gs < fuel ->
  eval (S fuel) expr env s =
    if streq name "nil" then Ok (nil_obj s) s
    else if streq name "t" then Ok (t_obj s) s
    else
      match assoc name bs with
      | Some (Addr v) => Ok (Addr v) s
      | _ =>
          match assoc name gs with
          | Some (Addr v) => Ok (Addr v) s
          | _ => Ok (nil_obj s) (log (lit "Undefined symbol: " ++ name) s)
          end
      end.
Proof.
  intros He Hg Hbs Hgs Hfb Hfg.
  destruct expr as [|e]; [discriminate|]. cbn [eval].
  rewrite (bind_ok _ (deref_ok _ _ _ He)).
  destruct (streq name "nil"); [reflexivity|].
  destruct (streq name "t"); [reflexivity|].
  pose proof (env_lookup_assoc _ _ name _ _ Hbs Hfb) as Hlb.
  pose proof (env_lookup_assoc _ _ name _ _ Hgs Hfg) as Hlg.
  assert (Hglobal : forall s0 : State,
            s0 = s ->
            (val <- env_lookup fuel g name ;;
             match val with
             | NULL =>
                 fprintf_stderr (lit "Undefined symbol: " ++ name) ;;
                 gets nil_obj
             | _ => ret val
             end) s0 =
            match assoc name gs with
            | Some (Addr v) => Ok (Addr v) s
            | _ => Ok (nil_obj s) (log (lit "Undefined symbol: " ++ name) s)
            end).
  { intros s0 ->. destruct (assoc name gs) as [[|w]|];
      rewrite (bind_ok _ Hlg); reflexivity. }
  destruct (assoc name bs) as [[|v]|]; rewrite (bind_ok _ Hlb);
    rewrite (bind_ok _ (gets_run _ _)); rewrite ?Hg;
    try reflexivity; apply Hglobal; reflexivity.
Qed.

Lemma eval_symbol_lookup_order_witness :
  eval 4 (Addr 3) (Addr 17) heap_envs =
    if streq (lit "y") "nil" then Ok (nil_obj heap_envs) heap_envs
    else if streq (lit "y") "t" then Ok (t_obj heap_envs) heap_envs
    else
      match assoc (lit "y") [(lit "x", Addr 6); (lit "y", Addr 7)] with
      | Some (Addr v) => Ok (Addr v) heap_envs
      | _ =>
          match assoc (lit "y") [(lit "y", Addr 8); (lit "z", Addr 9)] with
          | Some (Addr v) => Ok (Addr v) heap_envs
          | _ =>
              Ok (nil_obj heap_envs)
                 (log (lit "Undefined symbol: " ++ lit "y") heap_envs)
          end
      end.
Proof.
  apply (eval_symbol_lookup_order 3 (Addr 17) (Addr 13) heap_envs (Addr 3)
           (lit "y") [(lit "x", Addr 6); (lit "y", Addr 7)]
           [(lit "y", Addr 8); (lit "z", Addr 9)]).
  - reflexivity.
  - reflexivity.
  - simpl. split; [discriminate|].
    exists (Addr 16), (Addr 2), (Addr 15). repeat split; try discriminate.
    exists (Addr 14), (Addr 3), (Addr 0). repeat split.
  - simpl. split; [discriminate|].
    exists (Addr 12), (Addr 3), (Addr 11). repeat split; try discriminate.
    exists (Addr 10), (Addr 4), (Addr 0). repeat split.
  - simpl. lia.
  - simpl. lia.
Defined.

Lemma booted_run : repl_init start = Ok tt booted.
Proof. vm_compute. reflexivity. Qed.

Lemma booted_nil : nil_allocated booted.
Proof. vm_compute. reflexivity. Qed.

Lemma booted_chain :
  env_chain booted (Addr 41)
            [(lit "print", Addr 38); (lit "<", Addr 34); (lit "eq", Addr 30);
             (lit "/", Addr 26); (lit "*", Addr 22); (lit "-", Addr 18);
             (lit "+", Addr 14); (lit "cons", Addr 10); (lit "cdr", Addr 6);
             (lit "car", Addr 2)] (nil_obj booted).
Proof.
  cbn [env_chain].
  repeat (split; [vm_compute; discriminate|]; eexists; eexists; eexists;
            split; [vm_compute; reflexivity|]; split; [vm_compute; reflexivity|];
            split; [vm_compute; reflexivity|]).
  vm_compute. reflexivity.
Qed.

(** X4.  Start-up succeeds and leaves a global environment that binds
    exactly the ten primitive names, each to a Func object for its C
    function; every other name has no binding there. *)
Theorem init_env_binds_primitives name fuel :
  repl_init start = Ok tt booted /\
  nil_allocated booted /\
  exists g, global_env_ptr booted = Some g /\
    match primitive name with
    | Some f =>
        exists p, env_lookup (11 + fuel) g name booted = Ok p booted /\
                  lookup booted p = Some (ObjFunc f)
    | None => env_lookup (11 + fuel) g name booted = Ok NULL booted
    end.
Proof.
  split; [exact booted_run|]. split; [exact booted_nil|].
  exists (Addr 41). split; [vm_compute; reflexivity|].
  assert (Hlen : 10 < 11 + fuel) by lia.
  rewrite (env_lookup_assoc _ _ name _ _ booted_chain Hlen).
  unfold primitive.
  repeat match goal with
  | |- context [streq (lit ?k) name] =>
      let E := fresh "E" in
      destruct (streq (lit k) name) eqn:E;
      [apply streq_eq in E; subst name; eexists; split; vm_compute; reflexivity|]
  end.
  cbn [assoc]. rewrite E, E0, E1, E2, E3, E4, E5, E6, E7, E8.
  reflexivity.
Qed.

(** ** Arithmetic on integers *)

Lemma wrap_mod a b :
  ((a + 2 ^ 31) mod 2 ^ 32 = (b + 2 ^ 31) mod 2 ^ 32)%Z -> wrap a = wrap b.
Proof. unfold wrap. intros H. rewrite H. reflexivity. Qed.

Lemma wrap_add_l a b : wrap (wrap a + b) = wrap (a + b).
Proof.
  apply wrap_mod. unfold wrap.
  replace ((a + 2 ^ 31) mod 2 ^ 32 - 2 ^ 31 + b + 2 ^ 31)%Z
    with ((a + 2 ^ 31) mod 2 ^ 32 + b)%Z by lia.
  rewrite Zplus_mod_idemp_l. f_equal. lia.
Qed.

Lemma wrap_sub_l a b : wrap (wrap a - b) = wrap (a - b).
Proof. unfold Z.sub. apply wrap_add_l. Qed.

Lemma wrap_mul_l a b : wrap (wrap a * b) = wrap (a * b).
Proof.
  apply wrap_mod. unfold wrap.
  rewrite <- (Zplus_mod_idemp_l (_ * b)), <- (Zplus_mod_idemp_l (a * b)).
  f_equal. f_equal.
  rewrite <- Zmult_mod_idemp_l, <- (Zmult_mod_idemp_l a).
  f_equal. f_equal.
  rewrite <- Zminus_mod_idemp_l, Z.mod_mod by lia.
  rewrite Zminus_mod_idemp_l. f_equal. lia.
Qed.

Lemma wrap_wrap a : wrap (wrap a) = wrap a.
Proof.
  replace (wrap a) with (wrap a + 0)%Z at 1 by lia.
  rewrite wrap_add_l. f_equal. lia.
Qed.

(** One turn of a loop over a list of integers. *)
Lemma int_list_step s args n ns :
  int_list s args (n :: ns) ->
  exists a d,
    is_nil args s = Ok false s /\
    car args s = Ok a s /\
    deref a s = Ok (ObjInt n) s /\
    cdr args s = Ok d s /\
    int_list s d ns.
Proof.
  intros [Hne (a & d & Hc & Ha & Hd)]. exists a, d.
  split; [apply is_nil_other, Hne|].
  split; [eapply car_cons, Hc|].
  split; [apply deref_ok, Ha|].
  split; [eapply cdr_cons, Hc|exact Hd].
Qed.

Lemma add_loop_spec s ns : forall fuel acc args,
  int_list s args ns ->
  List.length ns < fuel ->
  add_loop fuel acc args s =
    make_int (fold_left (fun a n => wrap (a + n)%Z) ns acc) s.
Proof.
  induction ns as [|n ns IH]; intros [|fuel] acc args Hl Hf;
    try (simpl in Hf; lia); cbn [add_loop].
  - simpl in Hl. subst args. rewrite (bind_ok _ (is_nil_nil s)). reflexivity.
  - destruct (int_list_step _ _ _ _ Hl) as (a & d & H1 & H2 & H3 & H4 & H5).
    rewrite (bind_ok _ H1), (bind_ok _ H2), (bind_ok _ H3), (bind_ok _ H4).
    apply IH; [exact H5| simpl in Hf; lia].
Qed.

Lemma fold_add_wrap ns : forall acc,
  fold_left (fun a n => wrap (a + n)%Z) ns (wrap acc) = wrap (acc + sum_of ns).
Proof.
  induction ns as [|n ns IH]; intros acc; simpl.
  - f_equal. lia.
  - rewrite wrap_add_l, IH. f_equal. lia.
Qed.

Lemma mul_loop_spec s ns : forall fuel acc args,
  int_list s args ns ->
  List.length ns < fuel ->
  mul_loop fuel acc args s =
    make_int (fold_left (fun a n => wrap (a * n)%Z) ns acc) s.
Proof.
  induction ns as [|n ns IH]; intros [|fuel] acc args Hl Hf;
    try (simpl in Hf; lia); cbn [mul_loop].
  - simpl in Hl. subst args. rewrite (bind_ok _ (is_nil_nil s)). reflexivity.
  - destruct (int_list_step _ _ _ _ Hl) as (a & d & H1 & H2 & H3 & H4 & H5).
    rewrite (bind_ok _ H1), (bind_ok _ H2), (bind_ok _ H3), (bind_ok _ H4).
    apply IH; [exact H5| simpl in Hf; lia].
Qed.

Lemma fold_mul_wrap ns : forall acc,
  fold_left (fun a n => wrap (a * n)%Z) ns (wrap acc) =
    wrap (acc * product_of ns).
Proof.
  induction ns as [|n ns IH]; intros acc; simpl.
  - f_equal. lia.
  - rewrite wrap_mul_l, IH. f_equal. lia.
Qed.

(** X5.  On a list of integers [+] returns a new Integer holding their sum
    and [*] one holding their product, both reduced to 32 bits; for no
    argument that is 0 and 1.  Nothing is written. *)
Theorem builtin_add_mul_integers fuel s args env ns :
  int_list s args ns ->
  List.length ns < fuel ->
  room 1 s ->
  builtin_add fuel args env s =
    Ok (Addr (obj_count s)) (store_obj (ObjInt (wrap (sum_of ns))) s) /\
  builtin_mul fuel args env s =
    Ok (Addr (obj_count s)) (store_obj (ObjInt (wrap (product_of ns))) s).
Proof.
  intros Hl Hf Hroom. split.
  - unfold builtin_add. rewrite (add_loop_spec _ _ _ _ _ Hl Hf).
    change 0%Z with (wrap 0) at 1. rewrite fold_add_wrap.
    apply make_int_ok, Hroom.
  - unfold builtin_mul. rewrite (mul_loop_spec _ _ _ _ _ Hl Hf).
    change 1%Z with (wrap 1) at 1. rewrite fold_mul_wrap.
    replace (1 * product_of ns)%Z with (product_of ns) by lia.
    apply make_int_ok, Hroom.
Qed.

Lemma builtin_add_mul_integers_witness :
  builtin_add 4 (Addr 10) NULL heap_ints =
    Ok (Addr (obj_count heap_ints))
       (store_obj (ObjInt (wrap (sum_of [7; 2; 3]%Z))) heap_ints) /\
  builtin_mul 4 (Addr 10) NULL heap_ints =
    Ok (Addr (obj_count heap_ints))
       (store_obj (ObjInt (wrap (product_of [7; 2; 3]%Z))) heap_ints).
Proof.
  apply (builtin_add_mul_integers 4 heap_ints (Addr 10) NULL [7; 2; 3]%Z).
  - simpl. split; [discriminate|]. exists (Addr 2), (Addr 9).
    repeat split; try discriminate.
    exists (Addr 3), (Addr 8). repeat split; try discriminate.
    exists (Addr 4), (Addr 0). repeat split.
  - simpl. lia.
  - unfold room. apply Nat.leb_le. vm_compute. reflexivity.
Defined.

Lemma sub_loop_spec s ns : forall fuel acc args,
  int_list s args ns ->
  List.length ns < fuel ->
  sub_loop fuel acc args s =
    make_int (fold_left (fun a n => wrap (a - n)%Z) ns acc) s.
Proof.
  induction ns as [|n ns IH]; intros [|fuel] acc args Hl Hf;
    try (simpl in Hf; lia); cbn [sub_loop].
  - simpl in Hl. subst args. rewrite (bind_ok _ (is_nil_nil s)). reflexivity.
  - destruct (int_list_step _ _ _ _ Hl) as (a & d & H1 & H2 & H3 & H4 & H5).
    rewrite (bind_ok _ H1), (bind_ok _ H2), (bind_ok _ H3), (bind_ok _ H4).
    apply IH; [exact H5| simpl in Hf; lia].
Qed.

Lemma fold_sub_wrap ns : forall acc,
  fold_left (fun a n => wrap (a - n)%Z) ns (wrap acc) = wrap (acc - sum_of ns).
Proof.
  induction ns as [|n ns IH]; intros acc; simpl.
  - f_equal. lia.
  - rewrite wrap_sub_l, IH. f_equal. lia.
Qed.

Lemma int_list_nil_or_not s args ns :
  int_list s args ns ->
  is_nil args s = Ok (match ns with [] => true | _ => false end) s.
Proof.
  destruct ns; simpl.
  - intros ->. apply is_nil_nil.
  - intros [H _]. apply is_nil_other, H.
Qed.

(** X6.  [-] on integers: no argument gives 0, one argument its negation,
    and two or more the first minus the sum of the others, reduced to 32
    bits, in a new Integer.  Nothing is written. *)
Theorem builtin_sub_integers fuel s args env ns :
  int_list s args ns ->
  List.length ns <= fuel ->
  room 1 s ->
  builtin_sub fuel args env s =
    Ok (Addr (obj_count s))
       (store_obj
          (ObjInt match ns with
                  | [] => 0%Z
                  | [n] => wrap (- n)
                  | n :: rest => wrap (n - sum_of rest)
                  end) s).
Proof.
  intros Hl Hf Hroom. unfold builtin_sub.
  rewrite (bind_ok _ (int_list_nil_or_not _ _ _ Hl)).
  destruct ns as [|n rest]; [apply make_int_ok, Hroom|].
  destruct (int_list_step _ _ _ _ Hl) as (a & d & H1 & H2 & H3 & H4 & H5).
  rewrite (bind_ok _ H2), (bind_ok _ H3), (bind_ok _ H4).
  rewrite (bind_ok _ (int_list_nil_or_not _ _ _ H5)).
  destruct rest as [|m rest]; [apply make_int_ok, Hroom|].
  rewrite (bind_ok _ H4).
  rewrite (sub_loop_spec _ _ _ _ _ H5 Hf).
  cbn [fold_left]. rewrite fold_sub_wrap.
  replace (n - m - sum_of rest)%Z with (n - sum_of (m :: rest))%Z
    by (simpl; lia).
  apply make_int_ok, Hroom.
Qed.

Lemma builtin_sub_integers_witness :
  builtin_sub 3 (Addr 10) NULL heap_ints =
    Ok (Addr (obj_count heap_ints))
       (store_obj (ObjInt (wrap (7 - sum_of [2; 3]%Z))) heap_ints).
Proof.
  apply (builtin_sub_integers 3 heap_ints (Addr 10) NULL [7; 2; 3]%Z).
  - simpl. split; [discriminate|]. exists (Addr 2), (Addr 9).
    repeat split; try discriminate.
    exists (Addr 3), (Addr 8). repeat split; try discriminate.
    exists (Addr 4), (Addr 0). repeat split.
  - simpl. lia.
  - unfold room. apply Nat.leb_le. vm_compute. reflexivity.
Defined.

Lemma in_int_quot_no_trap q d :
  in_int (Z.quot q d) -> (q =? INT_MIN)%Z && (d =? -1)%Z = false.
Proof.
  intros H. apply no_trap_test. intros [-> ->].
  unfold in_int, INT_MIN, INT_MAX in H. vm_compute in H.
  destruct H as [_ H]. apply H. reflexivity.
Qed.

Lemma div_loop_spec s ns : forall fuel acc args,
  int_list s args ns ->
  divides_exactly acc ns ->
  List.length ns < fuel ->
  div_loop fuel acc args s = make_int (quotient_of acc ns) s.
Proof.
  induction ns as [|n ns IH]; intros [|fuel] acc args Hl Hnz Hf;
    try (simpl in Hf; lia); cbn [div_loop].
  - simpl in Hl. subst args. rewrite (bind_ok _ (is_nil_nil s)). reflexivity.
  - destruct (int_list_step _ _ _ _ Hl) as (a & d & H1 & H2 & H3 & H4 & H5).
    destruct Hnz as (Hn & Hq & Hrest).
    rewrite (bind_ok _ H1), (bind_ok _ H2), (bind_ok _ H3).
    apply Z.eqb_neq in Hn. rewrite Hn, (in_int_quot_no_trap _ _ Hq).
    rewrite (bind_ok _ H4), (wrap_in_int _ Hq).
    apply IH; [exact H5| exact Hrest | simpl in Hf; lia].
Qed.

Lemma div_loop_zero s pre post : forall fuel acc args,
  int_list s args (pre ++ 0%Z :: post) ->
  divides_exactly acc pre ->
  List.length pre < fuel ->
  div_loop fuel acc args s =
    make_int 0 (log "/: division by zero or bad argument" s).
Proof.
  induction pre as [|n pre IH]; intros [|fuel] acc args Hl Hnz Hf;
    try (simpl in Hf; lia); cbn [div_loop]; simpl app in Hl;
    destruct (int_list_step _ _ _ _ Hl) as (a & d & H1 & H2 & H3 & H4 & H5);
    rewrite (bind_ok _ H1), (bind_ok _ H2), (bind_ok _ H3).
  - cbn [Z.eqb]. rewrite (bind_ok _ (fprintf_stderr_run _ _)). reflexivity.
  - destruct Hnz as (Hn & Hq & Hrest).
    apply Z.eqb_neq in Hn. rewrite Hn, (in_int_quot_no_trap _ _ Hq).
    rewrite (bind_ok _ H4), (wrap_in_int _ Hq).
    apply IH; [exact H5| exact Hrest | simpl in Hf; lia].
Qed.

(** X7.  [/] on integers divides the first by each of the others in turn,
    truncating toward zero, as long as each quotient fits in an [int]; one
    argument is returned as a new Integer of the same value.  Nothing is
    written. *)
Theorem builtin_div_integers fuel s args env n ns :
  int_list s args (n :: ns) ->
  divides_exactly n ns ->
  List.length ns < fuel ->
  room 1 s ->
  builtin_div fuel args env s =
    Ok (Addr (obj_count s)) (store_obj (ObjInt (quotient_of n ns)) s).
Proof.
  intros Hl Hnz Hf Hroom.
  destruct (int_list_step _ _ _ _ Hl) as (a & d & H1 & H2 & H3 & H4 & H5).
  unfold builtin_div.
  rewrite (bind_ok _ H1), (bind_ok _ H2), (bind_ok _ H3), (bind_ok _ H4).
  rewrite (div_loop_spec _ _ _ _ _ H5 Hnz Hf).
  apply make_int_ok, Hroom.
Qed.

Lemma builtin_div_integers_witness :
  builtin_div 3 (Addr 10) NULL heap_ints =
    Ok (Addr (obj_count heap_ints))
       (store_obj (ObjInt (quotient_of 7 [2; 3]%Z)) heap_ints).
Proof.
  apply (builtin_div_integers 3 heap_ints (Addr 10) NULL 7%Z [2; 3]%Z).
  - simpl. split; [discriminate|]. exists (Addr 2), (Addr 9).
    repeat split; try discriminate.
    exists (Addr 3), (Addr 8). repeat split; try discriminate.
    exists (Addr 4), (Addr 0). repeat split.
  - unfold divides_exactly, in_int, INT_MIN, INT_MAX.
    repeat split; try discriminate; vm_compute; discriminate.
  - simpl. lia.
  - unfold room. apply Nat.leb_le. vm_compute. reflexivity.
Defined.

(** X8.  At the first divisor that is zero, after divisions whose
    quotients fit in an [int], [/] writes
    [/: division by zero or bad argument] and returns a new Integer 0,
    whatever the arguments after the zero. *)
Theorem builtin_div_by_zero fuel s args env n pre post :
  int_list s args (n :: pre ++ 0%Z :: post) ->
  divides_exactly n pre ->
  List.length pre < fuel ->
  room 1 s ->
  builtin_div fuel args env s =
    Ok (Addr (obj_count s))
       (store_obj (ObjInt 0)
          (log "/: division by zero or bad argument" s)).
Proof.
  intros Hl Hnz Hf Hroom.
  destruct (int_list_step _ _ _ _ Hl) as (a & d & H1 & H2 & H3 & H4 & H5).
  unfold builtin_div.
  rewrite (bind_ok _ H1), (bind_ok _ H2), (bind_ok _ H3), (bind_ok _ H4).
  rewrite (div_loop_zero _ _ _ _ _ _ H5 Hnz Hf).
  rewrite make_int_ok; [rewrite obj_count_log; reflexivity|].
  unfold room in *. rewrite obj_count_log. exact Hroom.
Qed.

Lemma builtin_div_by_zero_witness :
  builtin_div 1 (Addr 12) NULL heap_ints =
    Ok (Addr (obj_count heap_ints))
       (store_obj (ObjInt 0)
          (log "/: division by zero or bad argument" heap_ints)).
Proof.
  apply (builtin_div_by_zero 1 heap_ints (Addr 12) NULL 7%Z [] [3]%Z).
  - simpl. split; [discriminate|]. exists (Addr 2), (Addr 11).
    repeat split; try discriminate.
    exists (Addr 5), (Addr 8). repeat split; try discriminate.
    exists (Addr 4), (Addr 0). repeat split.
  - constructor.
  - simpl. lia.
  - unfold room. apply Nat.leb_le. vm_compute. reflexivity.
Defined.

(** ** Comparisons and pairs *)

(** X9.  [eq] compares integers by value, so two distinct Integer objects
    holding the same number are equal, and [<] compares them as numbers;
    both look at the first two arguments only and return the nil object,
    writing nothing, when there are fewer than two. *)
Theorem builtin_eq_lt_integers s args env ns :
  int_list s args ns ->
  builtin_eq args env s =
    Ok match ns with
       | x :: y :: _ => if (x =? y)%Z then t_obj s else nil_obj s
       | _ => nil_obj s
       end s /\
  builtin_lt args env s =
    Ok match ns with
       | x :: y :: _ => if (x <? y)%Z then t_obj s else nil_obj s
       | _ => nil_obj s
       end s.
Proof.
  intros Hl. unfold builtin_eq, builtin_lt.
  rewrite !(bind_ok _ (int_list_nil_or_not _ _ _ Hl)).
  destruct ns as [|x ns]; [split; reflexivity|].
  destruct (int_list_step _ _ _ _ Hl) as (a & d & H1 & H2 & H3 & H4 & H5).
  rewrite !(bind_ok _ H4), !(bind_ok _ (int_list_nil_or_not _ _ _ H5)).
  destruct ns as [|y ns]; [split; reflexivity|].
  destruct (int_list_step _ _ _ _ H5) as (b & d' & G1 & G2 & G3 & G4 & G5).
  rewrite !(bind_ok _ H2), !(bind_ok _ H4), !(bind_ok _ G2),
          !(bind_ok _ H3), !(bind_ok _ G3).
  cbn [type ObjType_eqb negb].
  split.
  - destruct (x =? y)%Z; reflexivity.
  - destruct (x <? y)%Z; reflexivity.
Qed.

Lemma builtin_eq_lt_integers_witness :
  builtin_eq (Addr 15) NULL heap_ints =
    Ok (if (6 =? 6)%Z then t_obj heap_ints else nil_obj heap_ints)
       heap_ints /\
  builtin_lt (Addr 15) NULL heap_ints =
    Ok (if (6 <? 6)%Z then t_obj heap_ints else nil_obj heap_ints)
       heap_ints.
Proof.
  apply (builtin_eq_lt_integers heap_ints (Addr 15) NULL [6; 6]%Z).
  simpl. split; [discriminate|]. exists (Addr 6), (Addr 14).
  repeat split; try discriminate.
  exists (Addr 7), (Addr 0). repeat split.
Defined.

Lemma is_list_step s args x l :
  is_list s args (x :: l) ->
  exists d,
    is_nil args s = Ok false s /\
    car args s = Ok x s /\
    cdr args s = Ok d s /\
    is_list s d l.
Proof.
  intros [Hne (d & Hc & Hd)]. exists d.
  split; [apply is_nil_other, Hne|].
  split; [eapply car_cons, Hc|].
  split; [eapply cdr_cons, Hc|exact Hd].
Qed.

Lemma is_list_nil_or_not s args l :
  is_list s args l ->
  is_nil args s = Ok (match l with [] => true | _ => false end) s.
Proof.
  destruct l; simpl.
  - intros ->. apply is_nil_nil.
  - intros [H _]. apply is_nil_other, H.
Qed.

(** X10.  [cons] of two arguments makes one new pair and changes nothing
    else; [car] and [cdr] of that pair give the two arguments back, the
    very same objects.  With fewer than two arguments [cons] returns the
    nil object and allocates nothing. *)
Theorem builtin_cons_car_cdr s args env l :
  is_list s args l ->
  room 1 s ->
  match l with
  | a :: b :: _ =>
      exists p,
        builtin_cons args env s = Ok p (store_obj (ObjCons a b) s) /\
        forall s' args' rest,
          extends (store_obj (ObjCons a b) s) s' ->
          is_list s' args' (p :: rest) ->
          builtin_car args' env s' = Ok a s' /\
          builtin_cdr args' env s' = Ok b s'
  | _ => builtin_cons args env s = Ok (nil_obj s) s
  end.
Proof.
  intros Hl Hroom. unfold builtin_cons.
  rewrite (bind_ok _ (is_list_nil_or_not _ _ _ Hl)).
  destruct l as [|a l]; [reflexivity|].
  destruct (is_list_step _ _ _ _ Hl) as (d & H1 & H2 & H3 & H4).
  rewrite (bind_ok _ H3), (bind_ok _ (is_list_nil_or_not _ _ _ H4)).
  destruct l as [|b l]; [reflexivity|].
  destruct (is_list_step _ _ _ _ H4) as (d' & G1 & G2 & G3 & G4).
  rewrite (bind_ok _ H2), (bind_ok _ H3), (bind_ok _ G2).
  exists (Addr (obj_count s)). split; [apply cons_ok, Hroom|].
  intros s' args' rest Hext Hl'.
  destruct (is_list_step _ _ _ _ Hl') as (e & K1 & K2 & K3 & K4).
  assert (Hp : lookup s' (Addr (obj_count s)) = Some (ObjCons a b)).
  { eapply extends_lookup; [exact Hext|]. apply lookup_store_new. }
  unfold builtin_car, builtin_cdr.
  rewrite !(bind_ok _ K1), !(bind_ok _ K2).
  split; [eapply car_cons, Hp | eapply cdr_cons, Hp].
Qed.

Lemma builtin_cons_car_cdr_witness :
  exists p,
    builtin_cons (Addr 10) NULL heap_ints =
      Ok p (store_obj (ObjCons (Addr 2) (Addr 3)) heap_ints) /\
    forall s' args' rest,
      extends (store_obj (ObjCons (Addr 2) (Addr 3)) heap_ints) s' ->
      is_list s' args' (p :: rest) ->
      builtin_car args' NULL s' = Ok (Addr 2) s' /\
      builtin_cdr args' NULL s' = Ok (Addr 3) s'.
Proof.
  apply (builtin_cons_car_cdr heap_ints (Addr 10) NULL
           [Addr 2; Addr 3; Addr 4]).
  - simpl. split; [discriminate|]. exists (Addr 9).
    repeat split; try discriminate.
    exists (Addr 8). repeat split; try discriminate.
    exists (Addr 0). repeat split.
  - unfold room. apply Nat.leb_le. vm_compute. reflexivity.
Defined.

(** X11.  [car] and [cdr] of an object that is no pair (an Integer, a
    Symbol and so the nil object, a function) write [CAR: not a cons cell]
    or [CDR: not a cons cell] and return the nil object; further arguments
    are ignored. *)
Theorem builtin_car_cdr_not_a_pair s args env x rest o :
  is_list s args (x :: rest) ->
  lookup s x = Some o ->
  type o <> T_CONS ->
  builtin_car args env s = Ok (nil_obj s) (log "CAR: not a cons cell" s) /\
  builtin_cdr args env s = Ok (nil_obj s) (log "CDR: not a cons cell" s).
Proof.
  intros Hl Ho Hty. unfold builtin_car, builtin_cdr.
  destruct (is_list_step _ _ _ _ Hl) as (d & H1 & H2 & H3 & H4).
  rewrite !(bind_ok _ H1), !(bind_ok _ H2). unfold car, cdr.
  rewrite !(bind_ok _ (deref_ok _ _ _ Ho)).
  destruct o; try (split; reflexivity).
  exfalso. apply Hty. reflexivity.
Qed.

Lemma builtin_car_cdr_not_a_pair_witness :
  builtin_car (Addr 14) NULL heap_ints =
    Ok (nil_obj heap_ints) (log "CAR: not a cons cell" heap_ints) /\
  builtin_cdr (Addr 14) NULL heap_ints =
    Ok (nil_obj heap_ints) (log "CDR: not a cons cell" heap_ints).
Proof.
  apply (builtin_car_cdr_not_a_pair heap_ints (Addr 14) NULL (Addr 7) []
           (ObjInt 6)).
  - simpl. split; [discriminate|]. exists (Addr 0). repeat split.
  - reflexivity.
  - discriminate.
Defined.

(** ** Argument lists *)

Lemma new_list_is_list n l : forall s p, new_list n s p l -> is_list s p l.
Proof.
  induction l as [|x l IH]; simpl; intros s p H; [exact H|].
  destruct H as (Hne & a & d & _ & _ & Hc & Hd).
  split; [exact Hne|]. exists d. split; [exact Hc | apply IH, Hd].
Qed.

Lemma new_list_extends n l : forall s s' p,
  extends s s' -> new_list n s p l -> new_list n s' p l.
Proof.
  induction l as [|x l IH]; simpl; intros s s' p He H.
  - destruct He as (_ & Hn & _). congruence.
  - destruct H as (Hne & a & d & Hp & Hle & Hc & Hd). split.
    + destruct He as (_ & Hn & _). congruence.
    + exists a, d. split; [exact Hp|]. split; [exact Hle|].
      split; [eapply extends_lookup; eauto | eapply IH; eauto].
Qed.

Lemma new_list_older n m l : forall s p,
  m <= n -> new_list n s p l -> new_list m s p l.
Proof.
  induction l as [|x l IH]; simpl; intros s p Hle H; [exact H|].
  destruct H as (Hne & a & d & Hp & Hn & Hc & Hd).
  split; [exact Hne|]. exists a, d. split; [exact Hp|].
  split; [lia|]. split; [exact Hc | eapply IH; eauto].
Qed.

(** X12.  When [eval_list] returns, its result is a nil-terminated list
    made of new pairs, each allocated during the call, with one value for
    each argument expression, each the value of evaluating that expression
    in the caller's environment at some point of the call; the argument
    list itself is as it was. *)
Theorem eval_list_one_value_each fuel s args env l r s' :
  nil_allocated s ->
  is_list s args l ->
  eval_list fuel args env s = Ok r s' ->
  extends s s' /\
  is_list s' args l /\
  exists vs,
    new_list (obj_count s) s' r vs /\
    is_list s' r vs /\
    Forall2 (fun x v => exists n s1 s2,
               extends s s1 /\ eval n x env s1 = Ok v s2 /\ extends s2 s')
            l vs.
Proof.
  intros Hnil Hl Hrun.
  assert (Hext : extends s s') by (eapply stable_eval_list; exact Hrun).
  split; [exact Hext|]. split; [eapply extends_is_list; eauto|].
  assert (Hgen : exists vs,
            new_list (obj_count s) s' r vs /\
            Forall2 (fun x v => exists n s1 s2,
                       extends s s1 /\ eval n x env s1 = Ok v s2 /\
                       extends s2 s')
                    l vs).
  { revert s args l r s' Hnil Hl Hrun Hext.
    induction fuel as [|fuel IH]; intros s args l r s' Hnil Hl Hrun Hext;
      [discriminate|].
    cbn [eval_list] in Hrun.
    rewrite (bind_ok _ (is_list_nil_or_not _ _ _ Hl)) in Hrun.
    destruct l as [|x l].
    - inversion Hrun; subst. exists []. split; [reflexivity | constructor].
    - destruct (is_list_step _ _ _ _ Hl) as (d & H1 & H2 & H3 & H4).
      rewrite (bind_ok _ H2) in Hrun.
      apply bind_inv in Hrun. destruct Hrun as (v & s1 & Hv & Hrun).
      assert (E1 : extends s s1) by (eapply stable_eval; exact Hv).
      destruct Hl as (_ & d0 & Hc & _).
      rewrite (bind_ok _ (cdr_cons _ _ _ _ (extends_lookup _ _ _ _ E1 Hc)))
        in Hrun.
      assert (d0 = d).
      { pose proof (cdr_cons _ _ _ _ Hc) as K. rewrite H3 in K.
        inversion K. reflexivity. }
      subst d0.
      apply bind_inv in Hrun. destruct Hrun as (vs & s2 & Hvs & Hrun).
      assert (E2 : extends s1 s2) by (eapply stable_eval_list; exact Hvs).
      destruct (IH s1 d l vs s2 (nil_allocated_extends _ _ E1 Hnil)
                  (extends_is_list _ _ _ _ E1 H4) Hvs E2) as (ws & Hws & Hall).
      unfold cons in Hrun.
      assert (E3 : extends s2 s') by (eapply stable_alloc_obj; exact Hrun).
      assert (Hr : r = Addr (obj_count s2) /\
                   s' = store_obj (ObjCons v vs) s2).
      { unfold alloc_obj in Hrun.
        rewrite (bind_ok _ (gets_run _ _)) in Hrun.
        destruct (MAX_OBJS <=? obj_count s2); [discriminate|].
        inversion Hrun. split; reflexivity. }
      destruct Hr as [-> ->].
      pose proof (extends_count _ _ E1) as C1.
      pose proof (extends_count _ _ E2) as C2.
      exists (v :: ws). split.
      + simpl. split.
        * replace (obj_count s2) with (obj_count s2 + 0) by lia.
          apply new_not_nil.
          apply (nil_allocated_extends s);
            [eapply extends_trans; eauto | exact Hnil].
        * exists (obj_count s2), vs. split; [reflexivity|].
          split; [lia|]. split; [apply lookup_store_new|].
          eapply new_list_extends; [exact E3|].
          eapply new_list_older; [|exact Hws]. lia.
      + constructor.
        * exists fuel, s, s1. split; [apply extends_refl|].
          split; [exact Hv|]. eapply extends_trans; eauto.
        * eapply Forall2_impl; [|exact Hall].
          intros x0 v0 (n & t1 & t2 & K1 & K2 & K3).
          exists n, t1, t2. split; [eapply extends_trans; eauto|].
          split; [exact K2 | eapply extends_trans; eauto]. }
  destruct Hgen as (vs & Hnew & Hall).
  exists vs. split; [exact Hnew|].
  split; [eapply new_list_is_list; exact Hnew | exact Hall].
Qed.

Lemma eval_list_one_value_each_witness :
  extends heap_ints heap_ints_copied /\
  is_list heap_ints_copied (Addr 10) [Addr 2; Addr 3; Addr 4] /\
  exists vs,
    new_list (obj_count heap_ints) heap_ints_copied (Addr 18) vs /\
    is_list heap_ints_copied (Addr 18) vs /\
    Forall2 (fun x v => exists n s1 s2,
               extends heap_ints s1 /\ eval n x NULL s1 = Ok v s2 /\
               extends s2 heap_ints_copied)
            [Addr 2; Addr 3; Addr 4] vs.
Proof.
  apply (eval_list_one_value_each 5 heap_ints (Addr 10) NULL
           [Addr 2; Addr 3; Addr 4] (Addr 18)).
  - reflexivity.
  - simpl. split; [discriminate|]. exists (Addr 9).
    repeat split; try discriminate.
    exists (Addr 8). repeat split; try discriminate.
    exists (Addr 0). repeat split.
  - vm_compute. reflexivity.
Defined.

(** ** Calls of what is no function *)

(** X13.  A call whose head evaluates to something that is neither a
    primitive nor a closure writes [Not a function] and gives the nil
    object; the arguments are not evaluated. *)
Theorem eval_not_a_function fuel env s expr op args oo f fo s1 :
  lookup s expr = Some (ObjCons op args) ->
  lookup s op = Some oo ->
  special_form oo = false ->
  eval fuel op env s = Ok f s1 ->
  lookup s1 f = Some fo ->
  type fo <> T_FUNC ->
  type fo <> T_LAMBDA ->
  eval (S fuel) expr env s = Ok (nil_obj s1) (log "Not a function" s1).
Proof.
  intros He Hop Hsp Hf Hfo Hnf Hnl.
  destruct expr as [|e]; [discriminate|]. cbn [eval].
  rewrite (bind_ok _ (deref_ok _ _ _ He)).
  rewrite (bind_ok _ (car_cons _ _ _ _ He)), (bind_ok _ (cdr_cons _ _ _ _ He)).
  rewrite (bind_ok _ (deref_ok _ _ _ Hop)). cbv zeta.
  rewrite (special_dispatch oo _ _ _ _ _ Hsp).
  rewrite (bind_ok _ Hf), (bind_ok _ (deref_ok _ _ _ Hfo)).
  destruct fo; try reflexivity; exfalso; [apply Hnf | apply Hnl]; reflexivity.
Qed.

Lemma eval_not_a_function_witness :
  eval 5 (Addr 18) (Addr 17) heap_envs =
    Ok (nil_obj (log (lit "Undefined symbol: " ++ lit "w") heap_envs))
       (log "Not a function"
          (log (lit "Undefined symbol: " ++ lit "w") heap_envs)).
Proof.
  apply (eval_not_a_function 4 (Addr 17) heap_envs (Addr 18) (Addr 5) (Addr 0)
           (ObjSymbol "w") (Addr 0) (ObjSymbol "nil")).
  - reflexivity.
  - reflexivity.
  - reflexivity.
  - vm_compute. reflexivity.
  - reflexivity.
  - discriminate.
  - discriminate.
Defined.

(** ** The printer on every value *)

Lemma print_leaf s p o :
  lookup s p = Some o ->
  type o <> T_CONS ->
  forall fuel,
    print_obj (S fuel) p s = Ok tt (printed (leaf_text o) s) /\
    (p <> nil_obj s ->
     print_tail (S (S fuel)) p s =
       Ok tt (printed (lit " . " ++ leaf_text o) s)).
Proof.
  intros Hp Hty fuel.
  destruct (lookup_valid _ _ _ Hp) as (a & -> & _).
  assert (H1 : forall s0 n, extends s s0 ->
            print_obj (S n) (Addr a) s0 = Ok tt (printed (leaf_text o) s0)).
  { intros s0 n Hext. rewrite print_obj_S.
    rewrite (bind_ok _ (deref_ok _ _ _ (extends_lookup _ _ _ _ Hext Hp))).
    destruct o; try reflexivity. exfalso. apply Hty. reflexivity. }
  split; [apply H1, extends_refl|].
  intros Hne. rewrite print_tail_S.
  rewrite (bind_ok _ (is_nil_other _ _ Hne)).
  rewrite (bind_ok _ (deref_ok _ _ _ Hp)).
  assert (Hgo : (printf (lit " . ") ;; print_obj (S fuel) (Addr a)) s =
                Ok tt (printed (lit " . " ++ leaf_text o) s)).
  { rewrite (bind_ok _ (printf_run _ _)).
    rewrite H1 by apply extends_printed.
    rewrite printed_printed. reflexivity. }
  destruct o; try exact Hgo. exfalso. apply Hty. reflexivity.
Qed.

Lemma holds_extends v : forall s s' p,
  extends s s' -> holds s p v -> holds s' p v.
Proof.
  induction v as [| | n | name | | | x IHx y IHy]; simpl; intros s s' p Hext H.
  - exact H.
  - destruct Hext as (_ & Hn & _). congruence.
  - eapply extends_lookup; eauto.
  - destruct H as [Hne H]. split.
    + destruct Hext as (_ & Hn & _). congruence.
    + eapply extends_lookup; eauto.
  - destruct H as (f & H). exists f. eapply extends_lookup; eauto.
  - destruct H as (a & b & c & H). exists a, b, c.
    eapply extends_lookup; eauto.
  - destruct H as (Hne & pa & pd & Hp & Hx & Hy). split.
    + destruct Hext as (_ & Hn & _). congruence.
    + exists pa, pd. split; [eapply extends_lookup; eauto|]. split; eauto.
Qed.

Lemma not_nil_by_type s p o :
  nil_allocated s -> lookup s p = Some o -> type o <> T_SYMBOL ->
  p <> nil_obj s.
Proof.
  intros Hnil Hp Hty Heq. subst p. unfold nil_allocated in Hnil.
  rewrite Hnil in Hp. inversion Hp; subst. apply Hty. reflexivity.
Qed.

Lemma print_value v : forall fuel s p,
  holds s p v -> nil_allocated s -> vsize v < fuel ->
  (printable v -> print_obj fuel p s = Ok tt (printed (text v) s)) /\
  (printable_tail v ->
   print_tail fuel p s = Ok tt (printed (text_tail v) s)).
Proof.
  induction v as [| | n | name | | | x IHx y IHy];
    intros fuel s p Hh Hnil Hfuel;
    (destruct fuel as [|fuel]; [simpl in Hfuel; lia|]); simpl in Hh.
  - subst p. split; [reflexivity | intros []].
  - subst p. split; intros _.
    + apply (proj1 (print_leaf _ _ _ Hnil ltac:(discriminate) fuel)).
    + rewrite print_tail_S, (bind_ok _ (is_nil_nil _)). simpl.
      rewrite printed_nil. reflexivity.
  - destruct fuel as [|fuel]; [simpl in Hfuel; lia|].
    pose proof (not_nil_by_type _ _ _ Hnil Hh ltac:(discriminate)) as Hne.
    split; intros _.
    + apply (proj1 (print_leaf _ _ _ Hh ltac:(discriminate) (S fuel))).
    + apply (proj2 (print_leaf _ _ _ Hh ltac:(discriminate) fuel) Hne).
  - destruct fuel as [|fuel]; [simpl in Hfuel; lia|].
    destruct Hh as [Hne Hh].
    split; intros _.
    + apply (proj1 (print_leaf _ _ _ Hh ltac:(discriminate) (S fuel))).
    + apply (proj2 (print_leaf _ _ _ Hh ltac:(discriminate) fuel) Hne).
  - destruct fuel as [|fuel]; [simpl in Hfuel; lia|].
    destruct Hh as (f & Hh).
    pose proof (not_nil_by_type _ _ _ Hnil Hh ltac:(discriminate)) as Hne.
    split; intros _.
    + apply (proj1 (print_leaf _ _ _ Hh ltac:(discriminate) (S fuel))).
    + apply (proj2 (print_leaf _ _ _ Hh ltac:(discriminate) fuel) Hne).
  - destruct fuel as [|fuel]; [simpl in Hfuel; lia|].
    destruct Hh as (a & b & c & Hh).
    pose proof (not_nil_by_type _ _ _ Hnil Hh ltac:(discriminate)) as Hne.
    split; intros _.
    + apply (proj1 (print_leaf _ _ _ Hh ltac:(discriminate) (S fuel))).
    + apply (proj2 (print_leaf _ _ _ Hh ltac:(discriminate) fuel) Hne).
  - destruct Hh as (Hne & pa & pd & Hp & Hx & Hy). simpl in Hfuel.
    destruct (lookup_valid _ _ _ Hp) as (a & -> & _).
    assert (Hseq : forall pre s0, extends s s0 -> printable x ->
              printable_tail y ->
              (x0 <- car (Addr a) ;; print_obj fuel x0 ;;
               d <- cdr (Addr a) ;; print_tail fuel d) (printed pre s0) =
              Ok tt (printed (pre ++ text x ++ text_tail y) s0)).
    { intros pre s0 Hext Px Py.
      assert (E1 : extends s (printed pre s0))
        by (eapply extends_trans; [exact Hext | apply extends_printed]).
      pose proof (extends_lookup _ _ _ _ E1 Hp) as Hp1.
      rewrite (bind_ok _ (car_cons _ _ _ _ Hp1)).
      rewrite (bind_ok _ (proj1 (IHx fuel _ pa (holds_extends _ _ _ _ E1 Hx)
                 (nil_allocated_extends _ _ E1 Hnil) ltac:(lia)) Px)).
      rewrite printed_printed.
      assert (E2 : extends s (printed (pre ++ text x) s0))
        by (eapply extends_trans; [exact Hext | apply extends_printed]).
      pose proof (extends_lookup _ _ _ _ E2 Hp) as Hp2.
      rewrite (bind_ok _ (cdr_cons _ _ _ _ Hp2)).
      rewrite (proj2 (IHy fuel _ pd (holds_extends _ _ _ _ E2 Hy)
                 (nil_allocated_extends _ _ E2 Hnil) ltac:(lia)) Py).
      rewrite printed_printed, <- app_assoc. reflexivity. }
    split; intros [Px Py].
    + rewrite print_obj_S, (bind_ok _ (deref_ok _ _ _ Hp)).
      rewrite (bind_ok _ (printf_run _ _)).
      pose proof (Hseq (lit "(") s (extends_refl s) Px Py) as Hs.
      transitivity (((x0 <- car (Addr a) ;; print_obj fuel x0 ;;
                      d <- cdr (Addr a) ;; print_tail fuel d) ;; printf (lit ")"))
                      (printed (lit "(") s)).
      { rewrite !bind_assoc. apply bind_congr. intros x1 s1 _.
        rewrite !bind_assoc. apply bind_congr. intros x2 s2 _.
        rewrite !bind_assoc. reflexivity. }
      rewrite (bind_ok _ Hs), printf_run, printed_printed.
      simpl text. rewrite <- !app_assoc. reflexivity.
    + rewrite print_tail_S, (bind_ok _ (is_nil_other _ _ Hne)).
      rewrite (bind_ok _ (deref_ok _ _ _ Hp)).
      rewrite (bind_ok _ (printf_run _ _)).
      rewrite (Hseq (lit " ") s (extends_refl s) Px Py). reflexivity.
Qed.

(** X14.  [print_obj] writes the text of any value: [NULL] for the NULL
    pointer, [<built-in function>] and [<lambda>] for functions, a list in
    parentheses with single spaces, and a tail that is neither the nil
    object nor a pair after [ . ].  It changes nothing but the output. *)
Theorem print_obj_writes_text fuel s p v :
  holds s p v ->
  printable v ->
  nil_allocated s ->
  vsize v < fuel ->
  print_obj fuel p s = Ok tt (printed (text v) s).
Proof.
  intros Hh Hp Hnil Hfuel.
  apply (proj1 (print_value v fuel s p Hh Hnil Hfuel) Hp).
Qed.

Lemma print_obj_writes_text_witness :
  print_obj 16 (Addr 8) heap_values =
    Ok tt (printed
             (text (VPair VFunc (VPair (VPair (VInt 1) (VInt 2))
                                   (VPair VNil VNil))))
             heap_values).
Proof.
  apply (print_obj_writes_text 16 heap_values (Addr 8)
           (VPair VFunc (VPair (VPair (VInt 1) (VInt 2)) (VPair VNil VNil)))).
  - simpl. split; [discriminate|]. exists (Addr 5), (Addr 7).
    split; [reflexivity|]. split; [exists fn_car; reflexivity|].
    split; [discriminate|]. exists (Addr 4), (Addr 6).
    split; [reflexivity|]. split.
    + split; [discriminate|]. exists (Addr 2), (Addr 3).
      repeat split.
    + split; [discriminate|]. exists (Addr 0), (Addr 0). repeat split.
  - simpl. tauto.
  - reflexivity.
  - simpl. lia.
Defined.

Lemma value_list_extends vs : forall s s' p,
  extends s s' -> value_list s p vs -> value_list s' p vs.
Proof.
  induction vs as [|v vs IH]; simpl; intros s s' p Hext H.
  - destruct Hext as (_ & Hn & _). congruence.
  - destruct H as (Hne & a & d & Hc & Hv & Hd). split.
    + destruct Hext as (_ & Hn & _). congruence.
    + exists a, d. split; [eapply extends_lookup; eauto|].
      split; [eapply holds_extends; eauto | eauto].
Qed.

(** X15.  [print] writes the text of each argument followed by a newline,
    in order, and returns the nil object; with no argument it writes
    nothing. *)
Theorem builtin_print_lines vs : forall fuel s args env,
  value_list s args vs ->
  Forall printable vs ->
  nil_allocated s ->
  Forall (fun v => vsize v + List.length vs < fuel) vs ->
  List.length vs < fuel ->
  builtin_print fuel args env s = Ok (nil_obj s) (printed (lines_of vs) s).
Proof.
  induction vs as [|v vs IH]; intros fuel s args env Hl Hp Hnil Hsz Hfuel;
    (destruct fuel as [|fuel]; [simpl in Hfuel; lia|]); cbn [builtin_print].
  - simpl in Hl. subst args. rewrite (bind_ok _ (is_nil_nil _)).
    unfold lines_of. simpl. rewrite printed_nil. reflexivity.
  - destruct Hl as (Hne & a & d & Hc & Hv & Hd).
    inversion Hp as [|? ? Pv Pvs]; subst.
    inversion Hsz as [|? ? Sv Svs]; subst. simpl in Sv, Svs, Hfuel.
    rewrite (bind_ok _ (is_nil_other _ _ Hne)).
    rewrite (bind_ok _ (car_cons _ _ _ _ Hc)).
    rewrite (bind_ok _ (proj1 (print_value v fuel s a Hv Hnil ltac:(lia)) Pv)).
    rewrite (bind_ok _ (printf_run _ _)), printed_printed.
    set (s1 := printed (text v ++ [newline]) s).
    assert (E1 : extends s s1) by apply extends_printed.
    rewrite (bind_ok _ (cdr_cons _ _ _ _ (extends_lookup _ _ _ _ E1 Hc))).
    rewrite (IH fuel s1 d env (value_list_extends _ _ _ _ E1 Hd) Pvs
               (nil_allocated_extends _ _ E1 Hnil)).
    + unfold s1, lines_of. simpl. rewrite printed_printed. reflexivity.
    + eapply Forall_impl; [|exact Svs]. simpl. intros; lia.
    + lia.
Qed.

Lemma builtin_print_lines_witness :
  builtin_print 8 (Addr 8) NULL heap_values =
    Ok (nil_obj heap_values)
       (printed (lines_of [VFunc; VPair (VInt 1) (VInt 2); VNil])
          heap_values).
Proof.
  apply (builtin_print_lines [VFunc; VPair (VInt 1) (VInt 2); VNil]
           8 heap_values (Addr 8) NULL).
  - simpl. split; [discriminate|]. exists (Addr 5), (Addr 7).
    split; [reflexivity|]. split; [exists fn_car; reflexivity|].
    split; [discriminate|]. exists (Addr 4), (Addr 6).
    split; [reflexivity|]. split.
    + split; [discriminate|]. exists (Addr 2), (Addr 3). repeat split.
    + split; [discriminate|]. exists (Addr 0), (Addr 0). repeat split.
  - repeat constructor.
  - reflexivity.
  - repeat constructor; simpl; lia.
  - simpl. lia.
Defined.

(** ** White space and comments *)

Lemma shift_0 t : shift t 0 = t.
Proof. destruct t. unfold shift. simpl. f_equal. lia. Qed.

Lemma shift_shift t a b : shift (shift t a) b = shift t (a + b).
Proof. unfold shift. simpl. f_equal. lia. Qed.

Lemma advance_shift t : advance t = shift t 1.
Proof. unfold advance, shift. f_equal. lia. Qed.

Lemma rest_shift_app t l r : rest t = l ++ r -> rest (shift t (List.length l)) = r.
Proof.
  intros H. unfold shift. rewrite rest_shift, H.
  rewrite skipn_app, skipn_all, Nat.sub_diag. reflexivity.
Qed.

Lemma skip_comment_exact body : forall n t r,
  rest t = body ++ r ->
  comment_body body ->
  match r with [] => True | c :: _ => c = NUL \/ c = newline end ->
  List.length body <= n ->
  skip_comment n t = shift t (List.length body).
Proof.
  induction body as [|c body IH]; intros n t r Hr Hb Hend Hn.
  - simpl in Hr. rewrite shift_0.
    destruct n as [|n]; [reflexivity|]. cbn [skip_comment].
    rewrite cur_rest, Hr. destruct r as [|c r]; simpl hd.
    + reflexivity.
    + destruct Hend as [-> | ->]; reflexivity.
  - destruct n as [|n]; [simpl in Hn; lia|]. cbn [skip_comment].
    inversion Hb as [|? ? [H0 Hnl] Hb']; subst.
    rewrite cur_rest, Hr. simpl hd.
    apply Ascii.eqb_neq in H0, Hnl. rewrite H0, Hnl. simpl.
    rewrite (IH n (advance t) r); [| |exact Hb'|exact Hend|simpl in Hn; lia].
    + rewrite advance_shift, shift_shift. reflexivity.
    + rewrite rest_advance, Hr. reflexivity.
Qed.

Lemma skip_whitespace_loop_enough n : forall m t,
  List.length (rest t) < n ->
  List.length (rest t) < m ->
  skip_whitespace_loop n t = skip_whitespace_loop m t.
Proof.
  induction n as [|n IH]; intros m t Hn Hm; [lia|].
  destruct m as [|m]; [lia|]. cbn [skip_whitespace_loop].
  rewrite cur_rest. destruct (rest t) as [|c r] eqn:E; simpl hd.
  - reflexivity.
  - destruct (Ascii.eqb c NUL); [reflexivity|].
    destruct (isspace c).
    { apply IH; rewrite length_rest_advance, E; simpl in *; lia. }
    destruct (Ascii.eqb c ";") eqn:Hsemi; [|reflexivity].
    assert (Hlt : List.length (rest (skip_comment (List.length (input t)) t))
                  < List.length (rest t)).
    { pose proof (rest_length t) as Hlen. rewrite E in Hlen. simpl in Hlen.
      destruct (List.length (input t)) as [|k] eqn:Em; [lia|].
      cbn [skip_comment]. rewrite cur_rest, E. simpl hd.
      apply Ascii.eqb_eq in Hsemi. subst c.
      change (negb (Ascii.eqb ";" NUL) && negb (Ascii.eqb ";" newline)) with true.
      cbv iota.
      destruct (skip_comment_spec k (advance t)) as (_ & Hl' & _).
      { rewrite length_rest_advance, E. simpl. lia. }
      rewrite length_rest_advance, E in Hl'. simpl in *. lia. }
    apply IH; rewrite E in Hlt; simpl in *; lia.
Qed.

Lemma skip_whitespace_space t c r :
  rest t = c :: r -> isspace c = true ->
  skip_whitespace t = skip_whitespace (advance t).
Proof.
  intros Hr Hs. unfold skip_whitespace at 1. cbn [skip_whitespace_loop].
  rewrite cur_rest, Hr. simpl hd.
  assert (H0 : Ascii.eqb c NUL = false).
  { destruct (Ascii.eqb_spec c NUL) as [->|]; [discriminate | reflexivity]. }
  rewrite H0, Hs. unfold skip_whitespace.
  pose proof (rest_length t) as Hlen. rewrite Hr in Hlen. simpl in Hlen.
  apply skip_whitespace_loop_enough;
    rewrite length_rest_advance, Hr; simpl; lia.
Qed.

Lemma skip_whitespace_comment t body r :
  rest t = ";"%char :: body ++ r ->
  comment_body body ->
  match r with [] => True | c :: _ => c = NUL \/ c = newline end ->
  skip_whitespace t = skip_whitespace (shift t (S (List.length body))).
Proof.
  intros Hr Hb Hend. unfold skip_whitespace at 1. cbn [skip_whitespace_loop].
  rewrite cur_rest, Hr. simpl hd.
  change (Ascii.eqb ";" NUL) with false.
  change (isspace ";") with false.
  change (Ascii.eqb ";" ";") with true. cbv iota.
  pose proof (rest_length t) as Hlen. rewrite Hr in Hlen.
  simpl in Hlen. rewrite length_app in Hlen.
  rewrite (skip_comment_exact (";"%char :: body) _ t r Hr).
  - unfold skip_whitespace. simpl input.
    pose proof (rest_shift_app t (";"%char :: body) r Hr) as Hrs.
    apply skip_whitespace_loop_enough; simpl List.length in *;
      rewrite Hrs; lia.
  - constructor; [split; discriminate | exact Hb].
  - exact Hend.
  - simpl. lia.
Qed.

Lemma skip_whitespace_layout l : forall t r,
  layout l -> rest t = l ++ r ->
  skip_whitespace t = skip_whitespace (shift t (List.length l)).
Proof.
  intros t r Hl. revert t r.
  induction Hl as [|c l Hs Hl IH|body l Hb Hl IH]; intros t r Hr.
  - rewrite shift_0. reflexivity.
  - rewrite (skip_whitespace_space t c (l ++ r) Hr Hs).
    rewrite (IH (advance t) r) by (rewrite rest_advance, Hr; reflexivity).
    rewrite advance_shift, shift_shift. reflexivity.
  - simpl in Hr. rewrite <- app_assoc in Hr. simpl in Hr.
    rewrite (skip_whitespace_comment t body _ Hr Hb) by (right; reflexivity).
    change (S (List.length body)) with (List.length (";"%char :: body)).
    pose proof (rest_shift_app t (";"%char :: body) _ Hr) as Hrs.
    rewrite (skip_whitespace_space _ newline _ Hrs) by reflexivity.
    rewrite (IH (advance (shift t (List.length (";"%char :: body)))) r).
    + rewrite advance_shift, !shift_shift.
      cbn [List.length]. rewrite length_app. cbn [List.length].
      do 2 f_equal; lia.
    + rewrite rest_advance, Hrs. reflexivity.
Qed.

(** X16.  White space and comments before a token are skipped: after any
    layout, [read_token] reads what it would read with the tokenizer moved
    past it.  So an atom after layout is returned whole, up to the next
    white space, parenthesis or end of text; a [;] inside an atom does not
    start a comment. *)
Theorem read_token_skips_layout t l r :
  rest t = l ++ r ->
  layout l ->
  read_token t = read_token (shift t (List.length l)) /\
  forall tok r',
    r = tok ++ r' -> atom_text tok = true -> delimited r' ->
    read_token t = (Some tok, shift t (List.length l + List.length tok)).
Proof.
  intros Hr Hl.
  assert (Heq : read_token t = read_token (shift t (List.length l))).
  { unfold read_token. rewrite (skip_whitespace_layout l t r Hl Hr).
    reflexivity. }
  split; [exact Heq|].
  intros tok r' -> Htok Hd. rewrite Heq.
  rewrite (read_token_atom _ tok r' (rest_shift_app t l _ Hr) Htok Hd).
  unfold shift. simpl. do 2 f_equal; lia.
Qed.

Lemma read_token_skips_layout_witness :
  read_token (mkTokenizer (lit "  ;c" ++ newline :: lit " a;b) ") 0) =
    read_token (shift (mkTokenizer (lit "  ;c" ++ newline :: lit " a;b) ") 0)
                  (List.length (lit "  ;c" ++ newline :: lit " "))) /\
  forall tok r',
    lit "a;b) " = tok ++ r' -> atom_text tok = true -> delimited r' ->
    read_token (mkTokenizer (lit "  ;c" ++ newline :: lit " a;b) ") 0) =
      (Some tok,
       shift (mkTokenizer (lit "  ;c" ++ newline :: lit " a;b) ") 0)
         (List.length (lit "  ;c" ++ newline :: lit " ") + List.length tok)).
Proof.
  apply (read_token_skips_layout
           (mkTokenizer (lit "  ;c" ++ newline :: lit " a;b) ") 0)
           (lit "  ;c" ++ newline :: lit " ") (lit "a;b) ")).
  - reflexivity.
  - apply layout_space; [reflexivity|].
    apply layout_space; [reflexivity|].
    apply (layout_comment (lit "c") (lit " ")).
    + repeat constructor; discriminate.
    + apply layout_space; [reflexivity | apply layout_nil].
Defined.

Lemma read_token_blank t :
  blank (rest t) -> exists t', read_token t = (None, t').
Proof.
  intros (l & c & Hr & Hl & Hc).
  assert (Hend : forall u, rest u = [] -> read_token u = (None, u)).
  { intros u Hu. apply read_token_eof, Hu. }
  assert (Heq : read_token t = read_token (shift t (List.length l))).
  { unfold read_token. rewrite (skip_whitespace_layout l t c Hl Hr).
    reflexivity. }
  rewrite Heq.
  pose proof (rest_shift_app t l c Hr) as Hrs.
  destruct Hc as [-> | (body & -> & Hb)].
  - eexists. apply Hend, Hrs.
  - set (u := shift t (List.length l)) in *.
    assert (Hru : rest u = ";"%char :: body ++ []).
    { rewrite app_nil_r. exact Hrs. }
    exists (shift u (S (List.length body))).
    unfold read_token.
    rewrite (skip_whitespace_comment u body [] Hru Hb I).
    change (S (List.length body)) with (List.length (";"%char :: body)).
    pose proof (rest_shift_app u (";"%char :: body) [] Hru) as Hre.
    apply (Hend _ Hre).
Qed.

(** X17.  A text with no token in it (empty, white space, comments, a last
    comment without a newline) is ignored: [parse_expr] returns NULL, and
    the read-eval-print step neither evaluates nor prints anything; the
    state is as it was. *)
Theorem blank_input_is_ignored fuel text s :
  blank text ->
  (exists t', parse_expr (S fuel) (mkTokenizer text 0) s = Ok (NULL, t') s) /\
  repl_step (S fuel) text s = Ok NULL s.
Proof.
  intros Hb.
  destruct (read_token_blank (mkTokenizer text 0) Hb) as (t' & Ht).
  assert (Hp : parse_expr (S fuel) (mkTokenizer text 0) s = Ok (NULL, t') s).
  { cbn [parse_expr]. rewrite Ht. reflexivity. }
  split; [exists t'; exact Hp|].
  unfold repl_step. rewrite (bind_ok _ Hp). reflexivity.
Qed.

Lemma blank_input_is_ignored_witness :
  (exists t', parse_expr 1 (mkTokenizer (lit " ; (print 1)") 0) booted =
              Ok (NULL, t') booted) /\
  repl_step 1 (lit " ; (print 1)") booted = Ok NULL booted.
Proof.
  apply (blank_input_is_ignored 0 (lit " ; (print 1)") booted).
  exists (lit " "), (lit "; (print 1)").
  split; [reflexivity|]. split.
  - apply layout_space; [reflexivity | apply layout_nil].
  - right. exists (lit " (print 1)"). split; [reflexivity|].
    repeat constructor; discriminate.
Defined.

(** ** The quote mark *)

(** X18.  A quote mark that stands alone, before white space, a
    parenthesis or the end of the text, reads the expression after it and
    wraps it: the result is a new list of the new Symbol [quote] and that
    expression, and evaluating it, in any environment, gives the expression
    itself, unevaluated, and changes nothing. *)
Theorem quote_mark_reads_quote_form fuel t r s x t1 s1 :
  rest t = "'"%char :: r ->
  delimited r ->
  parse_expr fuel (advance t) s = Ok (x, t1) s1 ->
  room 3 s1 ->
  exists q s2,
    parse_expr (S fuel) t s = Ok (q, t1) s2 /\
    extends s1 s2 /\
    obj_count s2 = obj_count s1 + 3 /\
    (exists qs tl,
       lookup s2 q = Some (ObjCons qs tl) /\
       lookup s2 qs = Some (ObjSymbol "quote") /\
       lookup s2 tl = Some (ObjCons x (nil_obj s2))) /\
    forall n env, eval (S n) q env s2 = Ok x s2.
Proof.
  intros Hr Hd Hx Hroom.
  assert (Htok : read_token t = (Some (lit "'"), advance t)).
  { rewrite (read_token_atom t (lit "'") r Hr eq_refl Hd).
    unfold advance. simpl. do 2 f_equal. lia. }
  set (sa := store_obj (ObjSymbol "quote") s1).
  set (sb := store_obj (ObjCons x (nil_obj s1)) sa).
  set (sc := store_obj (ObjCons (Addr (obj_count s1)) (Addr (obj_count sa))) sb).
  assert (Ha : make_symbol "quote" s1 = Ok (Addr (obj_count s1)) sa).
  { apply make_symbol_ok. apply (room_le 3); [exact Hroom | lia]. }
  assert (Hb : cons x (nil_obj s1) sa = Ok (Addr (obj_count sa)) sb).
  { apply cons_ok. apply (room_le 2); [apply room_store, Hroom | lia]. }
  assert (Hc : cons (Addr (obj_count s1)) (Addr (obj_count sa)) sb =
               Ok (Addr (obj_count sb)) sc).
  { apply cons_ok. apply room_store. apply room_store. exact Hroom. }
  assert (Hq : lookup sc (Addr (obj_count sb)) =
               Some (ObjCons (Addr (obj_count s1)) (Addr (obj_count sa))))
    by apply lookup_store_new.
  assert (Hqs : lookup sc (Addr (obj_count s1)) = Some (ObjSymbol "quote")).
  { eapply extends_lookup; [|apply lookup_store_new].
    eapply extends_trans; apply extends_store. }
  assert (Htl : lookup sc (Addr (obj_count sa)) =
                Some (ObjCons x (nil_obj sc))).
  { eapply extends_lookup; [apply extends_store | apply lookup_store_new]. }
  exists (Addr (obj_count sb)), sc.
  split; [|split; [|split; [|split]]].
  - cbn [parse_expr]. rewrite Htok.
    change (streq (lit "'") (lit "(")) with false.
    change (streq (lit "'") (lit "'")) with true. cbv iota.
    rewrite (bind_ok _ Hx). cbv beta iota.
    rewrite (bind_ok _ Ha), (bind_ok _ (gets_run _ _)).
    change (nil_obj sa) with (nil_obj s1).
    rewrite (bind_ok _ Hb), (bind_ok _ Hc). reflexivity.
  - eapply extends_trans; [|apply extends_store].
    eapply extends_trans; apply extends_store.
  - unfold sc, sb, sa. rewrite !obj_count_store. lia.
  - eauto.
  - intros n env. cbn [eval].
    rewrite (bind_ok _ (deref_ok _ _ _ Hq)).
    rewrite (bind_ok _ (car_cons _ _ _ _ Hq)), (bind_ok _ (cdr_cons _ _ _ _ Hq)).
    rewrite (bind_ok _ (deref_ok _ _ _ Hqs)). cbv zeta.
    change (streq (lit "quote") (lit "quote")) with true. cbv iota.
    apply (car_cons _ _ _ _ Htl).
Qed.

Lemma quote_mark_reads_quote_form_witness :
  exists q s2,
    parse_expr 4 (mkTokenizer (lit "'(a)") 0) booted =
      Ok (q, mkTokenizer (lit "'(a)") 4) s2 /\
    extends (store_obj (ObjCons (Addr 42) (Addr 0))
               (store_obj (ObjSymbol "a") booted)) s2 /\
    obj_count s2 =
      obj_count (store_obj (ObjCons (Addr 42) (Addr 0))
                   (store_obj (ObjSymbol "a") booted)) + 3 /\
    (exists qs tl,
       lookup s2 q = Some (ObjCons qs tl) /\
       lookup s2 qs = Some (ObjSymbol "quote") /\
       lookup s2 tl = Some (ObjCons (Addr 43) (nil_obj s2))) /\
    forall n env, eval (S n) q env s2 = Ok (Addr 43) s2.
Proof.
  apply (quote_mark_reads_quote_form 3 (mkTokenizer (lit "'(a)") 0)
           (lit "(a)") booted (Addr 43) (mkTokenizer (lit "'(a)") 4)
           (store_obj (ObjCons (Addr 42) (Addr 0))
              (store_obj (ObjSymbol "a") booted))).
  - reflexivity.
  - reflexivity.
  - vm_compute. reflexivity.
  - unfold room. apply Nat.leb_le. vm_compute. reflexivity.
Defined.

Lemma is_num_quote tok : is_num ("'"%char :: tok) = false.
Proof. unfold is_num. simpl. reflexivity. Qed.

(** X19.  A quote mark written directly before the characters of an atom
    is no shorthand: the tokenizer takes it as the first character of the
    atom, and the reader makes one Symbol whose name starts with the mark;
    no quote form is built. *)
Theorem quote_mark_joined_to_atom fuel t tok r s :
  rest t = "'"%char :: tok ++ r ->
  tok <> [] ->
  forallb atom_char tok = true ->
  delimited r ->
  room 1 s ->
  parse_expr (S fuel) t s =
    Ok (Addr (obj_count s), shift t (S (List.length tok)))
       (store_obj (ObjSymbol ("'"%char :: tok)) s).
Proof.
  intros Hr Hne Hatom Hd Hroom.
  assert (Htext : atom_text ("'"%char :: tok) = true).
  { unfold atom_text. cbn [forallb]. rewrite Hatom. reflexivity. }
  assert (Hnq : streq ("'"%char :: tok) "'" = false).
  { destruct tok as [|c tok]; [contradiction | reflexivity]. }
  rewrite (parse_expr_atom fuel t ("'"%char :: tok) r s Hr Htext Hd Hnq Hroom).
  rewrite is_num_quote. reflexivity.
Qed.

Lemma quote_mark_joined_to_atom_witness :
  parse_expr 1 (mkTokenizer (lit "'a") 0) booted =
    Ok (Addr (obj_count booted),
        shift (mkTokenizer (lit "'a") 0) (S (List.length (lit "a"))))
       (store_obj (ObjSymbol ("'"%char :: lit "a")) booted).
Proof.
  apply (quote_mark_joined_to_atom 0 (mkTokenizer (lit "'a") 0) (lit "a") []
           booted).
  - reflexivity.
  - discriminate.
  - reflexivity.
  - exact I.
  - unfold room. apply Nat.leb_le. vm_compute. reflexivity.
Defined.

(** ** The shape of the heap *)

Lemma valid_ptr_mono n m p : n <= m -> valid_ptr n p -> valid_ptr m p.
Proof. destruct p; simpl; [auto | lia]. Qed.

Lemma valid_obj_mono n m o : n <= m -> valid_obj n o -> valid_obj m o.
Proof.
  intros H. destruct o; simpl; auto; intuition eauto using valid_ptr_mono.
Qed.

Lemma well_formed_lookup s p o :
  well_formed s -> lookup s p = Some o -> valid_obj (obj_count s) o.
Proof.
  intros (Hold & _) Hp. destruct p as [|a]; [discriminate|]. simpl in Hp.
  apply (valid_obj_mono a); [|apply (Hold _ _ Hp)].
  apply Nat.lt_le_incl, nth_error_Some. congruence.
Qed.

Lemma well_formed_store o s :
  well_formed s -> valid_obj (obj_count s) o -> well_formed (store_obj o s).
Proof.
  intros (Hold & Hn & Ht & Hg) Ho. unfold well_formed.
  rewrite obj_count_store. simpl.
  split; [|split; [|split]].
  - intros i x Hi. unfold store_obj in Hi. simpl in Hi.
    destruct (Nat.lt_ge_cases i (List.length (all_objs s))) as [Hlt|Hge].
    + rewrite nth_error_app1 in Hi by exact Hlt. apply (Hold _ _ Hi).
    + rewrite nth_error_app2 in Hi by exact Hge.
      destruct (i - List.length (all_objs s)) as [|k] eqn:E.
      * simpl in Hi. inversion Hi; subst x.
        assert (i = obj_count s) by (unfold obj_count; lia). subst i.
        exact Ho.
      * simpl in Hi. destruct k; discriminate.
  - eapply valid_ptr_mono; [|exact Hn]. lia.
  - eapply valid_ptr_mono; [|exact Ht]. lia.
  - destruct (global_env_ptr s); [|exact I].
    eapply valid_ptr_mono; [|exact Hg]. lia.
Qed.

Lemma sound_ret {A} (Q : nat -> A -> Prop) n a :
  (forall k, n <= k -> Q k a) -> sound_at Q n (ret a).
Proof. intros H s a' s' Hw Hn E. inversion E; subst. auto. Qed.

Lemma sound_fault {A} (Q : nat -> A -> Prop) n : sound_at Q n fault.
Proof. intros s a s' _ _ E. discriminate. Qed.

Lemma sound_timeout {A} (Q : nat -> A -> Prop) n : sound_at Q n timeout.
Proof. intros s a s' _ _ E. discriminate. Qed.

Lemma sound_exit {A} (Q : nat -> A -> Prop) n c : sound_at Q n (exit c).
Proof. intros s a s' _ _ E. discriminate. Qed.

Lemma sound_fprintf_stderr n line : sound_at any_value n (fprintf_stderr line).
Proof.
  intros s a s' Hw Hn E. inversion E; subst. destruct s.
  split; [exact Hw | split; [apply le_n | exact I]].
Qed.

Lemma sound_printf n text : sound_at any_value n (printf text).
Proof.
  intros s a s' Hw Hn E. inversion E; subst. destruct s.
  split; [exact Hw | split; [apply le_n | exact I]].
Qed.

Lemma sound_gets_nil_obj n : sound_at valid_ptr n (gets nil_obj).
Proof.
  intros s a s' Hw Hn E. inversion E; subst.
  split; [exact Hw|]. split; [lia | apply Hw].
Qed.

Lemma sound_gets_t_obj n : sound_at valid_ptr n (gets t_obj).
Proof.
  intros s a s' Hw Hn E. inversion E; subst.
  split; [exact Hw|]. split; [lia | apply Hw].
Qed.

Lemma sound_gets_global_env_ptr n : sound_at valid_option n (gets global_env_ptr).
Proof.
  intros s a s' Hw Hn E. inversion E; subst.
  split; [exact Hw|]. split; [lia | apply Hw].
Qed.

Lemma sound_set_global_env n e :
  valid_ptr n e -> sound_at any_value n (set_global_env e).
Proof.
  intros He s a s' Hw Hn E. inversion E; subst.
  destruct Hw as (Hold & Hnil & Ht & _). destruct s.
  split; [|split; [apply le_n | exact I]].
  split; [exact Hold|]. split; [exact Hnil|]. split; [exact Ht|].
  simpl. eapply valid_ptr_mono; [|exact He]. exact Hn.
Qed.

Lemma sound_deref n p : sound_at valid_obj n (deref p).
Proof.
  intros s a s' Hw Hn E. unfold deref in E.
  destruct (lookup s p) eqn:Hp; inversion E; subst.
  split; [exact Hw|]. split; [lia|]. eapply well_formed_lookup; eauto.
Qed.

Lemma sound_alloc_obj n o : valid_obj n o -> sound_at valid_ptr n (alloc_obj o).
Proof.
  intros Ho s a s' Hw Hn E. unfold alloc_obj, bind, gets in E.
  destruct (MAX_OBJS <=? obj_count s); simpl in E; inversion E; subst.
  rewrite obj_count_store. split; [|split; [lia | simpl; lia]].
  apply well_formed_store; [exact Hw|]. eapply valid_obj_mono; eauto.
Qed.

Lemma sound_bind {A B} (Qa : nat -> A -> Prop) (Qb : nat -> B -> Prop)
    n (m : M A) (f : A -> M B) :
  sound_at Qa n m ->
  (forall a k, n <= k -> Qa k a -> sound_at Qb k (f a)) ->
  sound_at Qb n (bind m f).
Proof.
  intros Hm Hf s b s' Hw Hn E. unfold bind in E.
  destruct (m s) as [a s1| | |] eqn:Em; try discriminate.
  destruct (Hm s a s1 Hw Hn Em) as (Hw1 & Hc1 & Ha).
  destruct (Hf a (obj_count s1) ltac:(lia) Ha s1 b s' Hw1 (le_n _) E)
    as (Hw2 & Hc2 & Hb).
  split; [exact Hw2|]. split; [lia | exact Hb].
Qed.

Lemma sound_weaken {A} (Q : nat -> A -> Prop) n k (m : M A) :
  n <= k -> sound_at Q n m -> sound_at Q k m.
Proof. intros Hk H s a s' Hw Hn E. apply (H s a s' Hw); [lia | exact E]. Qed.

Lemma sound_any {A} (Q : nat -> A -> Prop) n (m : M A) :
  sound_at Q n m -> sound_at any_value n m.
Proof.
  intros H s a s' Hw Hn E. destruct (H s a s' Hw Hn E) as (H1 & H2 & _).
  split; [exact H1 | split; [exact H2 | exact I]].
Qed.

Create HintDb sound.

#[local] Hint Resolve sound_fault sound_timeout sound_exit
  sound_fprintf_stderr sound_printf sound_gets_nil_obj sound_gets_t_obj
  sound_gets_global_env_ptr sound_set_global_env sound_deref
  sound_alloc_obj : sound.

#[local] Hint Extern 1 (valid_ptr _ _) => eassumption : sound.
#[local] Hint Extern 1 (valid_obj _ _) => simpl; intuition eassumption : sound.
#[local] Hint Extern 1 (any_value _ _) => exact I : sound.

Ltac level_up :=
  repeat match goal with
  | Hk : ?n <= ?k, H : valid_ptr ?n ?x |- _ =>
      apply (valid_ptr_mono n k x Hk) in H
  end.

Ltac unpack :=
  repeat match goal with
  | H : valid_obj _ (ObjCons _ _) |- _ => simpl in H
  | H : valid_obj _ (ObjLambda _ _ _) |- _ => simpl in H
  | H : valid_obj _ _ |- _ => clear H
  | H : valid_option _ (Some _) |- _ => simpl in H
  | H : valid_option _ None |- _ => clear H
  | H : valid_parse _ (_, _) |- _ => unfold valid_parse in H; simpl in H
  | H : any_value _ _ |- _ => clear H
  | H : _ /\ _ |- _ => destruct H
  end.

Ltac sound_step :=
  match goal with
  | |- sound_at _ _ (bind _ _) =>
      eapply sound_bind;
      [| let a := fresh "a" in let k := fresh "k" in
         let Hk := fresh "Hk" in let Ha := fresh "Ha" in
         intros a k Hk Ha; level_up ]
  | |- sound_at _ _ (if ?b then _ else _) => destruct b
  | |- sound_at _ _ (match ?x with _ => _ end) => destruct x; unpack; level_up
  | |- sound_at _ _ (make_lambda _ _ (match ?x with _ => _ end)) =>
      destruct x; unpack; level_up
  | |- sound_at _ _ (ret tt) =>
      apply (sound_ret any_value); intros; exact I
  | |- sound_at _ _ (ret _) =>
      apply sound_ret; intros;
      solve [ exact I
            | eapply valid_ptr_mono; eassumption
            | unfold valid_parse; cbn [fst];
              solve [ exact I | eapply valid_ptr_mono; eassumption ] ]
  end.

Ltac sound_tac :=
  repeat first [ solve [eauto with sound] | sound_step ].

Lemma sound_is_nil n p : sound_at any_value n (is_nil p).
Proof. unfold is_nil. sound_tac. Qed.

Lemma sound_car n p : sound_at valid_ptr n (car p).
Proof. unfold car. sound_tac. Qed.

Lemma sound_cdr n p : sound_at valid_ptr n (cdr p).
Proof. unfold cdr. sound_tac. Qed.

Lemma sound_sym_of n p : sound_at any_value n (sym_of p).
Proof. unfold sym_of. sound_tac. Qed.

Lemma sound_make_int n z : sound_at valid_ptr n (make_int z).
Proof. apply sound_alloc_obj. exact I. Qed.

Lemma sound_make_symbol n name : sound_at valid_ptr n (make_symbol name).
Proof. apply sound_alloc_obj. exact I. Qed.

Lemma sound_make_func n f : sound_at valid_ptr n (make_func f).
Proof. apply sound_alloc_obj. exact I. Qed.

Lemma sound_cons n a d :
  valid_ptr n a -> valid_ptr n d -> sound_at valid_ptr n (cons a d).
Proof. intros Ha Hd. apply sound_alloc_obj. split; assumption. Qed.

Lemma sound_make_lambda n params body env :
  valid_ptr n params -> valid_ptr n body -> valid_ptr n env ->
  sound_at valid_ptr n (make_lambda params body env).
Proof. intros Hp Hb He. apply sound_alloc_obj. simpl. auto. Qed.

#[local] Hint Resolve sound_is_nil sound_car sound_cdr sound_sym_of
  sound_make_int sound_make_symbol sound_make_func sound_cons
  sound_make_lambda : sound.

Lemma sound_env_define n env name value :
  valid_ptr n env -> valid_ptr n value ->
  sound_at valid_ptr n (env_define env name value).
Proof. intros He Hv. unfold env_define. sound_tac. Qed.

Lemma sound_env_lookup fuel : forall n env name,
  sound_at valid_ptr n (env_lookup fuel env name).
Proof. induction fuel as [|fuel IH]; intros; simpl; sound_tac. Qed.

Lemma sound_print_obj fuel :
  (forall n p, sound_at any_value n (print_obj fuel p)) /\
  (forall n p, sound_at any_value n (print_tail fuel p)).
Proof.
  induction fuel as [|fuel [IH1 IH2]]; split; intros; simpl; sound_tac.
Qed.

#[local] Hint Resolve sound_env_define sound_env_lookup : sound.

Lemma sound_bind_params fuel : forall n e ps vs,
  valid_ptr n e -> sound_at valid_ptr n (bind_params fuel e ps vs).
Proof. induction fuel as [|fuel IH]; intros; simpl; sound_tac. Qed.

Lemma sound_add_loop fuel : forall n acc args,
  sound_at valid_ptr n (add_loop fuel acc args).
Proof. induction fuel as [|fuel IH]; intros; simpl; sound_tac. Qed.

Lemma sound_sub_loop fuel : forall n acc args,
  sound_at valid_ptr n (sub_loop fuel acc args).
Proof. induction fuel as [|fuel IH]; intros; simpl; sound_tac. Qed.

Lemma sound_mul_loop fuel : forall n acc args,
  sound_at valid_ptr n (mul_loop fuel acc args).
Proof. induction fuel as [|fuel IH]; intros; simpl; sound_tac. Qed.

Lemma sound_div_loop fuel : forall n acc args,
  sound_at valid_ptr n (div_loop fuel acc args).
Proof. induction fuel as [|fuel IH]; intros; simpl; sound_tac. Qed.

Lemma sound_builtin_print fuel : forall n args env,
  sound_at valid_ptr n (builtin_print fuel args env).
Proof.
  pose proof sound_print_obj as Hp.
  induction fuel as [|fuel IH]; intros; simpl; sound_tac.
  apply Hp.
Qed.

#[local] Hint Resolve sound_bind_params sound_add_loop sound_sub_loop
  sound_mul_loop sound_div_loop sound_builtin_print : sound.

Lemma sound_call_builtin f fuel n args env :
  sound_at valid_ptr n (call_builtin f fuel args env).
Proof.
  destruct f; simpl;
    unfold builtin_car, builtin_cdr, builtin_cons, builtin_add, builtin_sub,
      builtin_mul, builtin_div, builtin_eq, builtin_lt;
    sound_tac.
Qed.

#[local] Hint Resolve sound_call_builtin : sound.

Lemma sound_eval_both fuel :
  (forall n expr env,
     valid_ptr n expr -> valid_ptr n env ->
     sound_at valid_ptr n (eval fuel expr env)) /\
  (forall n l env,
     valid_ptr n env -> sound_at valid_ptr n (eval_list fuel l env)).
Proof.
  induction fuel as [|fuel [IH1 IH2]]; split; intros; simpl; cbv zeta;
    sound_tac.
Qed.

Lemma sound_parse_both fuel :
  (forall n t, sound_at valid_parse n (parse_expr fuel t)) /\
  (forall n t, sound_at valid_parse n (parse_list fuel t)).
Proof.
  induction fuel as [|fuel [IH1 IH2]]; split; intros; simpl; sound_tac.
Qed.

Lemma sound_repl_step fuel n text : sound_at valid_ptr n (repl_step fuel text).
Proof.
  pose proof (proj1 (sound_parse_both fuel)) as Hparse.
  pose proof (proj1 (sound_eval_both fuel)) as Heval.
  pose proof (proj1 (sound_print_obj fuel)) as Hprint.
  unfold repl_step. sound_tac.
Qed.

Lemma well_formed_start : well_formed start.
Proof.
  split; [|simpl; auto]. intros i o H. destruct i; discriminate.
Qed.

Lemma sound_set_nil_obj n p : valid_ptr n p -> sound_at any_value n (set_nil_obj p).
Proof.
  intros Hp s a s' Hw Hn E. inversion E; subst.
  destruct Hw as (Hold & _ & Ht & Hg). destruct s.
  split; [|split; [apply le_n | exact I]].
  split; [exact Hold|]. split; [|split; [exact Ht | exact Hg]].
  simpl. eapply valid_ptr_mono; [|exact Hp]. exact Hn.
Qed.

Lemma sound_set_t_obj n p : valid_ptr n p -> sound_at any_value n (set_t_obj p).
Proof.
  intros Hp s a s' Hw Hn E. inversion E; subst.
  destruct Hw as (Hold & Hnil & _ & Hg). destruct s.
  split; [|split; [apply le_n | exact I]].
  split; [exact Hold|]. split; [exact Hnil|]. split; [|exact Hg].
  simpl. eapply valid_ptr_mono; [|exact Hp]. exact Hn.
Qed.

#[local] Hint Resolve sound_set_nil_obj sound_set_t_obj : sound.

Lemma sound_init_env n : sound_at valid_ptr n init_env.
Proof. unfold init_env. sound_tac. Qed.

Lemma sound_repl_init n : sound_at any_value n repl_init.
Proof.
  pose proof sound_init_env as Hi. unfold repl_init. sound_tac.
Qed.

Lemma well_formed_booted : well_formed booted.
Proof.
  apply (sound_repl_init 0 start tt booted well_formed_start (le_0_n _)).
  vm_compute. reflexivity.
Qed.

(** X20.  The heap stays well formed: every object points only to objects
    allocated before it, so no structure is cyclic and no pointer leads
    out of the table.  Reading, evaluating and a whole read-eval-print step
    keep that, and what they return is NULL or an object of the table. *)
Theorem heap_stays_well_formed fuel s :
  well_formed s ->
  (forall t r s',
     parse_expr fuel t s = Ok r s' ->
     well_formed s' /\ valid_ptr (obj_count s') (fst r)) /\
  (forall expr env v s',
     valid_ptr (obj_count s) expr -> valid_ptr (obj_count s) env ->
     eval fuel expr env s = Ok v s' ->
     well_formed s' /\ valid_ptr (obj_count s') v) /\
  (forall text v s',
     repl_step fuel text s = Ok v s' ->
     well_formed s' /\ valid_ptr (obj_count s') v).
Proof.
  intros Hw. split; [|split].
  - intros t r s' E.
    destruct (proj1 (sound_parse_both fuel) 0 t s r s' Hw (le_0_n _) E)
      as (H1 & _ & H2).
    split; assumption.
  - intros expr env v s' He Hv E.
    destruct (proj1 (sound_eval_both fuel) _ expr env He Hv s v s' Hw
                (le_n _) E) as (H1 & _ & H2).
    split; assumption.
  - intros text v s' E.
    destruct (sound_repl_step fuel 0 text s v s' Hw (le_0_n _) E)
      as (H1 & _ & H2).
    split; assumption.
Qed.

Lemma heap_stays_well_formed_witness :
  (forall t r s',
     parse_expr 5 t heap_values = Ok r s' ->
     well_formed s' /\ valid_ptr (obj_count s') (fst r)) /\
  (forall expr env v s',
     valid_ptr (obj_count heap_values) expr ->
     valid_ptr (obj_count heap_values) env ->
     eval 5 expr env heap_values = Ok v s' ->
     well_formed s' /\ valid_ptr (obj_count s') v) /\
  (forall text v s',
     repl_step 5 text heap_values = Ok v s' ->
     well_formed s' /\ valid_ptr (obj_count s') v).
Proof.
  apply (heap_stays_well_formed 5 heap_values).
  split.
  - intros i o H.
    do 9 (destruct i as [|i];
          [inversion H; subst; simpl; intuition lia|]).
    destruct i; discriminate.
  - unfold heap_values, obj_count. simpl. intuition lia.
Defined.

(** ** Termination of the printer *)

Lemma bind_not_timeout {A B} (m : M A) (f : A -> M B) s :
  m s <> Timeout ->
  (forall a s1, m s = Ok a s1 -> f a s1 <> Timeout) ->
  bind m f s <> Timeout.
Proof.
  intros Hm Hf. unfold bind. destruct (m s) as [a s1| | |] eqn:E;
    try discriminate; [apply Hf; reflexivity | contradiction].
Qed.

Lemma rank_older a p : valid_ptr a p -> rank p <= a.
Proof. destruct p; simpl; lia. Qed.

Lemma well_formed_printed text s : well_formed s -> well_formed (printed text s).
Proof. destruct s. exact (fun H => H). Qed.

Lemma well_formed_children s a x d :
  well_formed s -> lookup s (Addr a) = Some (ObjCons x d) ->
  rank x <= a /\ rank d <= a.
Proof.
  intros (Hold & _) H. simpl in H. destruct (Hold _ _ H) as [Hx Hd].
  split; apply rank_older; assumption.
Qed.

Lemma print_pair_not_timeout fuel s a x d pre :
  well_formed s ->
  lookup s (Addr a) = Some (ObjCons x d) ->
  (forall s0, well_formed s0 -> print_obj fuel x s0 <> Timeout) ->
  (forall s0, well_formed s0 -> print_tail fuel d s0 <> Timeout) ->
  forall k : M unit, (forall s0, k s0 <> Timeout) ->
  (printf pre ;; x0 <- car (Addr a) ;; print_obj fuel x0 ;;
   d0 <- cdr (Addr a) ;; print_tail fuel d0 ;; k) s <> Timeout.
Proof.
  intros Hw Hp Hx Hd k Hk.
  rewrite (bind_ok _ (printf_run _ _)).
  pose proof (extends_lookup _ _ _ _ (extends_printed pre s) Hp) as Hp1.
  rewrite (bind_ok _ (car_cons _ _ _ _ Hp1)).
  pose proof (well_formed_printed pre s Hw) as Hw1.
  apply bind_not_timeout; [apply Hx, Hw1|].
  intros [] s2 E2.
  pose proof (proj1 (stable_print_obj fuel) x _ _ _ E2) as Hext.
  pose proof (extends_lookup _ _ _ _ Hext Hp1) as Hp2.
  rewrite (bind_ok _ (cdr_cons _ _ _ _ Hp2)).
  destruct (proj1 (sound_print_obj fuel) 0 x _ _ _ Hw1 (le_0_n _) E2)
    as (Hw2 & _).
  apply bind_not_timeout; [apply Hd, Hw2|].
  intros [] s3 _. apply Hk.
Qed.

Lemma print_not_timeout fuel : forall s p,
  well_formed s ->
  (2 * rank p < fuel -> print_obj fuel p s <> Timeout) /\
  (2 * rank p + 1 < fuel -> print_tail fuel p s <> Timeout).
Proof.
  induction fuel as [|fuel IH]; intros s p Hw; [split; lia|].
  assert (IHobj : forall q, 2 * rank q < fuel ->
            forall s0, well_formed s0 -> print_obj fuel q s0 <> Timeout).
  { intros q Hq s0 H0. apply (proj1 (IH s0 q H0) Hq). }
  assert (IHtail : forall q, 2 * rank q + 1 < fuel ->
            forall s0, well_formed s0 -> print_tail fuel q s0 <> Timeout).
  { intros q Hq s0 H0. apply (proj2 (IH s0 q H0) Hq). }
  split; intros Hf.
  - destruct p as [|a]; [discriminate|]. rewrite print_obj_S.
    unfold deref at 1. unfold bind at 1.
    destruct (lookup s (Addr a)) as [o|] eqn:Hp; [|discriminate].
    destruct o as [n|name|x d|f|ps b e]; try discriminate.
    destruct (well_formed_children _ _ _ _ Hw Hp) as [Rx Rd]. simpl in Hf.
    apply (print_pair_not_timeout fuel s a x d (lit "(") Hw Hp).
    + apply IHobj. lia.
    + apply IHtail. lia.
    + intros s0. discriminate.
  - rewrite print_tail_S. rewrite (bind_ok _ (is_nil_run _ _)).
    destruct (ptr_eqb p (nil_obj s)); [discriminate|].
    unfold deref at 1. unfold bind at 1.
    destruct (lookup s p) as [o|] eqn:Hp; [|discriminate].
    destruct (lookup_valid _ _ _ Hp) as (a & -> & _). simpl in Hf.
    assert (Hleaf : (printf (lit " . ") ;; print_obj fuel (Addr a)) s
                    <> Timeout).
    { rewrite (bind_ok _ (printf_run _ _)).
      apply IHobj; [simpl; lia | apply well_formed_printed, Hw]. }
    destruct o as [n|name|x d|f|ps b e]; try exact Hleaf.
    destruct (well_formed_children _ _ _ _ Hw Hp) as [Rx Rd].
    pose proof (print_pair_not_timeout fuel s a x d (lit " ") Hw Hp
                  (IHobj x ltac:(lia)) (IHtail d ltac:(lia))
                  (ret tt) ltac:(discriminate)) as H.
    intros E. apply H. rewrite <- E.
    apply bind_congr. intros ? ? _. apply bind_congr. intros ? ? _.
    apply bind_congr. intros ? ? _. apply bind_congr. intros ? ? _.
    unfold bind. destruct (print_tail fuel _ _) as [[] ?| | |]; reflexivity.
Qed.

(** X21.  Printing comes to an end on every value of a well-formed heap:
    the printer only ever moves on to older objects, so with fuel beyond
    twice the number of objects it never runs out of fuel. *)
Theorem print_obj_terminates fuel s p :
  well_formed s ->
  valid_ptr (obj_count s) p ->
  2 * obj_count s < fuel ->
  print_obj fuel p s <> Timeout.
Proof.
  intros Hw Hp Hfuel.
  apply (proj1 (print_not_timeout fuel s p Hw)).
  apply rank_older in Hp. lia.
Qed.

Lemma print_obj_terminates_witness :
  print_obj 19 (Addr 8) heap_values <> Timeout.
Proof.
  apply (print_obj_terminates 19 heap_values (Addr 8)).
  - split.
    + intros i o H.
      do 9 (destruct i as [|i];
            [inversion H; subst; simpl; intuition lia|]).
      destruct i; discriminate.
    + unfold heap_values, obj_count. simpl. intuition lia.
  - unfold heap_values, obj_count. simpl. lia.
  - unfold heap_values, obj_count. simpl. lia.
Defined.

Lemma sound_repl_steps fuel texts : forall n last,
  valid_ptr n last -> sound_at valid_ptr n (repl_steps fuel texts last).
Proof.
  pose proof (sound_repl_step fuel) as Hstep.
  induction texts as [|text texts IH]; intros; simpl; sound_tac.
Qed.

Lemma session_unfold fuel texts :
  session fuel texts = (repl_init ;; repl_steps fuel texts NULL) start.
Proof. unfold session. reflexivity. Qed.

Lemma sound_session fuel texts s0 v s :
  well_formed s0 ->
  (repl_init ;; repl_steps fuel texts NULL) s0 = Ok v s ->
  well_formed s /\ valid_ptr (obj_count s) v.
Proof.
  intros Hw0 E.
  apply bind_inv in E. destruct E as (u & s1 & E0 & E).
  destruct (sound_repl_init 0 s0 u s1 Hw0 (le_0_n _) E0) as (Hw & _).
  destruct (sound_repl_steps fuel texts 0 NULL I s1 v s Hw (le_0_n _) E)
    as (Hw' & _ & Hv).
  split; assumption.
Qed.

(** X22.  Start-up builds a well-formed heap, and it stays well formed over
    any number of inputs: in every state a session reaches, each object
    points only to older objects, and the value of the last input is NULL
    or an object of the table. *)
Theorem session_heap_well_formed fuel texts v s :
  session fuel texts = Ok v s ->
  well_formed s /\ valid_ptr (obj_count s) v.
Proof.
  intros E. rewrite session_unfold in E.
  apply (sound_session fuel texts start v s well_formed_start E).
Qed.

Lemma session_heap_well_formed_witness :
  well_formed after_cons /\ valid_ptr (obj_count after_cons) (Addr 54).
Proof.
  apply (session_heap_well_formed 20 [lit "(cons 1 (quote (2)))"]).
  vm_compute. reflexivity.
Defined.

(** ** The line reader *)

Lemma c_str_idem b : c_str (c_str b) = c_str b.
Proof.
  induction b as [|c b IH]; simpl; [reflexivity|].
  destruct (Ascii.eqb c NUL) eqn:E; simpl; [reflexivity|].
  rewrite E, IH. reflexivity.
Qed.

Lemma c_str_app a b : c_str (c_str a ++ b) = c_str a ++ c_str b.
Proof.
  induction a as [|c a IH]; simpl; [reflexivity|].
  destruct (Ascii.eqb c NUL) eqn:E; simpl; [reflexivity|].
  rewrite E, IH. reflexivity.
Qed.

Lemma strcat_c_str a b : c_str (strcat a b) = strcat a b.
Proof. unfold strcat. rewrite c_str_app, c_str_idem. reflexivity. Qed.

Lemma strlen_strcat a b : strlen (strcat a b) = strlen a + strlen b.
Proof. unfold strlen. rewrite strcat_c_str. unfold strcat. apply length_app. Qed.

Lemma strcat_nil b : strcat [] b = c_str b.
Proof. reflexivity. Qed.

Lemma is_empty_loop_c_str line : forall ic,
  is_empty_loop ic (c_str line) = is_empty_loop ic line.
Proof.
  induction line as [|c line IH]; intros ic; simpl; [reflexivity|].
  destruct (Ascii.eqb c NUL) eqn:E; simpl; [reflexivity|].
  rewrite E, IH. reflexivity.
Qed.

(** What the blank-line test lets through has content. *)
Lemma is_empty_has_content line : forall ic ic',
  (ic' = true -> ic = true) ->
  is_empty_loop ic line = false ->
  has_content_loop ic' (c_str line) = true.
Proof.
  induction line as [|c line IH]; intros ic ic' Hic H; simpl in *;
    [discriminate|].
  destruct (Ascii.eqb c NUL) eqn:E0; [discriminate|].
  simpl. rewrite E0.
  destruct (Ascii.eqb_spec c ";") as [->|Hsemi].
  - change (Ascii.eqb ";" newline) with false. simpl in *.
    apply (IH true true); auto.
  - destruct (Ascii.eqb_spec c newline) as [->|Hnl].
    + change (isspace newline) with true in *.
      rewrite andb_false_r in H. simpl.
      apply (IH ic false); [discriminate | exact H].
    + destruct ic'.
      * rewrite (Hic eq_refl) in H. simpl in *. apply (IH true true); auto.
      * simpl. destruct (isspace c) eqn:Hs; simpl; [|reflexivity].
        rewrite andb_false_r in H. apply (IH ic false); [discriminate | exact H].
Qed.

Lemma is_empty_strlen line : is_empty line = false -> 0 < strlen line.
Proof.
  unfold is_empty, strlen. destruct line as [|c line]; simpl; [discriminate|].
  destruct (Ascii.eqb c NUL); [discriminate | simpl; lia].
Qed.

Lemma has_content_app a : forall ic b,
  has_content_loop ic (c_str a) = true ->
  has_content_loop ic (c_str a ++ b) = true.
Proof.
  induction a as [|c a IH]; intros ic b H; simpl in *; [discriminate|].
  destruct (Ascii.eqb c NUL) eqn:E0; simpl in *; [discriminate|].
  rewrite E0 in *.
  destruct (negb _ && negb (isspace c)); [reflexivity|].
  apply IH, H.
Qed.

(** A line that stands on its own is handed over as it is. *)
Lemma read_lines_complete line stdin s :
  complete line ->
  read_lines (line :: stdin) [] 0%Z true s = Ok (Some (c_str line), stdin) s.
Proof.
  intros (He & Hd & Hlen). cbn [read_lines].
  rewrite He. cbn [andb].
  change (strlen []) with 0. cbn [Nat.add].
  apply Nat.ltb_lt in Hlen. rewrite Hlen, strcat_nil, Hd.
  change (0 =? 0)%Z with true. cbn [andb].
  pose proof (is_empty_strlen _ He) as Hpos.
  unfold strlen in *. rewrite c_str_idem.
  apply Nat.ltb_lt in Hpos. rewrite Hpos. cbn [andb].
  unfold has_content.
  rewrite (is_empty_has_content line false false (fun H => H) He).
  reflexivity.
Qed.

Lemma read_lines_blank line stdin s :
  is_empty line = true ->
  read_lines (line :: stdin) [] 0%Z true s = Ok (Some [], stdin) s.
Proof. intros He. cbn [read_lines]. rewrite He. reflexivity. Qed.

(** X23.  When every line of the input is blank (white space, a comment)
    or holds balanced parentheses and fits the buffer, the loop of [repl]
    takes the lines one at a time: it writes the prompt, skips a blank
    line, and runs one read-eval-print step on any other; at the end of
    the input it writes the prompt and a newline, and returns. *)
Theorem repl_loop_one_line_each fuel lines : forall n s,
  Forall (fun line => is_empty line = true \/ complete line) lines ->
  List.length lines < n ->
  repl_loop n fuel lines s = one_per_line fuel lines s.
Proof.
  induction lines as [|line lines IH]; intros n s Hall Hn;
    (destruct n as [|n]; [simpl in Hn; lia|]); cbn [repl_loop one_per_line].
  - rewrite !(bind_ok _ (printf_run _ _)). reflexivity.
  - inversion Hall as [|? ? Hline Hrest]; subst.
    rewrite !(bind_ok _ (printf_run _ _)).
    assert (Hn' : List.length lines < n) by (simpl in Hn; lia).
    destruct (is_empty line) eqn:He.
    + rewrite (bind_ok _ (read_lines_blank _ _ _ He)).
      change (strlen [] =? 0) with true. cbv iota.
      rewrite (bind_ok _ (eq_refl : ret tt _ = Ok tt _)).
      apply IH; assumption.
    + destruct Hline as [Hb | Hc]; [congruence|].
      rewrite (bind_ok _ (read_lines_complete _ _ _ Hc)).
      pose proof (is_empty_strlen _ He) as Hpos.
      assert (Hz : (strlen (c_str line) =? 0) = false).
      { apply Nat.eqb_neq. unfold strlen in *. rewrite c_str_idem. lia. }
      cbv iota. rewrite Hz.
      rewrite !bind_assoc. apply bind_congr. intros v s1 _.
      rewrite (bind_ok _ (eq_refl : ret tt _ = Ok tt _)).
      apply IH; assumption.
Qed.

Lemma repl_loop_one_line_each_witness :
  repl_loop 3 20 [lit "; a comment" ++ [newline]; lit "(cons 1 2)" ++ [newline]]
    booted =
  one_per_line 20 [lit "; a comment" ++ [newline]; lit "(cons 1 2)" ++ [newline]]
    booted.
Proof.
  apply (repl_loop_one_line_each 20
           [lit "; a comment" ++ [newline]; lit "(cons 1 2)" ++ [newline]]
           3 booted).
  - constructor; [left; reflexivity|].
    constructor; [|constructor].
    right. split; [reflexivity|]. split; [reflexivity|].
    apply Nat.ltb_lt. vm_compute. reflexivity.
  - simpl. lia.
Defined.

Lemma joined_snoc ls l : joined (ls ++ [l]) = joined ls ++ c_str l.
Proof.
  unfold joined. rewrite map_app, concat_app. simpl.
  rewrite app_nil_r. reflexivity.
Qed.

Lemma joined_one l : joined [l] = c_str l.
Proof. unfold joined. simpl. apply app_nil_r. Qed.

Lemma joined_cons l ls : joined (l :: ls) = c_str l ++ joined ls.
Proof. reflexivity. Qed.

Lemma joined_c_str ls : c_str (joined ls) = joined ls.
Proof.
  induction ls as [|l ls IH]; [reflexivity|].
  unfold joined in *. simpl. rewrite c_str_app, IH. reflexivity.
Qed.

Lemma append_line_c_str input line :
  c_str input = input -> c_str (append_line input line) = append_line input line.
Proof.
  intros Hin. unfold append_line.
  destruct (strlen input + strlen line <? INPUT_SIZE - 1);
    [apply strcat_c_str | exact Hin].
Qed.

Lemma buffer_after_prefix lines : forall input,
  c_str input = input ->
  exists tail, buffer_after input lines = input ++ tail.
Proof.
  induction lines as [|l lines IH]; intros input Hin.
  - exists []. symmetry. apply app_nil_r.
  - destruct (IH (append_line input l) (append_line_c_str _ l Hin))
      as (tail & Ht).
    unfold buffer_after in *. cbn [fold_left]. rewrite Ht.
    unfold append_line.
    destruct (strlen input + strlen l <? INPUT_SIZE - 1).
    + exists (c_str l ++ tail). unfold strcat. rewrite Hin.
      symmetry. apply app_assoc.
    + exists tail. reflexivity.
Qed.

Lemma strlen_joined_cons l ls :
  strlen (joined (l :: ls)) = strlen l + strlen (joined ls).
Proof.
  unfold strlen at 1. rewrite joined_c_str. unfold joined. simpl.
  rewrite length_app. unfold strlen.
  fold (joined ls). rewrite joined_c_str. reflexivity.
Qed.

(** When everything fits, nothing is left out. *)
Lemma buffer_after_fits lines : forall input,
  c_str input = input ->
  strlen input + strlen (joined lines) < INPUT_SIZE - 1 ->
  buffer_after input lines = input ++ joined lines.
Proof.
  induction lines as [|l lines IH]; intros input Hin Hlen.
  - symmetry. apply app_nil_r.
  - rewrite strlen_joined_cons in Hlen.
    unfold buffer_after in *. cbn [fold_left].
    assert (Hl : (strlen input + strlen l <? INPUT_SIZE - 1) = true)
      by (apply Nat.ltb_lt; lia).
    unfold append_line at 2. rewrite Hl.
    rewrite IH; [| apply strcat_c_str | rewrite strlen_strcat; lia].
    unfold strcat. rewrite Hin, joined_cons. symmetry. apply app_assoc.
Qed.

(** The loop over lines that leave parentheses open, then one that closes
    them. *)
Lemma read_lines_open ls : forall input d fl last rest s,
  is_empty (hd last ls) && fl = false ->
  c_str input = input ->
  open_lines d ls ->
  count_parens false (depth_after d ls) last = 0%Z ->
  has_content (buffer_after input (ls ++ [last])) = true ->
  0 < strlen (buffer_after input (ls ++ [last])) ->
  read_lines (ls ++ last :: rest) input d fl s =
    Ok (Some (buffer_after input (ls ++ [last])), rest)
       (printed (continuation_prompts ls) s).
Proof.
  induction ls as [|l ls IH]; intros input d fl last rest s Hfirst Hin Hopen
    Hclose Hcont Hpos; cbn [app read_lines]; cbn [hd] in Hfirst;
    rewrite Hfirst.
  - unfold depth_after in Hclose. cbn [fold_left] in Hclose.
    unfold buffer_after in *. cbn [app fold_left] in *.
    fold (append_line input last).
    rewrite Hclose. change (0 =? 0)%Z with true. cbn [andb].
    apply Nat.ltb_lt in Hpos. rewrite Hpos, Hcont. cbn [andb].
    unfold continuation_prompts. cbn [map List.concat]. rewrite printed_nil.
    reflexivity.
  - destruct Hopen as [Hd Hopen].
    fold (append_line input l).
    assert (Hnz : (count_parens false d l =? 0)%Z = false).
    { apply Z.eqb_neq. lia. }
    rewrite Hnz. cbn [andb].
    assert (Hgt : (0 <? count_parens false d l)%Z = true).
    { apply Z.ltb_lt. exact Hd. }
    rewrite Hgt, (bind_ok _ (printf_run _ _)).
    unfold depth_after in Hclose. cbn [fold_left] in Hclose.
    rewrite (IH (append_line input l) _ false last rest).
    + unfold continuation_prompts. cbn [map List.concat].
      rewrite printed_printed. reflexivity.
    + apply andb_false_r.
    + apply append_line_c_str, Hin.
    + exact Hopen.
    + exact Hclose.
    + exact Hcont.
    + exact Hpos.
Qed.

(** X24.  An expression spread over several lines is read as one text:
    as long as each line leaves parentheses open the reader writes the
    continuation prompt and reads on, and with the line that closes them
    it hands over the buffer, to which each line was appended in turn
    unless it would have overrun the buffer.  The first line is always
    there; when all the lines joined fit the buffer, the text handed over
    is all of them joined, in order and unchanged.  The first line is one
    that fits the buffer, as every line [fgets] stores in its 1024 bytes
    does. *)
Theorem read_lines_joins_open_lines first ls last rest s :
  is_empty first = false ->
  strlen first < INPUT_SIZE - 1 ->
  open_lines 0%Z (first :: ls) ->
  count_parens false (depth_after 0%Z (first :: ls)) last = 0%Z ->
  read_lines (first :: ls ++ last :: rest) [] 0%Z true s =
    Ok (Some (buffer_after [] (first :: ls ++ [last])), rest)
       (printed (continuation_prompts (first :: ls)) s) /\
  (exists tail,
     buffer_after [] (first :: ls ++ [last]) = c_str first ++ tail) /\
  (strlen (joined (first :: ls ++ [last])) < INPUT_SIZE - 1 ->
   buffer_after [] (first :: ls ++ [last]) = joined (first :: ls ++ [last])).
Proof.
  intros He Hfit Hopen Hclose.
  assert (Hfirst : append_line [] first = c_str first).
  { unfold append_line. change (strlen []) with 0. cbn [Nat.add].
    apply Nat.ltb_lt in Hfit. rewrite Hfit. reflexivity. }
  assert (Hpre : exists tail,
            buffer_after [] (first :: ls ++ [last]) = c_str first ++ tail).
  { unfold buffer_after. cbn [fold_left]. rewrite Hfirst.
    apply buffer_after_prefix, c_str_idem. }
  split; [|split; [exact Hpre|]].
  - destruct Hpre as (tail & Htail).
    apply (read_lines_open (first :: ls) [] 0%Z true last rest s).
    + cbn [hd]. rewrite He. reflexivity.
    + reflexivity.
    + exact Hopen.
    + exact Hclose.
    + cbn [app]. rewrite Htail. unfold has_content.
      apply has_content_app.
      apply (is_empty_has_content first false false (fun H => H) He).
    + cbn [app]. rewrite Htail.
      pose proof (is_empty_strlen _ He) as Hpos.
      unfold strlen in *. rewrite c_str_app, length_app. lia.
  - intros Hlen.
    apply (buffer_after_fits (first :: ls ++ [last]) [] eq_refl Hlen).
Qed.

Lemma read_lines_joins_open_lines_witness :
  read_lines [lit "(defun f (x)" ++ [newline]; lit "  x)" ++ [newline];
              lit "(f 1)" ++ [newline]]
    [] 0%Z true booted =
    Ok (Some (buffer_after [] [lit "(defun f (x)" ++ [newline];
                               lit "  x)" ++ [newline]]),
        [lit "(f 1)" ++ [newline]])
       (printed (continuation_prompts [lit "(defun f (x)" ++ [newline]])
          booted) /\
  (exists tail,
     buffer_after [] [lit "(defun f (x)" ++ [newline];
                      lit "  x)" ++ [newline]] =
     c_str (lit "(defun f (x)" ++ [newline]) ++ tail) /\
  (strlen (joined [lit "(defun f (x)" ++ [newline];
                   lit "  x)" ++ [newline]]) < INPUT_SIZE - 1 ->
   buffer_after [] [lit "(defun f (x)" ++ [newline];
                    lit "  x)" ++ [newline]] =
   joined [lit "(defun f (x)" ++ [newline]; lit "  x)" ++ [newline]]).
Proof.
  apply (read_lines_joins_open_lines (lit "(defun f (x)" ++ [newline]) []
           (lit "  x)" ++ [newline]) [lit "(f 1)" ++ [newline]] booted).
  - reflexivity.
  - apply Nat.ltb_lt. vm_compute. reflexivity.
  - split; [reflexivity | exact I].
  - reflexivity.
Defined.

Lemma read_lines_bound stdin : forall input d fl s r rest s',
  read_lines stdin input d fl s = Ok (Some r, rest) s' ->
  strlen input < INPUT_SIZE - 1 ->
  strlen r < INPUT_SIZE - 1.
Proof.
  induction stdin as [|line stdin IH]; intros input d fl s r rest s' H Hlen;
    cbn [read_lines] in H.
  - destruct (strlen input =? 0); [discriminate|].
    inversion H; subst. exact Hlen.
  - destruct (is_empty line && fl).
    { inversion H; subst. exact Hlen. }
    set (input' := if strlen input + strlen line <? INPUT_SIZE - 1
                   then strcat input line else input) in H.
    assert (Hlen' : strlen input' < INPUT_SIZE - 1).
    { unfold input'.
      destruct (Nat.ltb_spec (strlen input + strlen line) (INPUT_SIZE - 1));
        [rewrite strlen_strcat|]; assumption. }
    destruct ((count_parens false d line =? 0)%Z && (0 <? strlen input')
              && has_content input').
    { inversion H; subst. exact Hlen'. }
    apply bind_inv in H. destruct H as (u & s1 & _ & H).
    apply (IH _ _ _ _ _ _ _ H Hlen').
Qed.

(** X25.  The input buffer is never overrun: however many lines are read
    and however long they are, the text handed over to the parser is
    shorter than the buffer by at least its final NUL. *)
Theorem input_buffer_never_overrun stdin s r rest s' :
  read_lines stdin [] 0%Z true s = Ok (Some r, rest) s' ->
  strlen r + 1 < INPUT_SIZE.
Proof.
  intros H.
  pose proof (read_lines_bound stdin [] 0%Z true s r rest s' H) as Hb.
  assert (Hz : strlen [] < INPUT_SIZE - 1).
  { apply Nat.ltb_lt. vm_compute. reflexivity. }
  specialize (Hb Hz). unfold INPUT_SIZE in *. lia.
Qed.

Lemma input_buffer_never_overrun_witness :
  strlen (joined [lit "(+ 1" ++ [newline]; lit "2)" ++ [newline]]) + 1
  < INPUT_SIZE.
Proof.
  apply (input_buffer_never_overrun
           [lit "(+ 1" ++ [newline]; lit "2)" ++ [newline]] booted
           (joined [lit "(+ 1" ++ [newline]; lit "2)" ++ [newline]]) []
           (printed (lit "  ") booted)).
  vm_compute. reflexivity.
Defined.

Lemma repl_loop_blank fuel lines : forall n s,
  Forall (fun line => is_empty line = true) lines ->
  List.length lines < n ->
  repl_loop n fuel lines s =
    Ok tt (printed (prompts lines ++ lit "> " ++ [newline]) s).
Proof.
  induction lines as [|line lines IH]; intros n s Hall Hn;
    (destruct n as [|n]; [simpl in Hn; lia|]); cbn [repl_loop].
  - rewrite (bind_ok _ (printf_run _ _)).
    rewrite (bind_ok _ (eq_refl : read_lines [] [] 0%Z true _ =
                                  Ok (None, []) (printed [newline] _))).
    rewrite printed_printed. reflexivity.
  - inversion Hall as [|? ? He Hrest]; subst.
    rewrite (bind_ok _ (printf_run _ _)).
    rewrite (bind_ok _ (read_lines_blank _ _ _ He)).
    change (strlen [] =? 0) with true. cbv iota.
    rewrite (IH n _ Hrest) by (simpl in Hn; lia).
    rewrite printed_printed.
    unfold prompts. cbn [map List.concat]. rewrite <- app_assoc.
    reflexivity.
Qed.

(** X26.  On an input of blank lines only (white space, comments) the
    interpreter evaluates nothing: after start-up it writes the banner, a
    prompt for each line and one more, and at the end of the input a
    newline; [main] then returns 0. *)
Theorem main_blank_input fuel lines n :
  Forall (fun line => is_empty line = true) lines ->
  List.length lines < n ->
  main n fuel lines start =
    Ok 0%Z (printed (banner ++ prompts lines ++ lit "> " ++ [newline]) booted).
Proof.
  intros Hall Hn. unfold main, repl.
  rewrite !bind_assoc, (bind_ok _ booted_run).
  rewrite !bind_assoc, (bind_ok _ (printf_run _ _)).
  assert (Hloop : repl_loop n fuel lines (printed banner booted) =
            Ok tt (printed (prompts lines ++ lit "> " ++ [newline])
                     (printed banner booted))).
  { apply repl_loop_blank; assumption. }
  rewrite (bind_ok _ Hloop), printed_printed. reflexivity.
Qed.

Lemma main_blank_input_witness :
  main 3 5 [[newline]; lit " ; nothing here" ++ [newline]] start =
    Ok 0%Z
       (printed (banner ++
                 prompts [[newline]; lit " ; nothing here" ++ [newline]] ++
                 lit "> " ++ [newline]) booted).
Proof.
  apply (main_blank_input 5 [[newline]; lit " ; nothing here" ++ [newline]] 3).
  - repeat constructor.
  - simpl. lia.
Defined.

(** ** Objects are never changed *)

Lemma stable_repl_step fuel text : stable (repl_step fuel text).
Proof.
  intros s v s' H. unfold repl_step in H.
  apply bind_inv in H. destruct H as ([expr t] & s1 & Hp & H).
  pose proof (proj1 (stable_parse_both fuel) _ _ _ _ Hp) as E1.
  destruct expr as [|e].
  { inversion H; subst. exact E1. }
  apply bind_inv in H. destruct H as (g & s2 & Hg & H).
  inversion Hg; subst s2 g.
  destruct (global_env_ptr s1) as [genv|]; [|discriminate].
  apply bind_inv in H. destruct H as (r & s3 & He & H).
  pose proof (stable_eval _ _ _ _ _ _ He) as E2.
  apply bind_inv in H. destruct H as (u & s4 & Hpr & H).
  pose proof (proj1 (stable_print_obj fuel) _ _ _ _ Hpr) as E3.
  apply bind_inv in H. destruct H as (u' & s5 & Hnl & H).
  pose proof (stable_printf _ _ _ _ Hnl) as E4.
  inversion H; subst.
  eapply extends_trans; [exact E1|]. eapply extends_trans; [exact E2|].
  eapply extends_trans; [exact E3 | exact E4].
Qed.

(** X27.  No object is ever changed or removed: whatever is read,
    evaluated or printed, an object of the table is afterwards the same
    object at the same place, and the nil and t objects are the same. *)
Theorem objects_never_change fuel s p o :
  lookup s p = Some o ->
  (forall t r s',
     parse_expr fuel t s = Ok r s' ->
     lookup s' p = Some o /\ nil_obj s' = nil_obj s /\ t_obj s' = t_obj s) /\
  (forall expr env v s',
     eval fuel expr env s = Ok v s' ->
     lookup s' p = Some o /\ nil_obj s' = nil_obj s /\ t_obj s' = t_obj s) /\
  (forall text v s',
     repl_step fuel text s = Ok v s' ->
     lookup s' p = Some o /\ nil_obj s' = nil_obj s /\ t_obj s' = t_obj s).
Proof.
  intros Hp.
  assert (Hext : forall s', extends s s' ->
            lookup s' p = Some o /\ nil_obj s' = nil_obj s /\
            t_obj s' = t_obj s).
  { intros s' E. split; [eapply extends_lookup; eauto|].
    destruct E as (_ & Hn & Ht). split; assumption. }
  split; [|split].
  - intros t r s' H. apply Hext.
    apply (proj1 (stable_parse_both fuel) _ _ _ _ H).
  - intros expr env v s' H. apply Hext.
    apply (stable_eval _ _ _ _ _ _ H).
  - intros text v s' H. apply Hext.
    apply (stable_repl_step _ _ _ _ _ H).
Qed.

Lemma objects_never_change_witness :
  (forall t r s',
     parse_expr 5 t heap_values = Ok r s' ->
     lookup s' (Addr 4) = Some (ObjCons (Addr 2) (Addr 3)) /\
     nil_obj s' = nil_obj heap_values /\ t_obj s' = t_obj heap_values) /\
  (forall expr env v s',
     eval 5 expr env heap_values = Ok v s' ->
     lookup s' (Addr 4) = Some (ObjCons (Addr 2) (Addr 3)) /\
     nil_obj s' = nil_obj heap_values /\ t_obj s' = t_obj heap_values) /\
  (forall text v s',
     repl_step 5 text heap_values = Ok v s' ->
     lookup s' (Addr 4) = Some (ObjCons (Addr 2) (Addr 3)) /\
     nil_obj s' = nil_obj heap_values /\ t_obj s' = t_obj heap_values).
Proof.
  apply (objects_never_change 5 heap_values (Addr 4)
           (ObjCons (Addr 2) (Addr 3))).
  reflexivity.
Defined.

(** ** Calls of the arithmetic primitives *)

Lemma int_list_extends ns : forall s s' p,
  extends s s' -> int_list s p ns -> int_list s' p ns.
Proof.
  induction ns as [|n ns IH]; simpl; intros s s' p Hext H.
  - destruct Hext as (_ & Hn & _). congruence.
  - destruct H as (Hne & a & d & Hc & Ha & Hd). split.
    + destruct Hext as (_ & Hn & _). congruence.
    + exists a, d. split; [eapply extends_lookup; eauto|].
      split; [eapply extends_lookup; eauto | eauto].
Qed.

(** [eval_list] on Integer objects copies the list: the elements are the
    same objects, the pairs are new. *)
Lemma eval_list_integers ns : forall fuel s args env,
  int_list s args ns ->
  nil_allocated s ->
  List.length ns < fuel ->
  room (List.length ns) s ->
  exists copy s1,
    eval_list fuel args env s = Ok copy s1 /\
    int_list s1 copy ns /\
    extends s s1 /\
    obj_count s1 = obj_count s + List.length ns /\
    out s1 = out s /\ err s1 = err s.
Proof.
  induction ns as [|n ns IH]; intros fuel s args env Hl Hnil Hfuel Hroom;
    (destruct fuel as [|fuel]; [simpl in Hfuel; lia|]); cbn [eval_list].
  - simpl in Hl. subst args. rewrite (bind_ok _ (is_nil_nil s)).
    exists (nil_obj s), s. split; [reflexivity|]. split; [reflexivity|].
    split; [apply extends_refl|]. simpl. repeat split; lia.
  - destruct (int_list_step _ _ _ _ Hl) as (a & d & H1 & H2 & H3 & H4 & H5).
    simpl in Hfuel.
    rewrite (bind_ok _ H1), (bind_ok _ H2).
    assert (Ha : eval fuel a env s = Ok a s).
    { destruct fuel as [|fuel]; [lia|].
      unfold deref in H3. destruct (lookup s a) as [o|] eqn:Hp; [|discriminate].
      inversion H3; subst o.
      destruct (lookup_valid _ _ _ Hp) as (k & -> & _).
      cbn [eval]. rewrite (bind_ok _ (deref_ok _ _ _ Hp)). reflexivity. }
    rewrite (bind_ok _ Ha), (bind_ok _ H4).
    destruct (IH fuel s d env H5 Hnil ltac:(lia)
                ltac:(apply (room_le (List.length (n :: ns)));
                      [exact Hroom | simpl; lia]))
      as (copy & s1 & Hrun & Hcopy & Hext & Hcount & Hout & Herr).
    rewrite (bind_ok _ Hrun).
    assert (Hr1 : room 1 s1).
    { unfold room in *. simpl in Hroom. lia. }
    rewrite (cons_ok _ _ _ Hr1).
    exists (Addr (obj_count s1)), (store_obj (ObjCons a copy) s1).
    split; [reflexivity|].
    assert (E1 : extends s1 (store_obj (ObjCons a copy) s1))
      by apply extends_store.
    split; [|split; [|split; [|split]]].
    + simpl. split.
      * replace (obj_count s1) with (obj_count s1 + 0) by lia.
        apply new_not_nil. eapply nil_allocated_extends; eauto.
      * exists a, copy. split; [apply lookup_store_new|]. split.
        -- unfold deref in H3.
           destruct (lookup s a) as [o|] eqn:Hp; [|discriminate].
           inversion H3; subst o.
           eapply extends_lookup; [|exact Hp].
           eapply extends_trans; eauto.
        -- eapply int_list_extends; eauto.
    + eapply extends_trans; eauto.
    + rewrite obj_count_store, Hcount. simpl. lia.
    + simpl. exact Hout.
    + simpl. exact Herr.
Qed.

(** X28.  A call of [+] on Integer literals, [(+ n1 ... nk)]: when the
    head evaluates to the primitive, the call copies the argument list
    into k new pairs and returns a new Integer holding the sum, reduced to
    32 bits; nothing is written, and no object is changed. *)
Theorem eval_sum_of_integers fuel env s expr op args oo fp ns :
  lookup s expr = Some (ObjCons op args) ->
  lookup s op = Some oo ->
  special_form oo = false ->
  eval fuel op env s = Ok fp s ->
  lookup s fp = Some (ObjFunc fn_add) ->
  int_list s args ns ->
  nil_allocated s ->
  List.length ns < fuel ->
  room (List.length ns + 1) s ->
  exists s',
    eval (S fuel) expr env s = Ok (Addr (obj_count s + List.length ns)) s' /\
    lookup s' (Addr (obj_count s + List.length ns)) =
      Some (ObjInt (wrap (sum_of ns))) /\
    obj_count s' = obj_count s + List.length ns + 1 /\
    extends s s' /\ out s' = out s /\ err s' = err s.
Proof.
  intros He Hop Hsp Hf Hfp Hl Hnil Hfuel Hroom.
  destruct (eval_list_integers ns fuel s args env Hl Hnil Hfuel
              ltac:(apply (room_le (List.length ns + 1));
                    [exact Hroom | lia]))
    as (copy & s1 & Hrun & Hcopy & Hext & Hcount & Hout & Herr).
  assert (Hr1 : room 1 s1) by (unfold room in *; lia).
  exists (store_obj (ObjInt (wrap (sum_of ns))) s1).
  split; [|split; [|split; [|split; [|split]]]].
  - destruct expr as [|e]; [discriminate|]. cbn [eval].
    rewrite (bind_ok _ (deref_ok _ _ _ He)).
    rewrite (bind_ok _ (car_cons _ _ _ _ He)),
            (bind_ok _ (cdr_cons _ _ _ _ He)).
    rewrite (bind_ok _ (deref_ok _ _ _ Hop)). cbv zeta.
    rewrite (special_dispatch oo _ _ _ _ _ Hsp).
    rewrite (bind_ok _ Hf), (bind_ok _ (deref_ok _ _ _ Hfp)).
    rewrite (bind_ok _ Hrun). cbn [call_builtin]. unfold builtin_add.
    rewrite (add_loop_spec _ _ _ _ _ Hcopy Hfuel).
    change 0%Z with (wrap 0) at 1. rewrite fold_add_wrap.
    rewrite (make_int_ok _ _ Hr1), Hcount. reflexivity.
  - rewrite <- Hcount. apply lookup_store_new.
  - rewrite obj_count_store, Hcount. lia.
  - eapply extends_trans; [exact Hext | apply extends_store].
  - exact Hout.
  - exact Herr.
Qed.

Lemma eval_sum_of_integers_witness :
  exists s',
    eval 13 (Addr 49) (Addr 41) heap_sum =
      Ok (Addr (obj_count heap_sum + List.length [7; 2; 3]%Z)) s' /\
    lookup s' (Addr (obj_count heap_sum + List.length [7; 2; 3]%Z)) =
      Some (ObjInt (wrap (sum_of [7; 2; 3]%Z))) /\
    obj_count s' = obj_count heap_sum + List.length [7; 2; 3]%Z + 1 /\
    extends heap_sum s' /\ out s' = out heap_sum /\ err s' = err heap_sum.
Proof.
  apply (eval_sum_of_integers 12 (Addr 41) heap_sum (Addr 49) (Addr 42)
           (Addr 48) (ObjSymbol "+") (Addr 14) [7; 2; 3]%Z).
  - vm_compute. reflexivity.
  - vm_compute. reflexivity.
  - reflexivity.
  - vm_compute. reflexivity.
  - vm_compute. reflexivity.
  - cbn [int_list]. split; [vm_compute; discriminate|].
    exists (Addr 43), (Addr 47).
    split; [vm_compute; reflexivity|]. split; [vm_compute; reflexivity|].
    split; [vm_compute; discriminate|].
    exists (Addr 44), (Addr 46).
    split; [vm_compute; reflexivity|]. split; [vm_compute; reflexivity|].
    split; [vm_compute; discriminate|].
    exists (Addr 45), (Addr 0).
    split; [vm_compute; reflexivity|]. split; [vm_compute; reflexivity|].
    vm_compute. reflexivity.
  - vm_compute. reflexivity.
  - simpl. lia.
  - unfold room. apply Nat.leb_le. vm_compute. reflexivity.
Defined.

(** ** The [lambda] form *)

(** X29.  [(lambda params body)] evaluates neither the parameter list nor
    the body: it allocates one Closure that holds them as they are,
    together with the environment the form is evaluated in, and returns
    it; anything after the body is ignored.  The Closure then evaluates to
    itself in every environment. *)
Theorem eval_lambda_captures_env fuel env s expr op args params rest body rest' :
  lookup s expr = Some (ObjCons op args) ->
  lookup s op = Some (ObjSymbol "lambda") ->
  lookup s args = Some (ObjCons params rest) ->
  lookup s rest = Some (ObjCons body rest') ->
  room 1 s ->
  eval (S fuel) expr env s =
    Ok (Addr (obj_count s)) (store_obj (ObjLambda params body env) s) /\
  forall n env',
    eval (S n) (Addr (obj_count s)) env'
      (store_obj (ObjLambda params body env) s) =
    Ok (Addr (obj_count s)) (store_obj (ObjLambda params body env) s).
Proof.
  intros He Hop Hargs Hrest Hroom. split.
  - destruct expr as [|e]; [discriminate|]. cbn [eval].
    rewrite (bind_ok _ (deref_ok _ _ _ He)).
    rewrite (bind_ok _ (car_cons _ _ _ _ He)),
            (bind_ok _ (cdr_cons _ _ _ _ He)).
    rewrite (bind_ok _ (deref_ok _ _ _ Hop)). cbv zeta.
    change (streq (lit "lambda") (lit "quote")) with false.
    change (streq (lit "lambda") (lit "if")) with false.
    change (streq (lit "lambda") (lit "lambda")) with true. cbv iota.
    rewrite (bind_ok _ (car_cons _ _ _ _ Hargs)),
            (bind_ok _ (cdr_cons _ _ _ _ Hargs)),
            (bind_ok _ (car_cons _ _ _ _ Hrest)).
    apply make_lambda_ok, Hroom.
  - intros n env'. cbn [eval].
    rewrite (bind_ok _ (deref_ok _ _ _ (lookup_store_new _ s))).
    reflexivity.
Qed.

Lemma eval_lambda_captures_env_witness :
  eval 1 (Addr 10) (Addr 0) heap_app =
    Ok (Addr (obj_count heap_app))
       (store_obj (ObjLambda (Addr 6) (Addr 7) (Addr 0)) heap_app) /\
  forall n env',
    eval (S n) (Addr (obj_count heap_app)) env'
      (store_obj (ObjLambda (Addr 6) (Addr 7) (Addr 0)) heap_app) =
    Ok (Addr (obj_count heap_app))
       (store_obj (ObjLambda (Addr 6) (Addr 7) (Addr 0)) heap_app).
Proof.
  apply (eval_lambda_captures_env 0 (Addr 0) heap_app (Addr 10) (Addr 2)
           (Addr 9) (Addr 6) (Addr 8) (Addr 7) (Addr 0)).
  - reflexivity.
  - reflexivity.
  - reflexivity.
  - reflexivity.
  - unfold room. apply Nat.leb_le. vm_compute. reflexivity.
Defined.
